(** * Block triangularization of a square incidence matrix

    A shallow embedding of [block_triangularize]
    (parker_cce2022/common/incidence_analysis/triangularize.py) and the
    properties of the decomposition it returns.

    Row, column, component and block indices are natural numbers.  Python
    dictionaries are insertion-ordered association lists with unique
    keys, Python exceptions are values of [exn], and the three library
    routines the function calls ([maximum_matching] of Pyomo,
    [strongly_connected_components] and [topological_sort] of NetworkX) are
    parameters of the embedding; their documented contracts appear as
    hypotheses about the single call made on the graph at hand. *)

From Stdlib Require Import String Ascii DecimalString.
From Stdlib Require Import List Arith Lia Bool PeanoNat.
From Stdlib Require Import Permutation Relations.
Import ListNotations.

(** ** Exceptions and the error monad *)

Inductive exn : Type :=
| ValueError (msg : string)
| KeyError (key : nat)
| AssertionError
| NetworkXUnfeasible.

Inductive exn_type : Type :=
| TValueError | TKeyError | TAssertionError | TNetworkXUnfeasible.

Definition type_of (e : exn) : exn_type :=
  match e with
  | ValueError _ => TValueError
  | KeyError _ => TKeyError
  | AssertionError => TAssertionError
  | NetworkXUnfeasible => TNetworkXUnfeasible
  end.

Inductive result (A : Type) : Type :=
| Ok (a : A)
| Raise (e : exn).

Arguments Ok {A} a.
Arguments Raise {A} e.

Definition bind {A B} (m : result A) (k : A -> result B) : result B :=
  match m with
  | Ok a => k a
  | Raise e => Raise e
  end.

Notation "x <- m ;; k" := (bind m (fun x => k))
  (at level 61, m at next level, right associativity).

Fixpoint mapM {A B} (f : A -> result B) (l : list A) : result (list B) :=
  match l with
  | [] => Ok []
  | a :: l' => b <- f a ;; bs <- mapM f l' ;; Ok (b :: bs)
  end.

Fixpoint foldM {A B} (f : B -> A -> result B) (l : list A) (b : B) : result B :=
  match l with
  | [] => Ok b
  | a :: l' => b' <- f b a ;; foldM f l' b'
  end.

Definition enumerate {A} (l : list A) : list (nat * A) :=
  combine (seq 0 (length l)) l.

(** ** Python dictionaries with integer keys *)

Module Dict.

Definition t (V : Type) : Type := list (nat * V).

Fixpoint get {V} (d : t V) (k : nat) : option V :=
  match d with
  | [] => None
  | (k', v) :: d' => if k' =? k then Some v else get d' k
  end.

(** [d[k] = v]: an existing key keeps its position. *)
Fixpoint set {V} (d : t V) (k : nat) (v : V) : t V :=
  match d with
  | [] => [(k, v)]
  | (k', v') :: d' =>
      if k' =? k then (k', v) :: d' else (k', v') :: set d' k v
  end.

Definition keys {V} (d : t V) : list nat := map fst d.
Definition items {V} (d : t V) : list (nat * V) := d.
Definition len {V} (d : t V) : nat := length d.

(** [{k: v for (k, v) in l}]. *)
Definition of_items {V} (l : list (nat * V)) : t V :=
  fold_left (fun d kv => set d (fst kv) (snd kv)) l [].

(** [d[k]] as an expression: KeyError when the key is absent. *)
Definition getitem {V} (d : t V) (k : nat) : result V :=
  match get d k with
  | Some v => Ok v
  | None => Raise (KeyError k)
  end.

End Dict.

(** ** The part of NetworkX the function uses

    A graph is its adjacency dictionary: node to the list of its
    neighbours (successors, for a DiGraph) in insertion order. *)

Module nx.

Definition Graph : Type := Dict.t (list nat).

Definition empty : Graph := [].

Definition nodes (g : Graph) : list nat := Dict.keys g.

Definition add_node (g : Graph) (n : nat) : Graph :=
  match Dict.get g n with
  | Some _ => g
  | None => Dict.set g n []
  end.

Definition add_nodes_from (g : Graph) (ns : list nat) : Graph :=
  fold_left add_node ns g.

(** [adj[u][v] = {}] for nodes already present. *)
Definition add_arc (g : Graph) (u v : nat) : Graph :=
  match Dict.get g u with
  | Some ss => if existsb (Nat.eqb v) ss then g else Dict.set g u (ss ++ [v])
  | None => g
  end.

(** [DiGraph.add_edge]. *)
Definition add_edge (g : Graph) (u v : nat) : Graph :=
  add_arc (add_node (add_node g u) v) u v.

(** [Graph.add_edge] of an undirected graph. *)
Definition add_edge_undirected (g : Graph) (u v : nat) : Graph :=
  add_arc (add_arc (add_node (add_node g u) v) u v) v u.

(** [g[n]]. *)
Definition getitem (g : Graph) (n : nat) : result (list nat) :=
  Dict.getitem g n.

Definition has_edge (g : Graph) (u v : nat) : Prop :=
  exists ss, Dict.get g u = Some ss /\ In v ss.

(** A graph whose dictionaries have unique keys. *)
Definition wf (g : Graph) : Prop :=
  NoDup (nodes g) /\ forall u ss, Dict.get g u = Some ss -> NoDup ss.

End nx.

(** ** Sparse matrices: a shape and the stored entries *)

Record spmatrix : Type := {
  shape : nat * nat;
  entries : list (nat * nat)
}.

Definition nonzero (A : spmatrix) (row col : nat) : Prop :=
  In (row, col) (entries A).

Definition nonzerob (A : spmatrix) (row col : nat) : bool :=
  existsb (fun e => (fst e =? row) && (snd e =? col)) (entries A).

(** Every stored entry lies inside the shape. *)
Definition wf_matrix (A : spmatrix) : Prop :=
  forall i j, In (i, j) (entries A) -> i < fst (shape A) /\ j < snd (shape A).

(** [networkx.algorithms.bipartite.matrix.from_biadjacency_matrix]: rows
    are nodes [0 .. n-1], columns are nodes [n .. n+m-1]. *)
Definition from_biadjacency_matrix (A : spmatrix) : nx.Graph :=
  let '(n, m) := shape A in
  let G := nx.add_nodes_from nx.empty (seq 0 n) in
  let G := nx.add_nodes_from G (seq n m) in
  fold_left (fun G e => nx.add_edge_undirected G (fst e) (n + snd e))
            (entries A) G.

(** ** The two messages of the function *)

Definition str_of_nat (n : nat) : string :=
  NilEmpty.string_of_uint (Nat.to_uint n).

Definition str_of_shape (s : nat * nat) : string :=
  ("(" ++ str_of_nat (fst s) ++ ", " ++ str_of_nat (snd s) ++ ")")%string.

Definition shape_msg (s : nat * nat) : string :=
  ("block_triangularize does not currently support non-square matrices. Got matrix with shape "
     ++ str_of_shape s ++ ".")%string.

Definition matching_msg (len_matching : nat) : string :=
  ("block_triangularize only supports matrices that have a perfect matching of rows and columns. Cardinality of maximal matching is "
     ++ str_of_nat len_matching)%string.

(** ** The dictionaries built by comprehension *)

(** The pairs the comprehension of [node_scc_map] runs through. *)
Definition scc_items (scc_list : list (list nat)) : list (nat * nat) :=
  flat_map (fun ic => map (fun n => (n, fst ic)) (snd ic)) (enumerate scc_list).

(** [{c: i for i, c in enumerate(scc_order)}]. *)
Definition block_map (scc_order : list nat) : Dict.t nat :=
  Dict.of_items (map (fun ic => (snd ic, fst ic)) (enumerate scc_order)).

(** [{c: r for r, c in matching.items()}]. *)
Definition invert (m : Dict.t nat) : Dict.t nat :=
  Dict.of_items (map (fun rc => (snd rc, fst rc)) (Dict.items m)).

(** ** block_triangularize *)

Section BlockTriangularize.

Variable maximum_matching : spmatrix -> Dict.t nat.
Variable strongly_connected_components : nx.Graph -> list (list nat).
(** [None] stands for the NetworkXUnfeasible raised on a cyclic graph. *)
Variable topological_sort : nx.Graph -> option (list nat).

(** Body of the loop over the rows (lines 60 to 67).  The neighbours of
    a column node are rows, which are nodes of [dg] from the start, so
    the nodes being iterated over do not change during the loop. *)
Definition add_row_edges (bg : nx.Graph) (M : nat) (matching : Dict.t nat)
           (dg : nx.Graph) (n : nat) : result nx.Graph :=
  col_idx <- Dict.getitem matching n ;;
  let col_node := col_idx + M in
  nbrs <- nx.getitem bg col_node ;;
  Ok (fold_left
        (fun dg neighbor =>
           if negb (neighbor =? n) then nx.add_edge dg neighbor n else dg)
        nbrs dg).

(** The directed graph of rows (lines 58 to 67). *)
Definition build_dg (bg : nx.Graph) (M : nat) (matching : Dict.t nat)
  : result nx.Graph :=
  let dg := nx.add_nodes_from nx.empty (seq 0 M) in
  foldM (add_row_edges bg M matching) (nx.nodes dg) dg.

(** [{n: idx for idx, scc in enumerate(scc_list) for n in scc}]. *)
Definition build_node_scc_map (scc_list : list (list nat)) : Dict.t nat :=
  fold_left
    (fun d ic => fold_left (fun d n => Dict.set d n (fst ic)) (snd ic) d)
    (enumerate scc_list) [].

(** Body of the loop over the nodes of [dg] (lines 78 to 84). *)
Definition add_scc_edges (dg : nx.Graph) (node_scc_map : Dict.t nat)
           (dag : nx.Graph) (n : nat) : result nx.Graph :=
  source_scc <- Dict.getitem node_scc_map n ;;
  succs <- nx.getitem dg n ;;
  foldM (fun dag neighbor =>
           target_scc <- Dict.getitem node_scc_map neighbor ;;
           Ok (if negb (target_scc =? source_scc)
               then nx.add_edge dag target_scc source_scc
               else dag))
        succs dag.

(** The graph of components, edges reversed (lines 75 to 84). *)
Definition build_dag (dg : nx.Graph) (scc_list : list (list nat))
           (node_scc_map : Dict.t nat) : result nx.Graph :=
  let dag :=
    fold_left (fun g ic => nx.add_node g (fst ic)) (enumerate scc_list)
              nx.empty in
  foldM (add_scc_edges dg node_scc_map) (nx.nodes dg) dag.

Definition block_triangularize (matrix : spmatrix)
           (matching : option (Dict.t nat))
  : result (Dict.t nat * Dict.t nat * list (list nat)) :=
  let '(M, N) := shape matrix in
  if negb (M =? N) then Raise (ValueError (shape_msg (M, N))) else
  let bg := from_biadjacency_matrix matrix in
  let matching :=
    match matching with
    | None => maximum_matching matrix
    | Some m => m
    end in
  let len_matching := Dict.len matching in
  if negb (len_matching =? M)
  then Raise (ValueError (matching_msg len_matching)) else
  dg <- build_dg bg M matching ;;
  let scc_list := strongly_connected_components dg in
  let node_scc_map := build_node_scc_map scc_list in
  dag <- build_dag dg scc_list node_scc_map ;;
  scc_order <- match topological_sort dag with
               | Some l => Ok l
               | None => Raise NetworkXUnfeasible
               end ;;
  let scc_block_map := block_map scc_order in
  row_items <- mapM (fun nc => b <- Dict.getitem scc_block_map (snd nc) ;;
                               Ok (fst nc, b))
                    (Dict.items node_scc_map) ;;
  let row_block_map := Dict.of_items row_items in
  dag_ll <- mapM (fun i => succs <- nx.getitem dag i ;;
                           mapM (Dict.getitem scc_block_map) succs)
                 scc_order ;;
  let col_row_map := invert matching in
  if negb (Dict.len col_row_map =? M) then Raise AssertionError else
  col_items <- mapM (fun c => r <- Dict.getitem col_row_map c ;;
                              b <- Dict.getitem row_block_map r ;;
                              Ok (c, b))
                    (seq 0 N) ;;
  let col_block_map := Dict.of_items col_items in
  Ok (row_block_map, col_block_map, dag_ll).

End BlockTriangularize.

(** ** Executable stand-ins for the library routines

    Simple quadratic versions, used to run the function on examples. *)

Module Reference.

Definition memb (x : nat) (l : list nat) : bool := existsb (Nat.eqb x) l.

Definition succs (g : nx.Graph) (u : nat) : list nat :=
  match Dict.get g u with
  | Some ss => ss
  | None => []
  end.

Definition add_new (S : list nat) (x : nat) : list nat :=
  if memb x S then S else S ++ [x].

Fixpoint closure (g : nx.Graph) (fuel : nat) (S : list nat) : list nat :=
  match fuel with
  | 0 => S
  | Datatypes.S fuel' =>
      closure g fuel' (fold_left add_new (flat_map (succs g) S) S)
  end.

Definition reach_from (g : nx.Graph) (u : nat) : list nat :=
  closure g (length g) [u].

Definition mutualb (g : nx.Graph) (u v : nat) : bool :=
  memb v (reach_from g u) && memb u (reach_from g v).

Definition strongly_connected_components (g : nx.Graph) : list (list nat) :=
  fold_left
    (fun acc u =>
       if existsb (memb u) acc then acc
       else acc ++ [filter (mutualb g u) (nx.nodes g)])
    (nx.nodes g) [].

Definition has_pred_in (g : nx.Graph) (R : list nat) (n : nat) : bool :=
  existsb (fun m => memb n (succs g m)) R.

Fixpoint topo_loop (g : nx.Graph) (fuel : nat) (R acc : list nat)
  : option (list nat) :=
  match R with
  | [] => Some acc
  | _ :: _ =>
      match fuel with
      | 0 => None
      | Datatypes.S fuel' =>
          match find (fun n => negb (has_pred_in g R n)) R with
          | Some n =>
              topo_loop g fuel' (filter (fun m => negb (m =? n)) R)
                        (acc ++ [n])
          | None => None
          end
      end
  end.

Definition topological_sort (g : nx.Graph) : option (list nat) :=
  topo_loop g (length g) (nx.nodes g) [].

(** A greedy matching: each row takes its first free column. *)
Definition maximum_matching (A : spmatrix) : Dict.t nat :=
  fold_left
    (fun d i =>
       match find (fun j => nonzerob A i j && negb (memb j (map snd d)))
                  (seq 0 (snd (shape A))) with
       | Some j => Dict.set d i j
       | None => d
       end)
    (seq 0 (fst (shape A))) [].

Definition run (A : spmatrix) (matching : option (Dict.t nat)) :=
  block_triangularize maximum_matching strongly_connected_components
                      topological_sort A matching.

End Reference.

(** A second stand-in for [strongly_connected_components], which
    numbers the components the other way round. *)

Module Alternative.

Definition strongly_connected_components (g : nx.Graph) : list (list nat) :=
  rev (Reference.strongly_connected_components g).

Definition run (A : spmatrix) (matching : option (Dict.t nat)) :=
  block_triangularize Reference.maximum_matching strongly_connected_components
                      Reference.topological_sort A matching.

End Alternative.

(** ** Contracts of the library routines and validity of the input *)

(** [v] can be reached from [u] along edges of [g]. *)
Definition reach (g : nx.Graph) : nat -> nat -> Prop :=
  clos_refl_trans nat (nx.has_edge g).

(** [strongly_connected_components]: the components are non-empty, cover
    the nodes, share no node, and two nodes lie in the same component
    exactly when each reaches the other. *)
Definition scc_spec (g : nx.Graph) (l : list (list nat)) : Prop :=
  NoDup (concat l) /\
  (forall u, In u (concat l) <-> In u (nx.nodes g)) /\
  (forall c, In c l -> c <> []) /\
  (forall i j ci cj u v,
      nth_error l i = Some ci -> nth_error l j = Some cj ->
      In u ci -> In v cj ->
      (i = j <-> reach g u v /\ reach g v u)).

(** [u] comes before [v] in [l]. *)
Definition before (l : list nat) (u v : nat) : Prop :=
  exists i j, nth_error l i = Some u /\ nth_error l j = Some v /\ i < j.

(** [topological_sort]: every node once, every edge forwards; the
    failure is raised on graphs with a cycle only. *)
Definition topo_spec (g : nx.Graph) (r : option (list nat)) : Prop :=
  match r with
  | Some l =>
      NoDup l /\
      (forall u, In u l <-> In u (nx.nodes g)) /\
      (forall u v, nx.has_edge g u v -> before l u v)
  | None => exists u, clos_trans nat (nx.has_edge g) u u
  end.

Definition square (A : spmatrix) : Prop := fst (shape A) = snd (shape A).

(** The matching the function works with. *)
Definition the_matching (maximum_matching : spmatrix -> Dict.t nat)
           (A : spmatrix) (matching : option (Dict.t nat)) : Dict.t nat :=
  match matching with
  | None => maximum_matching A
  | Some m => m
  end.

(** A perfect matching: a dictionary whose keys are the rows, whose values
    are pairwise distinct, each row paired with a column it has an entry
    in. *)
Definition perfect_matching (A : spmatrix) (m : Dict.t nat) : Prop :=
  NoDup (Dict.keys m) /\
  (forall r, In r (Dict.keys m) <-> r < fst (shape A)) /\
  NoDup (map snd m) /\
  (forall r c, In (r, c) m -> nonzero A r c).

(** The two graphs of a call, when their construction succeeds. *)
Definition row_graph (A : spmatrix) (m : Dict.t nat) : result nx.Graph :=
  build_dg (from_biadjacency_matrix A) (fst (shape A)) m.

Definition scc_graph (scc : nx.Graph -> list (list nat)) (dg : nx.Graph)
  : result nx.Graph :=
  build_dag dg (scc dg) (build_node_scc_map (scc dg)).

(** The library routines honour their contracts on the two graphs of the
    call on [A] and [m]. *)
Definition library_contracts (scc : nx.Graph -> list (list nat))
           (topo : nx.Graph -> option (list nat))
           (A : spmatrix) (m : Dict.t nat) : Prop :=
  forall dg, row_graph A m = Ok dg ->
    scc_spec dg (scc dg) /\
    forall dag, scc_graph scc dg = Ok dag -> topo_spec dag (topo dag).

(** Row [r] has an entry in the column matched to another row [s]: the
    edge [r -> s] of the graph of rows. *)
Definition row_edge (A : spmatrix) (m : Dict.t nat) (r s : nat) : Prop :=
  r <> s /\ exists c, Dict.get m s = Some c /\ nonzero A r c.

(** ** What a successful call returns *)

(** Each of two rows reaches the other along [R]. *)
Definition mutual (R : nat -> nat -> Prop) (u v : nat) : Prop :=
  clos_refl_trans nat R u v /\ clos_refl_trans nat R v u.

(** The three results [rb], [cb] and [ll] of a call on [A] and the
    matching [m], described in terms of the input alone. *)
Record decomposition (A : spmatrix) (m rb cb : Dict.t nat)
       (ll : list (list nat)) : Prop := {
  dec_rows_once : NoDup (Dict.keys rb);
  dec_rows : forall r, In r (Dict.keys rb) <-> r < fst (shape A);
  dec_cols : Dict.keys cb = seq 0 (snd (shape A));
  dec_col_row : forall r c,
    Dict.get m r = Some c -> Dict.get cb c = Dict.get rb r;
  dec_bound : forall r b, Dict.get rb r = Some b -> b < length ll;
  dec_inhabited : forall b, b < length ll -> exists r, Dict.get rb r = Some b;
  dec_same : forall r s b b',
    Dict.get rb r = Some b -> Dict.get rb s = Some b' ->
    (b = b' <-> mutual (row_edge A m) r s);
  dec_ll_once : forall b lb, nth_error ll b = Some lb -> NoDup lb;
  dec_ll : forall b lb b',
    nth_error ll b = Some lb ->
    (In b' lb <->
     b <> b' /\ exists r s, row_edge A m r s /\
                            Dict.get rb r = Some b' /\ Dict.get rb s = Some b);
  dec_order : forall r s b b',
    row_edge A m r s ->
    Dict.get rb r = Some b -> Dict.get rb s = Some b' -> b' <= b
}.

(** Block [b'] is listed at position [b] of the dependency structure. *)
Definition adjacent (ll : list (list nat)) (b b' : nat) : Prop :=
  exists lb, nth_error ll b = Some lb /\ In b' lb.

(** Some row of block [b] has an entry in a column of another block
    [b']: block [b] needs the variables of [b']. *)
Definition depends_on (A : spmatrix) (rb cb : Dict.t nat) (b b' : nat) : Prop :=
  b <> b' /\
  exists row col, nonzero A row col /\
                  Dict.get rb row = Some b /\ Dict.get cb col = Some b'.

(** ** Relabelling rows and columns *)

(** [p] renames the indices below [N] among themselves, no two alike. *)
Definition permutes (N : nat) (p : nat -> nat) : Prop :=
  (forall i, i < N -> p i < N) /\
  (forall i j, i < N -> j < N -> p i = p j -> i = j).

(** [A'] and [m'] are [A] and [m] with row [i] renamed [pr i] and column
    [j] renamed [pc j]. *)
Definition relabelled (pr pc : nat -> nat) (A A' : spmatrix)
           (m m' : Dict.t nat) : Prop :=
  shape A' = shape A /\
  (forall i j, i < fst (shape A) -> j < snd (shape A) ->
               (nonzero A' (pr i) (pc j) <-> nonzero A i j)) /\
  (forall r c, Dict.get m r = Some c -> Dict.get m' (pr r) = Some (pc c)).

Definition block_of (rb : Dict.t nat) (r : nat) : nat :=
  match Dict.get rb r with
  | Some b => b
  | None => 0
  end.

(** The renaming of blocks induced by a renaming [pr] of the rows: the
    new block of the first row of the block. *)
Definition induced (N : nat) (pr : nat -> nat) (rb rb' : Dict.t nat)
           (b : nat) : nat :=
  match find (fun r => block_of rb r =? b) (seq 0 N) with
  | Some r => block_of rb' (pr r)
  | None => 0
  end.

(** ** The rows or columns of a block *)

(** The indices below [N] that the map [d] sends to block [b], in
    increasing order. *)
Definition members (N : nat) (d : Dict.t nat) (b : nat) : list nat :=
  filter (fun i => match Dict.get d i with
                   | Some b' => b' =? b
                   | None => false
                   end)
         (seq 0 N).

(** ** Failures of dictionary lookups *)

Definition is_key_error (e : exn) : Prop := exists k, e = KeyError k.

(** ** Deciding the hypotheses on a given input *)

Module Decide.
Import Dict nx Reference.

Fixpoint nodupb (l : list nat) : bool :=
  match l with
  | [] => true
  | x :: l' => negb (memb x l') && nodupb l'
  end.

Definition subsetb (l l' : list nat) : bool := forallb (fun x => memb x l') l.

Definition closedb (g : Graph) (R : list nat) : bool :=
  forallb (fun x => subsetb (succs g x) R) R.

Definition scc_check (g : Graph) (l : list (list nat)) : bool :=
  nodupb (concat l) && subsetb (concat l) (nodes g) &&
  subsetb (nodes g) (concat l) &&
  forallb (fun c => match c with [] => false | _ :: _ => true end) l &&
  forallb (fun u => closedb g (reach_from g u)) (nodes g) &&
  forallb
    (fun ic =>
       forallb
         (fun jc =>
            forallb
              (fun u =>
                 forallb
                   (fun v => Bool.eqb (fst ic =? fst jc) (mutualb g u v))
                   (snd jc))
              (snd ic))
         (enumerate l))
    (enumerate l).

Fixpoint index_of (x : nat) (l : list nat) : nat :=
  match l with
  | [] => 0
  | y :: l' => if y =? x then 0 else S (index_of x l')
  end.

Definition topo_check (g : Graph) (r : option (list nat)) : bool :=
  match r with
  | None => false
  | Some l =>
      nodupb l && subsetb l (nodes g) && subsetb (nodes g) l &&
      forallb
        (fun u =>
           forallb (fun v => memb v l && (index_of u l <? index_of v l))
                   (succs g u))
        (nodes g)
  end.

Definition wf_matrixb (A : spmatrix) : bool :=
  forallb (fun e => (fst e <? fst (shape A)) && (snd e <? snd (shape A)))
          (entries A).

Definition perfect_matchingb (A : spmatrix) (m : Dict.t nat) : bool :=
  nodupb (keys m) && subsetb (keys m) (seq 0 (fst (shape A))) &&
  subsetb (seq 0 (fst (shape A))) (keys m) && nodupb (map snd m) &&
  forallb (fun rc => nonzerob A (fst rc) (snd rc)) m.

Definition contracts_check (scc : Graph -> list (list nat))
           (topo : Graph -> option (list nat))
           (A : spmatrix) (m : Dict.t nat) : bool :=
  match row_graph A m with
  | Ok dg =>
      scc_check dg (scc dg) &&
      match scc_graph scc dg with
      | Ok dag => topo_check dag (topo dag)
      | Raise _ => true
      end
  | Raise _ => true
  end.

Definition permutesb (N : nat) (p : nat -> nat) : bool :=
  forallb (fun i => p i <? N) (seq 0 N) && nodupb (map p (seq 0 N)).

Definition relabelledb (pr pc : nat -> nat) (A A' : spmatrix)
           (m m' : Dict.t nat) : bool :=
  (fst (shape A') =? fst (shape A)) && (snd (shape A') =? snd (shape A)) &&
  forallb
    (fun i =>
       forallb
         (fun j => Bool.eqb (nonzerob A' (pr i) (pc j)) (nonzerob A i j))
         (seq 0 (snd (shape A))))
    (seq 0 (fst (shape A))) &&
  forallb
    (fun rc =>
       match get m' (pr (fst rc)) with
       | Some c' => c' =? pc (snd rc)
       | None => false
       end)
    m.

End Decide.

(** ** Example inputs *)

Module Examples.

(** A lower triangular 2 by 2 matrix. *)
Definition lower2 : spmatrix :=
  {| shape := (2, 2); entries := [(0, 0); (1, 0); (1, 1)] |}.

Definition identity2 : Dict.t nat := [(0, 0); (1, 1)].

(** Two dense 2 by 2 blocks, the second using a column of the first. *)
Definition chained4 : spmatrix :=
  {| shape := (4, 4);
     entries := [(0, 0); (0, 1); (1, 0); (1, 1);
                 (2, 1); (2, 2); (2, 3); (3, 2); (3, 3)] |}.

Definition identity4 : Dict.t nat := [(0, 0); (1, 1); (2, 2); (3, 3)].

Definition crossed4 : Dict.t nat := [(0, 1); (1, 0); (2, 3); (3, 2)].

(** Rows 0 and 1 both use the column matched to row 2. *)
Definition arrow3 : spmatrix :=
  {| shape := (3, 3);
     entries := [(0, 0); (1, 1); (2, 2); (0, 2); (1, 2)] |}.

Definition identity3 : Dict.t nat := [(0, 0); (1, 1); (2, 2)].

Definition wide : spmatrix :=
  {| shape := (2, 3); entries := [(0, 0); (1, 2)] |}.

Definition dense2 : spmatrix :=
  {| shape := (2, 2); entries := [(0, 0); (0, 1); (1, 0); (1, 1)] |}.

(** Two rows matched to the same column. *)
Definition repeated2 : Dict.t nat := [(0, 0); (1, 0)].

Definition partial2 : Dict.t nat := [(0, 0)].

(** The example renaming: a rotation of three indices. *)
Definition rotate3 (i : nat) : nat :=
  match i with
  | 0 => 1
  | 1 => 2
  | 2 => 0
  | _ => i
  end.

(** [Examples.arrow3] with rows and columns renamed by [rotate3]. *)
Definition arrow3_rotated : spmatrix :=
  {| shape := (3, 3);
     entries := [(0, 0); (1, 0); (1, 1); (2, 0); (2, 2)] |}.

(** A matching with two entries that leaves row 1 out. *)
Definition stray2 : Dict.t nat := [(0, 0); (5, 1)].


(** A matching with more entries than the matrix has rows. *)
Definition oversized2 : Dict.t nat := [(0, 0); (1, 1); (2, 0)].

Definition empty0 : spmatrix := {| shape := (0, 0); entries := [] |}.

Definition diagonal3 : spmatrix :=
  {| shape := (3, 3); entries := [(0, 0); (1, 1); (2, 2)] |}.

(** Lower triangular, every entry on or below the diagonal stored. *)
Definition lower3 : spmatrix :=
  {| shape := (3, 3);
     entries := [(0, 0); (1, 0); (1, 1); (2, 0); (2, 1); (2, 2)] |}.

Definition swapped2 : Dict.t nat := [(0, 1); (1, 0)].

(** The entries of [arrow3] stored in another order, one of them twice. *)
Definition arrow3_shuffled : spmatrix :=
  {| shape := (3, 3);
     entries := [(1, 2); (2, 2); (0, 2); (1, 1); (0, 0); (1, 2)] |}.

End Examples.

(** ** Lemmas on dictionaries *)

Module DictFacts.
Import Dict.

Section WithValues.
Context {V : Type}.
Implicit Types (d : t V) (k : nat) (v : V).

Lemma get_set d k v k' :
  get (set d k v) k' = if k =? k' then Some v else get d k'.
Proof.
  induction d as [|[k0 v0] d IH]; simpl.
  - reflexivity.
  - destruct (k0 =? k) eqn:E0; simpl.
    + apply Nat.eqb_eq in E0; subst k0.
      destruct (k =? k'); reflexivity.
    + destruct (k0 =? k') eqn:E1.
      * apply Nat.eqb_eq in E1; subst k0.
        rewrite Nat.eqb_sym, E0. reflexivity.
      * exact IH.
Qed.

Lemma get_set_same d k v : get (set d k v) k = Some v.
Proof. rewrite get_set, Nat.eqb_refl. reflexivity. Qed.

Lemma get_set_other d k v k' : k <> k' -> get (set d k v) k' = get d k'.
Proof.
  intros H. rewrite get_set.
  destruct (k =? k') eqn:E; [apply Nat.eqb_eq in E; contradiction|reflexivity].
Qed.

Lemma get_None_keys d k : get d k = None <-> ~ In k (keys d).
Proof.
  induction d as [|[k0 v0] d IH]; simpl.
  - tauto.
  - destruct (k0 =? k) eqn:E.
    + apply Nat.eqb_eq in E. split; [discriminate|intros H; exfalso; auto].
    + apply Nat.eqb_neq in E. rewrite IH. tauto.
Qed.

Lemma get_Some_keys d k v : get d k = Some v -> In k (keys d).
Proof.
  intros H. destruct (in_dec Nat.eq_dec k (keys d)) as [|n]; [assumption|].
  apply get_None_keys in n. congruence.
Qed.

Lemma keys_get d k : In k (keys d) -> exists v, get d k = Some v.
Proof.
  intros H. destruct (get d k) eqn:E; [eauto|].
  apply get_None_keys in E. contradiction.
Qed.

Lemma get_In d k v : get d k = Some v -> In (k, v) d.
Proof.
  induction d as [|[k0 v0] d IH]; simpl; [discriminate|].
  destruct (k0 =? k) eqn:E.
  - apply Nat.eqb_eq in E. intros [= ->]. subst. auto.
  - auto.
Qed.

Lemma In_get d k v : NoDup (keys d) -> In (k, v) d -> get d k = Some v.
Proof.
  induction d as [|[k0 v0] d IH]; simpl; [tauto|].
  intros ND [H|H].
  - inversion H; subst. rewrite Nat.eqb_refl. reflexivity.
  - inversion ND as [|? ? Hn ND']; subst.
    destruct (k0 =? k) eqn:E.
    + apply Nat.eqb_eq in E; subst k0. exfalso. apply Hn.
      change k with (fst (k, v)). apply in_map. exact H.
    + auto.
Qed.

Lemma set_absent d k v : ~ In k (keys d) -> set d k v = d ++ [(k, v)].
Proof.
  induction d as [|[k0 v0] d IH]; simpl; intros H.
  - reflexivity.
  - destruct (k0 =? k) eqn:E.
    + apply Nat.eqb_eq in E. exfalso; auto.
    + rewrite IH by tauto. reflexivity.
Qed.

Lemma keys_set_present d k v : In k (keys d) -> keys (set d k v) = keys d.
Proof.
  induction d as [|[k0 v0] d IH]; simpl; intros H.
  - contradiction.
  - destruct (k0 =? k) eqn:E; simpl.
    + reflexivity.
    + apply Nat.eqb_neq in E. f_equal. apply IH. tauto.
Qed.

Lemma in_keys_set d k v k' :
  In k' (keys (set d k v)) <-> k' = k \/ In k' (keys d).
Proof.
  destruct (in_dec Nat.eq_dec k (keys d)) as [i|n].
  - rewrite keys_set_present by assumption.
    split; [tauto|intros [->|]; assumption].
  - rewrite set_absent by assumption. unfold keys.
    rewrite map_app, in_app_iff. simpl. intuition.
Qed.

Lemma NoDup_keys_set d k v : NoDup (keys d) -> NoDup (keys (set d k v)).
Proof.
  intros ND. destruct (in_dec Nat.eq_dec k (keys d)) as [i|n].
  - rewrite keys_set_present by assumption. exact ND.
  - rewrite set_absent by assumption. unfold keys. rewrite map_app.
    simpl. apply NoDup_app; [exact ND|repeat constructor; simpl; tauto|].
    intros x Hx [<-|[]]. contradiction.
Qed.

(** Filling a dictionary from pairs with fresh, distinct keys appends
    them. *)
Lemma fold_set_fresh (l : list (nat * V)) d :
  NoDup (keys d ++ map fst l) ->
  fold_left (fun d kv => set d (fst kv) (snd kv)) l d = d ++ l.
Proof.
  revert d. induction l as [|[k v] l IH]; intros d ND; simpl.
  - rewrite app_nil_r. reflexivity.
  - assert (Hk : ~ In k (keys d)).
    { intros Hin. apply NoDup_app_remove_r in ND as ND1.
      simpl in ND. apply NoDup_remove_2 in ND. apply ND.
      apply in_or_app. auto. }
    rewrite set_absent by assumption. rewrite IH.
    + rewrite <- app_assoc. reflexivity.
    + unfold keys. rewrite map_app. simpl. rewrite <- app_assoc. exact ND.
Qed.

Lemma of_items_NoDup (l : list (nat * V)) :
  NoDup (map fst l) -> of_items l = l.
Proof. intros ND. unfold of_items. rewrite fold_set_fresh; auto. Qed.

End WithValues.
End DictFacts.

(** ** Lemmas on graphs *)

Module GraphFacts.
Import Dict DictFacts nx.

Lemma wf_empty : wf empty.
Proof. split; [constructor|discriminate]. Qed.

Lemma has_edge_node g u v : has_edge g u v -> In u (nodes g).
Proof. intros (ss & H & _). eapply get_Some_keys; eauto. Qed.

Lemma add_node_present g n : In n (nodes g) -> add_node g n = g.
Proof.
  intros H. unfold add_node. destruct (keys_get g n H) as [v ->]. reflexivity.
Qed.

Lemma add_node_absent g n : ~ In n (nodes g) -> add_node g n = g ++ [(n, [])].
Proof.
  intros H. unfold add_node. apply get_None_keys in H as E. rewrite E.
  apply set_absent. exact H.
Qed.

Lemma in_nodes_add_node g n m :
  In m (nodes (add_node g n)) <-> m = n \/ In m (nodes g).
Proof.
  unfold add_node. destruct (get g n) eqn:E.
  - apply get_Some_keys in E. split; [tauto|intros [->|]; assumption].
  - apply in_keys_set.
Qed.

Lemma get_add_node g n m :
  get (add_node g n) m =
  match get g m with
  | Some ss => Some ss
  | None => if n =? m then Some [] else None
  end.
Proof.
  unfold add_node. destruct (get g n) eqn:E.
  - destruct (get g m) eqn:E'; [reflexivity|].
    destruct (n =? m) eqn:Enm; [|reflexivity].
    apply Nat.eqb_eq in Enm. congruence.
  - rewrite get_set. destruct (n =? m) eqn:Enm.
    + apply Nat.eqb_eq in Enm. subst m. rewrite E. reflexivity.
    + destruct (get g m); reflexivity.
Qed.

Lemma has_edge_add_node g n a b :
  has_edge (add_node g n) a b <-> has_edge g a b.
Proof.
  unfold has_edge. rewrite get_add_node. split.
  - intros (ss & H & Hin). destruct (get g a) eqn:E.
    + eauto.
    + destruct (n =? a); [|discriminate]. inversion H; subst. destruct Hin.
  - intros (ss & H & Hin). rewrite H. eauto.
Qed.

Lemma wf_add_node g n : wf g -> wf (add_node g n).
Proof.
  intros [ND Hs]. split.
  - unfold add_node. destruct (get g n); [exact ND|].
    apply NoDup_keys_set. exact ND.
  - intros u ss. rewrite get_add_node. destruct (get g u) eqn:E.
    + intros [= <-]. eauto.
    + destruct (n =? u); [|discriminate]. intros [= <-]. constructor.
Qed.

Lemma nodes_add_arc g u v : nodes (add_arc g u v) = nodes g.
Proof.
  unfold add_arc. destruct (get g u) eqn:E; [|reflexivity].
  destruct (existsb (Nat.eqb v) l); [reflexivity|].
  apply keys_set_present. eapply get_Some_keys; eauto.
Qed.

Lemma existsb_eqb_In v (l : list nat) : existsb (Nat.eqb v) l = true <-> In v l.
Proof.
  rewrite existsb_exists. split.
  - intros (x & Hx & E). apply Nat.eqb_eq in E. subst. exact Hx.
  - intros H. exists v. split; [exact H|apply Nat.eqb_refl].
Qed.

Lemma get_add_arc g u v a :
  get (add_arc g u v) a =
  match get g a with
  | Some ss =>
      if (u =? a) && negb (existsb (Nat.eqb v) ss)
      then Some (ss ++ [v]) else Some ss
  | None => None
  end.
Proof.
  unfold add_arc. destruct (get g u) eqn:E.
  - destruct (existsb (Nat.eqb v) l) eqn:Ex.
    + destruct (get g a) eqn:Ea; [|reflexivity].
      destruct (u =? a) eqn:Eua; [|reflexivity].
      apply Nat.eqb_eq in Eua. subst a.
      assert (l0 = l) by congruence. subst. rewrite Ex. reflexivity.
    + rewrite get_set. destruct (u =? a) eqn:Eua.
      * apply Nat.eqb_eq in Eua. subst a. rewrite E, Ex. reflexivity.
      * destruct (get g a); reflexivity.
  - destruct (get g a) eqn:Ea; [|reflexivity].
    destruct (u =? a) eqn:Eua; [|reflexivity].
    apply Nat.eqb_eq in Eua. congruence.
Qed.

Lemma has_edge_add_arc g u v a b :
  In u (nodes g) ->
  (has_edge (add_arc g u v) a b <-> has_edge g a b \/ (a = u /\ b = v)).
Proof.
  intros Hu. unfold has_edge. rewrite get_add_arc. split.
  - intros (ss & H & Hin). destruct (get g a) eqn:E; [|discriminate].
    destruct (u =? a) eqn:Eua; simpl in H.
    + apply Nat.eqb_eq in Eua. subst a.
      destruct (existsb (Nat.eqb v) l) eqn:Ex; simpl in H;
        inversion H; subst; clear H.
      * left. eauto.
      * apply in_app_or in Hin as [Hin|[<-|[]]]; [left; eauto|right; auto].
    + inversion H; subst. left. eauto.
  - intros [(ss & H & Hin)|[-> ->]].
    + rewrite H. destruct ((u =? a) && negb (existsb (Nat.eqb v) ss)).
      * exists (ss ++ [v]). split; [reflexivity|apply in_or_app; auto].
      * eauto.
    + destruct (keys_get g u Hu) as [ss Hss]. rewrite Hss, Nat.eqb_refl.
      destruct (existsb (Nat.eqb v) ss) eqn:Ex; simpl.
      * apply existsb_eqb_In in Ex. eauto.
      * exists (ss ++ [v]). split; [reflexivity|apply in_or_app; simpl; auto].
Qed.

Lemma wf_add_arc g u v : wf g -> wf (add_arc g u v).
Proof.
  intros [ND Hs]. split.
  - rewrite nodes_add_arc. exact ND.
  - intros a ss. rewrite get_add_arc. destruct (get g a) eqn:E; [|discriminate].
    destruct (u =? a); simpl.
    + destruct (existsb (Nat.eqb v) l) eqn:Ex; simpl; intros [= <-].
      * eauto.
      * apply NoDup_app; [eauto|repeat constructor; simpl; tauto|].
        intros x Hx [<-|[]]. apply existsb_eqb_In in Hx. congruence.
    + intros [= <-]. eauto.
Qed.

Lemma in_nodes_add_edge g u v m :
  In m (nodes (add_edge g u v)) <-> m = u \/ m = v \/ In m (nodes g).
Proof.
  unfold add_edge. rewrite nodes_add_arc, !in_nodes_add_node. tauto.
Qed.

Lemma nodes_add_edge_present g u v :
  In u (nodes g) -> In v (nodes g) -> nodes (add_edge g u v) = nodes g.
Proof.
  intros Hu Hv. unfold add_edge.
  rewrite nodes_add_arc, (add_node_present g u Hu), (add_node_present g v Hv).
  reflexivity.
Qed.

Lemma has_edge_add_edge g u v a b :
  has_edge (add_edge g u v) a b <-> has_edge g a b \/ (a = u /\ b = v).
Proof.
  unfold add_edge. rewrite has_edge_add_arc.
  - rewrite !has_edge_add_node. tauto.
  - rewrite !in_nodes_add_node. auto.
Qed.

Lemma wf_add_edge g u v : wf g -> wf (add_edge g u v).
Proof. intros H. unfold add_edge. auto using wf_add_arc, wf_add_node. Qed.

Lemma in_nodes_add_edge_undirected g u v m :
  In m (nodes (add_edge_undirected g u v)) <-> m = u \/ m = v \/ In m (nodes g).
Proof.
  unfold add_edge_undirected.
  rewrite !nodes_add_arc, !in_nodes_add_node. tauto.
Qed.

Lemma nodes_add_edge_undirected_present g u v :
  In u (nodes g) -> In v (nodes g) ->
  nodes (add_edge_undirected g u v) = nodes g.
Proof.
  intros Hu Hv. unfold add_edge_undirected.
  rewrite !nodes_add_arc, (add_node_present g u Hu), (add_node_present g v Hv).
  reflexivity.
Qed.

Lemma has_edge_add_edge_undirected g u v a b :
  has_edge (add_edge_undirected g u v) a b <->
  has_edge g a b \/ (a = u /\ b = v) \/ (a = v /\ b = u).
Proof.
  unfold add_edge_undirected. rewrite has_edge_add_arc.
  - rewrite has_edge_add_arc.
    + rewrite !has_edge_add_node. tauto.
    + rewrite !in_nodes_add_node. auto.
  - rewrite nodes_add_arc, !in_nodes_add_node. auto.
Qed.

Lemma wf_add_edge_undirected g u v : wf g -> wf (add_edge_undirected g u v).
Proof.
  intros H. unfold add_edge_undirected. auto using wf_add_arc, wf_add_node.
Qed.

Lemma in_nodes_add_nodes_from ns g m :
  In m (nodes (add_nodes_from g ns)) <-> In m ns \/ In m (nodes g).
Proof.
  unfold add_nodes_from. revert g. induction ns as [|n ns IH]; intros g; simpl.
  - tauto.
  - rewrite IH, in_nodes_add_node. intuition.
Qed.

Lemma nodes_add_nodes_from ns g :
  NoDup (nodes g ++ ns) -> nodes (add_nodes_from g ns) = nodes g ++ ns.
Proof.
  unfold add_nodes_from. revert g. induction ns as [|n ns IH]; intros g ND; simpl.
  - rewrite app_nil_r. reflexivity.
  - assert (Hn : ~ In n (nodes g)).
    { intros Hin. apply NoDup_remove_2 in ND. apply ND. apply in_or_app. auto. }
    rewrite add_node_absent by assumption. rewrite IH.
    + unfold nodes, keys. rewrite map_app, <- app_assoc. reflexivity.
    + unfold nodes, keys. rewrite map_app, <- app_assoc. exact ND.
Qed.

Lemma has_edge_add_nodes_from ns g a b :
  has_edge (add_nodes_from g ns) a b <-> has_edge g a b.
Proof.
  unfold add_nodes_from. revert g. induction ns as [|n ns IH]; intros g; simpl.
  - tauto.
  - rewrite IH. apply has_edge_add_node.
Qed.

Lemma wf_add_nodes_from ns g : wf g -> wf (add_nodes_from g ns).
Proof.
  unfold add_nodes_from. revert g.
  induction ns as [|n ns IH]; intros g H; simpl; auto using wf_add_node.
Qed.

Lemma no_edge_empty a b : ~ has_edge empty a b.
Proof. intros (ss & H & _). discriminate. Qed.

End GraphFacts.

(** ** The bipartite graph and the graph of rows *)

Module RowGraph.
Import Dict DictFacts nx GraphFacts.

Lemma fold_undirected_spec (M : nat) (es : list (nat * nat)) (G : Graph) :
  let G' := fold_left (fun G e => add_edge_undirected G (fst e) (M + snd e))
                      es G in
  (forall m, In m (nodes G') <->
             In m (nodes G) \/
             exists i j, In (i, j) es /\ (m = i \/ m = M + j)) /\
  (forall a b, has_edge G' a b <->
               has_edge G a b \/
               exists i j, In (i, j) es /\
                           ((a = i /\ b = M + j) \/ (a = M + j /\ b = i))).
Proof.
  revert G. induction es as [|[i0 j0] es IH]; intros G; simpl.
  - split; intros; split; try tauto; intros [H|(i & j & [] & _)]; exact H.
  - destruct (IH (add_edge_undirected G i0 (M + j0))) as [IHn IHe].
    split.
    + intros m. rewrite IHn, in_nodes_add_edge_undirected. split.
      * intros [[->|[->|H]]|(i & j & H & H')]; eauto 8.
      * intros [H|(i & j & [E|H] & H')];
          [auto | inversion E; subst; destruct H'; subst; auto | eauto 8].
    + intros a b. rewrite IHe, has_edge_add_edge_undirected. split.
      * intros [[H|[H|H]]|(i & j & H & H')]; eauto 8.
      * intros [H|(i & j & [E|H] & H')];
          [auto | inversion E; subst; destruct H' as [[-> ->]|[-> ->]]; auto
          | eauto 8].
Qed.

Section Bipartite.
Variable A : spmatrix.
Variables M N : nat.
Hypothesis Hshape : shape A = (M, N).
Hypothesis Hwf : wf_matrix A.

Lemma entry_bounds i j : In (i, j) (entries A) -> i < M /\ j < N.
Proof. intros H. apply Hwf in H. rewrite Hshape in H. exact H. Qed.

Lemma bg_nodes m : In m (nodes (from_biadjacency_matrix A)) <-> m < M + N.
Proof.
  unfold from_biadjacency_matrix. rewrite Hshape.
  pose proof (fold_undirected_spec M (entries A)
                (add_nodes_from (add_nodes_from empty (seq 0 M)) (seq M N)))
    as [Hn _].
  cbv zeta in Hn. rewrite Hn, !in_nodes_add_nodes_from, !in_seq. simpl. split.
  - intros [[H|[H|[]]]|(i & j & H & H')]; try lia.
    apply entry_bounds in H. lia.
  - intros H. left. destruct (Nat.lt_ge_cases m M); [right|left]; lia.
Qed.

Lemma bg_edges a b :
  has_edge (from_biadjacency_matrix A) a b <->
  exists i j, In (i, j) (entries A) /\
              ((a = i /\ b = M + j) \/ (a = M + j /\ b = i)).
Proof.
  unfold from_biadjacency_matrix. rewrite Hshape.
  pose proof (fold_undirected_spec M (entries A)
                (add_nodes_from (add_nodes_from empty (seq 0 M)) (seq M N)))
    as [_ He].
  cbv zeta in He. rewrite He, !has_edge_add_nodes_from. split.
  - intros [H|H]; [destruct (no_edge_empty _ _ H)|exact H].
  - auto.
Qed.

(** The rows adjacent to a column node are those with an entry in the
    column. *)
Lemma bg_column j :
  j < N ->
  exists nbrs, nx.getitem (from_biadjacency_matrix A) (j + M) = Ok nbrs /\
               forall i, In i nbrs <-> In (i, j) (entries A).
Proof.
  intros Hj. assert (Hin : In (j + M) (nodes (from_biadjacency_matrix A))).
  { apply bg_nodes. lia. }
  destruct (keys_get _ _ Hin) as [nbrs Hget].
  exists nbrs. unfold nx.getitem, Dict.getitem. rewrite Hget. split; [reflexivity|].
  intros i. split.
  - intros Hi. assert (He : has_edge (from_biadjacency_matrix A) (j + M) i).
    { exists nbrs. auto. }
    apply bg_edges in He as (i' & j' & Hent & [[E1 E2]|[E1 E2]]).
    + apply entry_bounds in Hent. lia.
    + assert (j' = j) by lia. subst. exact Hent.
  - intros Hent.
    assert (He : has_edge (from_biadjacency_matrix A) (j + M) i).
    { apply bg_edges. exists i, j. split; [exact Hent|right; lia]. }
    destruct He as (ss & Hss & Hi). congruence.
Qed.

End Bipartite.

(** The inner loop over the rows sharing a column (lines 64 to 67). *)
Lemma add_neighbours_spec (n : nat) (nbrs : list nat) (dg : Graph) :
  let dg' := fold_left
               (fun dg neighbor =>
                  if negb (neighbor =? n) then add_edge dg neighbor n else dg)
               nbrs dg in
  In n (nodes dg) -> (forall a, In a nbrs -> In a (nodes dg)) -> wf dg ->
  nodes dg' = nodes dg /\ wf dg' /\
  forall a b, has_edge dg' a b <->
              has_edge dg a b \/ (b = n /\ In a nbrs /\ a <> n).
Proof.
  revert dg. induction nbrs as [|x nbrs IH]; intros dg; simpl; intros Hn Hs Hw.
  - split; [reflexivity|split; [exact Hw|]]. intros a b. tauto.
  - destruct (x =? n) eqn:E; simpl.
    + apply Nat.eqb_eq in E. subst x.
      destruct (IH dg) as (IH1 & IH2 & IH3); auto.
      split; [exact IH1|split; [exact IH2|]]. intros a b. rewrite IH3.
      intuition. subst. contradiction.
    + apply Nat.eqb_neq in E.
      assert (Hnodes : nodes (add_edge dg x n) = nodes dg)
        by (apply nodes_add_edge_present; auto).
      destruct (IH (add_edge dg x n)) as (IH1 & IH2 & IH3).
      * rewrite Hnodes. exact Hn.
      * intros a Ha. rewrite Hnodes. auto.
      * apply wf_add_edge. exact Hw.
      * split; [congruence|split; [exact IH2|]]. intros a b.
        rewrite IH3, has_edge_add_edge. intuition; subst; auto.
Qed.

Section Rows.
Variable A : spmatrix.
Variable m : Dict.t nat.
Variable N : nat.
Hypothesis Hshape : shape A = (N, N).
Hypothesis Hwf : wf_matrix A.
Hypothesis Hrows : forall r, r < N -> exists c, get m r = Some c /\ c < N.

Lemma add_row_edges_spec dg n :
  n < N -> nodes dg = seq 0 N -> wf dg ->
  exists dg', add_row_edges (from_biadjacency_matrix A) N m dg n = Ok dg' /\
              nodes dg' = seq 0 N /\ wf dg' /\
              forall a b, has_edge dg' a b <->
                          has_edge dg a b \/
                          (b = n /\ a <> n /\
                           exists c, get m n = Some c /\ nonzero A a c).
Proof.
  intros Hn Hnodes Hw. destruct (Hrows n Hn) as (c & Hc & HcN).
  destruct (bg_column A N N Hshape Hwf c HcN) as (nbrs & Hnb & Hin).
  unfold add_row_edges, Dict.getitem. rewrite Hc. simpl. rewrite Hnb. simpl.
  destruct (add_neighbours_spec n nbrs dg) as (H1 & H2 & H3); auto.
  - rewrite Hnodes. apply in_seq. lia.
  - intros a Ha. rewrite Hnodes. apply in_seq. apply Hin in Ha.
    apply (entry_bounds A N N Hshape Hwf) in Ha. lia.
  - eexists. split; [reflexivity|]. split; [congruence|split; [exact H2|]].
    intros a b. rewrite H3. split.
    + intros [H|(-> & Ha & Hne)]; [auto|].
      right. split; [reflexivity|split; [exact Hne|]].
      exists c. split; [reflexivity|]. apply Hin. exact Ha.
    + intros [H|(-> & Hne & c' & Hc' & Hnz)]; [auto|].
      right. split; [reflexivity|split; [|exact Hne]]. apply Hin.
      assert (c' = c) by congruence. subst. exact Hnz.
Qed.

Lemma fold_rows_spec (l : list nat) dg :
  (forall n, In n l -> n < N) -> nodes dg = seq 0 N -> wf dg ->
  exists dg', foldM (add_row_edges (from_biadjacency_matrix A) N m) l dg = Ok dg' /\
              nodes dg' = seq 0 N /\ wf dg' /\
              forall a b, has_edge dg' a b <->
                          has_edge dg a b \/ (In b l /\ row_edge A m a b).
Proof.
  revert dg. induction l as [|n l IH]; intros dg Hl Hnodes Hw; simpl.
  - exists dg. split; [reflexivity|split; [exact Hnodes|split; [exact Hw|]]].
    intros a b. tauto.
  - destruct (add_row_edges_spec dg n) as (dg1 & E1 & N1 & W1 & H1);
      [apply Hl; left; reflexivity|exact Hnodes|exact Hw|].
    rewrite E1. simpl.
    destruct (IH dg1) as (dg2 & E2 & N2 & W2 & H2);
      [intros k Hk; apply Hl; right; exact Hk|exact N1|exact W1|].
    exists dg2. split; [exact E2|split; [exact N2|split; [exact W2|]]].
    intros a b. rewrite H2, H1. unfold row_edge. split.
    + intros [[H|(-> & Hne & Hc)]|[Hb He]]; auto.
    + intros [H|[[<-|Hb] [Hne Hc]]]; auto.
Qed.

(** The graph of rows has the rows as nodes and exactly the edges
    [row_edge]. *)
Lemma row_graph_spec :
  exists dg, row_graph A m = Ok dg /\ nodes dg = seq 0 N /\ wf dg /\
             forall a b, has_edge dg a b <-> b < N /\ row_edge A m a b.
Proof.
  unfold row_graph, build_dg. rewrite Hshape. simpl fst.
  assert (Hn0 : nodes (add_nodes_from empty (seq 0 N)) = seq 0 N).
  { rewrite nodes_add_nodes_from; [reflexivity|]. simpl. apply seq_NoDup. }
  rewrite Hn0.
  destruct (fold_rows_spec (seq 0 N) (add_nodes_from empty (seq 0 N)))
    as (dg & E & Nd & W & H).
  - intros n Hn. apply in_seq in Hn. lia.
  - exact Hn0.
  - apply wf_add_nodes_from, wf_empty.
  - exists dg. split; [exact E|split; [exact Nd|split; [exact W|]]].
    intros a b. rewrite H, has_edge_add_nodes_from, in_seq. split.
    + intros [H0|[H0 H1]]; [destruct (no_edge_empty _ _ H0)|].
      split; [lia|exact H1].
    + intros [Hb He]. right. split; [lia|exact He].
Qed.

End Rows.
End RowGraph.

(** ** The component of a node and the graph of components *)

Module Components.
Import Dict DictFacts nx GraphFacts.

Lemma in_combine_seq {X} (l : list X) (s i : nat) (x : X) :
  In (i, x) (combine (seq s (length l)) l) <->
  s <= i /\ nth_error l (i - s) = Some x.
Proof.
  revert s. induction l as [|y l IH]; intros s; simpl.
  - split; [tauto|]. intros [_ H]. destruct (i - s); discriminate.
  - rewrite IH. split.
    + intros [[= <- <-]|[Hle H]].
      * rewrite Nat.sub_diag. auto.
      * split; [lia|]. replace (i - s) with (S (i - S s)) by lia. exact H.
    + intros [Hle H]. destruct (i - s) as [|k] eqn:E.
      * left. inversion H. f_equal. lia.
      * right. split; [lia|]. replace (i - S s) with k by lia. exact H.
Qed.

Lemma in_enumerate {X} (l : list X) (i : nat) (x : X) :
  In (i, x) (enumerate l) <-> nth_error l i = Some x.
Proof.
  unfold enumerate. rewrite in_combine_seq, Nat.sub_0_r.
  split; [tauto|split; [lia|assumption]].
Qed.

Lemma map_fst_enumerate {X} (l : list X) :
  map fst (enumerate l) = seq 0 (length l).
Proof.
  unfold enumerate. generalize 0.
  induction l as [|x l IH]; intros s; simpl; [reflexivity|].
  rewrite IH. reflexivity.
Qed.

Lemma map_snd_enumerate {X} (l : list X) : map snd (enumerate l) = l.
Proof.
  unfold enumerate. generalize 0.
  induction l as [|x l IH]; intros s; simpl; [reflexivity|].
  rewrite IH. reflexivity.
Qed.

Lemma node_scc_map_fold (L : list (nat * list nat)) (d : Dict.t nat) :
  fold_left (fun d ic => fold_left (fun d n => set d n (fst ic)) (snd ic) d) L d =
  fold_left (fun d kv => set d (fst kv) (snd kv))
            (flat_map (fun ic => map (fun n => (n, fst ic)) (snd ic)) L) d.
Proof.
  revert d. induction L as [|[i c] L IH]; intros d; simpl; [reflexivity|].
  rewrite fold_left_app, IH. f_equal. clear.
  revert d. induction c as [|n c IHc]; intros d; simpl; [reflexivity|].
  apply IHc.
Qed.

Lemma map_fst_scc_items l : map fst (scc_items l) = concat l.
Proof.
  unfold scc_items. rewrite <- (map_snd_enumerate l) at 2.
  induction (enumerate l) as [|[i c] L IH]; simpl; [reflexivity|].
  rewrite map_app, IH, map_map. simpl. rewrite map_id. reflexivity.
Qed.

Lemma in_scc_items l n i :
  In (n, i) (scc_items l) <-> exists c, nth_error l i = Some c /\ In n c.
Proof.
  unfold scc_items. rewrite in_flat_map. split.
  - intros ([i' c] & Hic & Hn). simpl in Hn. apply in_map_iff in Hn.
    destruct Hn as (n' & [= -> ->] & Hn). apply in_enumerate in Hic. eauto.
  - intros (c & Hc & Hn). exists (i, c). split; [apply in_enumerate; exact Hc|].
    simpl. apply in_map_iff. eauto.
Qed.

Lemma node_scc_map_items l :
  NoDup (concat l) -> build_node_scc_map l = scc_items l.
Proof.
  intros ND. unfold build_node_scc_map. rewrite node_scc_map_fold.
  apply (of_items_NoDup (scc_items l)). rewrite map_fst_scc_items. exact ND.
Qed.

Lemma node_scc_map_get l n i :
  NoDup (concat l) ->
  (get (build_node_scc_map l) n = Some i <->
   exists c, nth_error l i = Some c /\ In n c).
Proof.
  intros ND. rewrite node_scc_map_items by exact ND.
  rewrite <- in_scc_items. split.
  - apply get_In.
  - apply In_get. unfold keys. rewrite map_fst_scc_items. exact ND.
Qed.

Lemma add_component_nodes (L : list (nat * list nat)) g :
  fold_left (fun g ic => add_node g (fst ic)) L g =
  add_nodes_from g (map fst L).
Proof.
  unfold add_nodes_from. revert g.
  induction L as [|ic L IH]; intros g; simpl; [reflexivity|apply IH].
Qed.

Section Dag.
Variable dg : Graph.
Variable nsm : Dict.t nat.
Variable B : nat.
Hypothesis Hclosed : forall a b, has_edge dg a b -> In b (nodes dg).
Hypothesis Hnsm : forall n, In n (nodes dg) -> exists i, get nsm n = Some i /\ i < B.

Lemma add_targets_spec (src : nat) (succs : list nat) (dag : Graph) :
  src < B -> (forall nb, In nb succs -> In nb (nodes dg)) ->
  nodes dag = seq 0 B -> wf dag ->
  exists dag',
    foldM (fun dag neighbor =>
             target_scc <- Dict.getitem nsm neighbor ;;
             Ok (if negb (target_scc =? src)
                 then add_edge dag target_scc src
                 else dag))
          succs dag = Ok dag' /\
    nodes dag' = seq 0 B /\ wf dag' /\
    forall x y, has_edge dag' x y <->
                has_edge dag x y \/
                (y = src /\ x <> src /\
                 exists nb, In nb succs /\ get nsm nb = Some x).
Proof.
  intros Hsrc. revert dag.
  induction succs as [|nb succs IH]; intros dag Hs Hn Hw; simpl.
  - exists dag. split; [reflexivity|split; [exact Hn|split; [exact Hw|]]].
    intros x y. split; [auto|]. intros [H|(_ & _ & nb & [] & _)]. exact H.
  - destruct (Hnsm nb) as (t & Ht & HtB); [apply Hs; left; reflexivity|].
    unfold Dict.getitem at 1. rewrite Ht. simpl.
    set (dag1 := if negb (t =? src) then add_edge dag t src else dag).
    assert (Hn1 : nodes dag1 = seq 0 B).
    { subst dag1. destruct (t =? src); simpl; [exact Hn|].
      rewrite nodes_add_edge_present; [exact Hn| |];
        rewrite Hn; apply in_seq; lia. }
    assert (Hw1 : wf dag1).
    { subst dag1. destruct (t =? src); simpl; [exact Hw|].
      apply wf_add_edge. exact Hw. }
    assert (He1 : forall x y, has_edge dag1 x y <->
                              has_edge dag x y \/ (x = t /\ y = src /\ t <> src)).
    { intros x y. subst dag1. destruct (t =? src) eqn:E; simpl.
      - apply Nat.eqb_eq in E. intuition.
      - apply Nat.eqb_neq in E. rewrite has_edge_add_edge. intuition. }
    destruct (IH dag1) as (dag2 & E2 & N2 & W2 & H2);
      [intros k Hk; apply Hs; right; exact Hk|exact Hn1|exact Hw1|].
    exists dag2. split; [exact E2|split; [exact N2|split; [exact W2|]]].
    intros x y. rewrite H2, He1. split.
    + intros [[H|(-> & -> & Hne)]|(-> & Hne & k & Hk & Hg)]; eauto 10.
    + intros [H|(-> & Hne & k & [<-|Hk] & Hg)]; eauto 10.
      left. right. assert (x = t) by congruence. subst. auto.
Qed.

Lemma add_scc_edges_spec (dag : Graph) (n : nat) :
  In n (nodes dg) -> nodes dag = seq 0 B -> wf dag ->
  exists dag',
    add_scc_edges dg nsm dag n = Ok dag' /\
    nodes dag' = seq 0 B /\ wf dag' /\
    forall x y, has_edge dag' x y <->
                has_edge dag x y \/
                (x <> y /\ get nsm n = Some y /\
                 exists nb, has_edge dg n nb /\ get nsm nb = Some x).
Proof.
  intros Hn Hnodes Hw. destruct (Hnsm n Hn) as (src & Hsrc & HsB).
  destruct (keys_get dg n Hn) as (succs & Hsuccs).
  unfold add_scc_edges, nx.getitem, Dict.getitem at 1 2.
  rewrite Hsrc, Hsuccs. simpl.
  destruct (add_targets_spec src succs dag) as (dag' & E & N' & W' & H');
    [exact HsB| |exact Hnodes|exact Hw|].
  { intros nb Hnb. apply (Hclosed n nb). exists succs. auto. }
  exists dag'. split; [exact E|split; [exact N'|split; [exact W'|]]].
  intros x y. rewrite H'. split.
  - intros [H|(-> & Hne & nb & Hnb & Hg)]; [auto|].
    right. split; [exact Hne|split; [reflexivity|]].
    exists nb. split; [exists succs; auto|exact Hg].
  - intros [H|(Hne & [= <-] & nb & (ss & Hss & Hnb) & Hg)]; [auto|].
    right. split; [reflexivity|split; [exact Hne|]].
    exists nb. split; [congruence|exact Hg].
Qed.

Lemma fold_scc_edges_spec (l : list nat) (dag : Graph) :
  (forall n, In n l -> In n (nodes dg)) -> nodes dag = seq 0 B -> wf dag ->
  exists dag',
    foldM (add_scc_edges dg nsm) l dag = Ok dag' /\
    nodes dag' = seq 0 B /\ wf dag' /\
    forall x y, has_edge dag' x y <->
                has_edge dag x y \/
                (x <> y /\ exists n nb, In n l /\ has_edge dg n nb /\
                                        get nsm n = Some y /\
                                        get nsm nb = Some x).
Proof.
  revert dag. induction l as [|n l IH]; intros dag Hl Hn Hw; simpl.
  - exists dag. split; [reflexivity|split; [exact Hn|split; [exact Hw|]]].
    intros x y. split; [auto|]. intros [H|(_ & n & nb & [] & _)]. exact H.
  - destruct (add_scc_edges_spec dag n) as (dag1 & E1 & N1 & W1 & H1);
      [apply Hl; left; reflexivity|exact Hn|exact Hw|].
    rewrite E1. simpl.
    destruct (IH dag1) as (dag2 & E2 & N2 & W2 & H2);
      [intros k Hk; apply Hl; right; exact Hk|exact N1|exact W1|].
    exists dag2. split; [exact E2|split; [exact N2|split; [exact W2|]]].
    intros x y. rewrite H2, H1. split.
    + intros [[H|(Hne & Hy & nb & He & Hx)]|(Hne & k & nb & Hk & He & Hy & Hx)];
        eauto 12.
    + intros [H|(Hne & k & nb & [<-|Hk] & He & Hy & Hx)]; eauto 12.
Qed.

End Dag.

(** The graph of components: one node per component, and an edge from
    the component of [nb] to the component of [n] for every edge
    [n -> nb] of the graph of rows that leaves a component. *)
Lemma build_dag_spec (dg : Graph) (scc_list : list (list nat)) (nsm : Dict.t nat) :
  (forall a b, has_edge dg a b -> In b (nodes dg)) ->
  (forall n, In n (nodes dg) ->
             exists i, get nsm n = Some i /\ i < length scc_list) ->
  exists dag,
    build_dag dg scc_list nsm = Ok dag /\
    nodes dag = seq 0 (length scc_list) /\ wf dag /\
    forall x y, has_edge dag x y <->
                x <> y /\ exists n nb, has_edge dg n nb /\
                                       get nsm n = Some y /\
                                       get nsm nb = Some x.
Proof.
  intros Hclosed Hnsm. unfold build_dag.
  rewrite add_component_nodes, map_fst_enumerate.
  set (dag0 := add_nodes_from empty (seq 0 (length scc_list))).
  assert (Hn0 : nodes dag0 = seq 0 (length scc_list)).
  { subst dag0. rewrite nodes_add_nodes_from; [reflexivity|].
    simpl. apply seq_NoDup. }
  destruct (fold_scc_edges_spec dg nsm (length scc_list) Hclosed Hnsm
              (nodes dg) dag0) as (dag & E & Nd & W & H);
    [auto|exact Hn0|apply wf_add_nodes_from, wf_empty|].
  exists dag. split; [exact E|split; [exact Nd|split; [exact W|]]].
  intros x y. rewrite H. subst dag0. rewrite has_edge_add_nodes_from. split.
  - intros [H0|(Hne & n & nb & _ & He & Hy & Hx)];
      [destruct (no_edge_empty _ _ H0)|eauto 8].
  - intros (Hne & n & nb & He & Hy & Hx). right. split; [exact Hne|].
    exists n, nb. split; [eapply has_edge_node; eauto|auto].
Qed.

End Components.

(** ** Components are ordered: the graph of components has no cycle *)

Module Condensation.
Import Dict DictFacts nx GraphFacts Components.

Lemma clos_rt_iff (R S : nat -> nat -> Prop) :
  (forall a b, R a b <-> S a b) ->
  forall x y, clos_refl_trans nat R x y <-> clos_refl_trans nat S x y.
Proof.
  intros H x y. split; induction 1;
    try (apply rt_step; apply H; assumption);
    try apply rt_refl; eapply rt_trans; eassumption.
Qed.

Section Scc.
Variable dg : Graph.
Variable l : list (list nat).
Hypothesis Hscc : scc_spec dg l.

Lemma scc_NoDup : NoDup (concat l).
Proof. apply Hscc. Qed.

Lemma comp_of_node n :
  In n (nodes dg) ->
  exists i, get (build_node_scc_map l) n = Some i /\ i < length l.
Proof.
  intros Hn. destruct Hscc as (ND & Hcov & _).
  apply Hcov in Hn. apply in_concat in Hn as (c & Hc & Hnc).
  apply In_nth_error in Hc as (i & Hi). exists i. split.
  - apply node_scc_map_get; eauto.
  - apply nth_error_Some. congruence.
Qed.

Lemma comp_bound n i :
  get (build_node_scc_map l) n = Some i -> i < length l /\ In n (nodes dg).
Proof.
  intros H. destruct Hscc as (ND & Hcov & _).
  apply node_scc_map_get in H as (c & Hc & Hn); [|exact ND]. split.
  - apply nth_error_Some. congruence.
  - apply Hcov. apply in_concat. exists c. split; [|exact Hn].
    eapply nth_error_In; eauto.
Qed.

Lemma comp_same u v i j :
  get (build_node_scc_map l) u = Some i ->
  get (build_node_scc_map l) v = Some j ->
  (i = j <-> reach dg u v /\ reach dg v u).
Proof.
  intros Hu Hv. destruct Hscc as (ND & _ & _ & Hsame).
  apply node_scc_map_get in Hu as (ci & Hci & Hu); [|exact ND].
  apply node_scc_map_get in Hv as (cj & Hcj & Hv); [|exact ND].
  eapply Hsame; eauto.
Qed.

Lemma comp_inhabited i :
  i < length l -> exists n, get (build_node_scc_map l) n = Some i.
Proof.
  intros Hi. destruct Hscc as (ND & _ & Hne & _).
  destruct (nth_error l i) as [c|] eqn:E.
  - destruct c as [|n c].
    + exfalso. apply (Hne []); [eapply nth_error_In; eauto|reflexivity].
    + exists n. apply node_scc_map_get; [exact ND|].
      exists (n :: c). simpl. auto.
  - apply nth_error_None in E. lia.
Qed.

Variable dag : Graph.
Hypothesis Hdag :
  forall x y, has_edge dag x y <->
              x <> y /\ exists n nb, has_edge dg n nb /\
                                     get (build_node_scc_map l) n = Some y /\
                                     get (build_node_scc_map l) nb = Some x.

Lemma dag_edge_bound x y : has_edge dag x y -> x < length l /\ y < length l.
Proof.
  intros H. apply Hdag in H as (_ & n & nb & _ & Hy & Hx).
  apply comp_bound in Hx, Hy. tauto.
Qed.

(** A path in the graph of components from [x] to [y] is a path in the
    graph of rows from every row of [y] to every row of [x]. *)
Lemma dag_path_reach x y :
  clos_refl_trans nat (has_edge dag) x y ->
  forall u v,
    get (build_node_scc_map l) u = Some y ->
    get (build_node_scc_map l) v = Some x ->
    reach dg u v.
Proof.
  intros H. apply clos_rt_rt1n in H.
  induction H as [x|x z y Hxz Hzy IH]; intros u v Hu Hv.
  - apply (comp_same u v x x Hu Hv). reflexivity.
  - apply Hdag in Hxz as (_ & n & nb & He & Hn & Hnb).
    apply rt_trans with n; [apply IH; assumption|].
    apply rt_trans with nb; [apply rt_step; exact He|].
    apply (comp_same nb v x x Hnb Hv). reflexivity.
Qed.

Lemma dag_acyclic x : ~ clos_trans nat (has_edge dag) x x.
Proof.
  intros H. apply clos_trans_t1n in H.
  assert (Hz : exists z, has_edge dag x z /\
                         clos_refl_trans nat (has_edge dag) z x).
  { inversion H as [y Hxy|y z Hxy Hyx]; subst.
    - exists x. split; [exact Hxy|apply rt_refl].
    - exists y. split; [exact Hxy|].
      apply clos_t_clos_rt, clos_t1n_trans. exact Hyx. }
  destruct Hz as (z & Hxz & Hzx).
  pose proof Hxz as Hedge.
  apply Hdag in Hxz as (Hne & n & nb & He & Hn & Hnb).
  apply Hne. symmetry. apply (comp_same n nb z x Hn Hnb). split.
  - apply rt_step. exact He.
  - apply (dag_path_reach z x Hzx nb n Hnb Hn).
Qed.

End Scc.
End Condensation.

(** ** Comprehensions that may fail *)

Module MonadFacts.

Lemma mapM_Forall2 {X Y} (f : X -> result Y) (l : list X) :
  (forall a, In a l -> exists b, f a = Ok b) ->
  exists l', mapM f l = Ok l' /\ Forall2 (fun a b => f a = Ok b) l l'.
Proof.
  induction l as [|a l IH]; intros H; simpl.
  - exists []. split; [reflexivity|constructor].
  - destruct (H a) as (b & Hb); [left; reflexivity|].
    destruct IH as (l' & Hl' & HF); [intros x Hx; apply H; right; exact Hx|].
    rewrite Hb, Hl'. simpl. exists (b :: l').
    split; [reflexivity|constructor; assumption].
Qed.

Lemma Forall2_In_r {X Y} (R : X -> Y -> Prop) l l' b :
  Forall2 R l l' -> In b l' -> exists a, In a l /\ R a b.
Proof.
  induction 1 as [|a b' l l' Hab HF IH]; simpl; [tauto|].
  intros [<-|Hb]; [eauto|]. destruct (IH Hb) as (a' & Ha' & HR). eauto.
Qed.

Lemma Forall2_In_l {X Y} (R : X -> Y -> Prop) l l' a :
  Forall2 R l l' -> In a l -> exists b, In b l' /\ R a b.
Proof.
  induction 1 as [|a' b l l' Hab HF IH]; simpl; [tauto|].
  intros [<-|Ha]; [eauto|]. destruct (IH Ha) as (b' & Hb' & HR). eauto.
Qed.

Lemma Forall2_nth_r {X Y} (R : X -> Y -> Prop) l l' i b :
  Forall2 R l l' -> nth_error l' i = Some b ->
  exists a, nth_error l i = Some a /\ R a b.
Proof.
  intros HF. revert i. induction HF as [|a b' l l' Hab HF IH]; intros i.
  - destruct i; discriminate.
  - destruct i as [|i]; simpl; [intros [= <-]; eauto|apply IH].
Qed.

Lemma Forall2_map_eq {X Y Z} (g : X -> Z) (h : Y -> Z) l l' :
  Forall2 (fun a b => g a = h b) l l' -> map g l = map h l'.
Proof. induction 1; simpl; congruence. Qed.

Lemma Forall2_NoDup {X Y} (R : X -> Y -> Prop) l l' :
  (forall a a' b, R a b -> R a' b -> a = a') ->
  Forall2 R l l' -> NoDup l -> NoDup l'.
Proof.
  intros Hinj. induction 1 as [|a b l l' Hab HF IH]; intros ND.
  - constructor.
  - inversion ND as [|? ? Hn ND']; subst. constructor; [|auto].
    intros Hb. destruct (Forall2_In_r R l l' b HF Hb) as (a' & Ha' & HR).
    assert (a' = a) by eauto. subst. contradiction.
Qed.

Lemma Forall2_weaken {X Y} (R S : X -> Y -> Prop) l l' :
  (forall a b, R a b -> S a b) -> Forall2 R l l' -> Forall2 S l l'.
Proof. intros H. induction 1; constructor; auto. Qed.

End MonadFacts.

(** ** Positions in a topological order *)

Module Order.
Import Dict DictFacts Components MonadFacts.

Section Positions.
Variable order : list nat.
Variable B : nat.
Hypothesis Hnd : NoDup order.
Hypothesis Hin : forall u, In u order <-> u < B.

Lemma block_map_items :
  block_map order = map (fun ic => (snd ic, fst ic)) (enumerate order).
Proof.
  unfold block_map. apply of_items_NoDup.
  rewrite map_map. simpl. change (fun x : nat * nat => snd x) with (@snd nat nat).
  rewrite map_snd_enumerate. exact Hnd.
Qed.

Lemma block_map_get c i :
  get (block_map order) c = Some i <-> nth_error order i = Some c.
Proof.
  rewrite <- in_enumerate. rewrite block_map_items. split.
  - intros H. apply get_In in H. apply in_map_iff in H.
    destruct H as ([i' c'] & [= -> ->] & H). exact H.
  - intros H. apply In_get.
    + unfold keys. rewrite map_map. simpl.
      change (fun x : nat * nat => snd x) with (@snd nat nat).
      rewrite map_snd_enumerate. exact Hnd.
    + apply in_map_iff. exists (i, c). auto.
Qed.

Lemma order_length : length order = B.
Proof.
  transitivity (length (seq 0 B)); [|apply length_seq].
  apply Permutation_length.
  apply NoDup_Permutation; [exact Hnd|apply seq_NoDup|].
  intros u. rewrite Hin, in_seq. lia.
Qed.

Lemma block_map_bound c i : get (block_map order) c = Some i -> c < B /\ i < B.
Proof.
  intros H. apply block_map_get in H. split.
  - apply Hin. eapply nth_error_In; eauto.
  - rewrite <- order_length. apply nth_error_Some. congruence.
Qed.

Lemma block_map_total c : c < B -> exists i, get (block_map order) c = Some i.
Proof.
  intros Hc. apply Hin in Hc. apply In_nth_error in Hc as (i & Hi).
  exists i. apply block_map_get. exact Hi.
Qed.

Lemma block_map_onto i : i < B -> exists c, get (block_map order) c = Some i.
Proof.
  intros Hi. rewrite <- order_length in Hi.
  destruct (nth_error order i) as [c|] eqn:E.
  - exists c. apply block_map_get. exact E.
  - apply nth_error_None in E. lia.
Qed.

Lemma block_map_inj c c' i :
  get (block_map order) c = Some i -> get (block_map order) c' = Some i ->
  c = c'.
Proof. rewrite !block_map_get. congruence. Qed.

Lemma block_map_before u v i j :
  before order u v ->
  get (block_map order) u = Some i -> get (block_map order) v = Some j ->
  i < j.
Proof.
  intros (i' & j' & Hi' & Hj' & Hlt) Hi Hj.
  apply block_map_get in Hi', Hj'. congruence.
Qed.

End Positions.
End Order.

(** ** Perfect matchings and their inverse *)

Module MatchingFacts.
Import Dict DictFacts MonadFacts.

Lemma keys_swap (m : Dict.t nat) :
  keys (map (fun rc : nat * nat => (snd rc, fst rc)) m) = map snd m.
Proof. unfold keys. rewrite map_map. reflexivity. Qed.

Section Perfect.
Variable A : spmatrix.
Variable m : Dict.t nat.
Variable N : nat.
Hypothesis Hshape : shape A = (N, N).
Hypothesis Hwf : wf_matrix A.
Hypothesis Hpm : perfect_matching A m.

Lemma pm_get_bound r c : get m r = Some c -> r < N /\ c < N.
Proof.
  intros H. destruct Hpm as (_ & Hk & _ & Hnz).
  apply get_In in H. apply Hnz in H. apply Hwf in H.
  rewrite Hshape in H. exact H.
Qed.

Lemma pm_rows r : r < N -> exists c, get m r = Some c /\ c < N.
Proof.
  intros Hr. destruct Hpm as (_ & Hk & _).
  rewrite Hshape in Hk. apply Hk in Hr. apply keys_get in Hr as (c & Hc).
  exists c. split; [exact Hc|]. apply (pm_get_bound r c Hc).
Qed.

Lemma pm_len : len m = N.
Proof.
  destruct Hpm as (ND & Hk & _). rewrite Hshape in Hk. simpl in Hk.
  unfold len. rewrite <- (length_map fst).
  transitivity (length (seq 0 N)); [|apply length_seq].
  apply Permutation_length. apply NoDup_Permutation;
    [exact ND|apply seq_NoDup|].
  intros r. rewrite in_seq. fold (keys m). rewrite Hk. lia.
Qed.

Lemma invert_items : invert m = map (fun rc => (snd rc, fst rc)) m.
Proof.
  unfold invert, items. apply of_items_NoDup.
  fold (keys (map (fun rc : nat * nat => (snd rc, fst rc)) m)).
  rewrite keys_swap. apply Hpm.
Qed.

Lemma invert_get c r : get (invert m) c = Some r <-> get m r = Some c.
Proof.
  rewrite invert_items. split.
  - intros H. apply get_In in H. apply in_map_iff in H.
    destruct H as ([r' c'] & [= -> ->] & H). apply In_get; [apply Hpm|exact H].
  - intros H. apply get_In in H. apply In_get.
    + rewrite keys_swap. apply Hpm.
    + apply in_map_iff. exists (r, c). auto.
Qed.

Lemma invert_len : len (invert m) = N.
Proof. rewrite invert_items. unfold len. rewrite length_map. apply pm_len. Qed.

Lemma pm_inj r r' c : get m r = Some c -> get m r' = Some c -> r = r'.
Proof. rewrite <- !invert_get. congruence. Qed.

Lemma pm_onto c : c < N -> exists r, get m r = Some c.
Proof.
  intros Hc. destruct Hpm as (NDk & Hk & NDv & Hnz).
  assert (Hincl : incl (seq 0 N) (map snd m)).
  { apply NoDup_length_incl; [exact NDv| |].
    - rewrite length_seq, length_map. fold (len m). rewrite pm_len. lia.
    - intros c' Hc'. apply in_map_iff in Hc' as ([r c''] & <- & Hin).
      simpl. apply in_seq. apply Hnz in Hin. apply Hwf in Hin.
      rewrite Hshape in Hin. simpl in Hin. lia. }
  assert (Hin : In c (map snd m)) by (apply Hincl, in_seq; lia).
  apply in_map_iff in Hin as ([r c'] & <- & Hin). exists r.
  apply In_get; assumption.
Qed.

Lemma row_edge_bound r s : row_edge A m r s -> r < N /\ s < N.
Proof.
  intros (_ & c & Hc & Hnz). split.
  - apply Hwf in Hnz. rewrite Hshape in Hnz. apply Hnz.
  - apply (pm_get_bound s c Hc).
Qed.

End Perfect.

(** A comprehension [{key(x): val(x) for x in xs}] over distinct keys. *)
Lemma comprehension_get {X V} (key : X -> nat) (val : X -> option V)
      (xs : list X) (its : list (nat * V)) :
  Forall2 (fun x p => fst p = key x /\ val x = Some (snd p)) xs its ->
  NoDup (map key xs) ->
  keys (of_items its) = map key xs /\
  forall k v, get (of_items its) k = Some v <->
              exists x, In x xs /\ key x = k /\ val x = Some v.
Proof.
  intros HF ND.
  assert (Hk : map fst its = map key xs).
  { symmetry. apply Forall2_map_eq.
    eapply Forall2_weaken; [|exact HF]. simpl. intros x p [H _]. auto. }
  rewrite of_items_NoDup by (rewrite Hk; exact ND).
  split; [exact Hk|]. intros k v. split.
  - intros H. apply get_In in H.
    destruct (Forall2_In_r _ _ _ _ HF H) as (x & Hx & Hkey & Hval).
    exists x. simpl in *. auto.
  - intros (x & Hx & Hkey & Hval).
    destruct (Forall2_In_l _ _ _ _ HF Hx) as ([k' v'] & Hp & Hkey' & Hval').
    simpl in *. apply In_get.
    + unfold keys. rewrite Hk. exact ND.
    + assert (v' = v) by congruence. subst. exact Hp.
Qed.

End MatchingFacts.

(** ** Assembling the results *)

Module Assembly.
Import Dict DictFacts nx GraphFacts RowGraph Components Condensation.
Import MonadFacts Order MatchingFacts.

Lemma mapM_Ok {X Y} (f : X -> result Y) (l : list X) (l' : list Y) :
  mapM f l = Ok l' -> Forall2 (fun a b => f a = Ok b) l l'.
Proof.
  revert l'. induction l as [|a l IH]; intros l'; simpl.
  - intros [= <-]. constructor.
  - destruct (f a) as [b|e] eqn:Ea; simpl; [|discriminate].
    destruct (mapM f l) as [bs|e] eqn:El; simpl; [|discriminate].
    intros [= <-]. constructor; auto.
Qed.

Lemma getitem_Ok {V} (d : Dict.t V) k v :
  Dict.getitem d k = Ok v <-> get d k = Some v.
Proof.
  unfold Dict.getitem. destruct (get d k); split; congruence.
Qed.

(** The rows of a component and their block: one entry of
    [row_block_map]. *)
Lemma row_item_Ok (sbm : Dict.t nat) (nc p : nat * nat) :
  (b <- Dict.getitem sbm (snd nc) ;; Ok (fst nc, b)) = Ok p ->
  fst p = fst nc /\ get sbm (snd nc) = Some (snd p).
Proof.
  unfold Dict.getitem. destruct (get sbm (snd nc)); simpl; [|discriminate].
  intros [= <-]. auto.
Qed.

Lemma col_item_Ok (crm rb : Dict.t nat) (c : nat) (p : nat * nat) :
  (r <- Dict.getitem crm c ;; b <- Dict.getitem rb r ;; Ok (c, b)) = Ok p ->
  fst p = c /\
  match get crm c with Some r => get rb r | None => None end = Some (snd p).
Proof.
  unfold Dict.getitem. destruct (get crm c) as [r|]; simpl; [|discriminate].
  destruct (get rb r); simpl; [|discriminate]. intros [= <-]. auto.
Qed.

Lemma ll_item_Ok (dag : Graph) (sbm : Dict.t nat) (i : nat) (li : list nat) :
  (succs <- nx.getitem dag i ;; mapM (Dict.getitem sbm) succs) = Ok li ->
  exists succs, get dag i = Some succs /\
                Forall2 (fun j b => get sbm j = Some b) succs li.
Proof.
  unfold nx.getitem, Dict.getitem at 1.
  destruct (get dag i) as [succs|]; simpl; [|discriminate].
  intros H. exists succs. split; [reflexivity|].
  apply mapM_Ok in H. eapply Forall2_weaken; [|exact H].
  intros j b. apply getitem_Ok.
Qed.

Section Run.
Variable maximum_matching : spmatrix -> Dict.t nat.
Variable scc : Graph -> list (list nat).
Variable topo : Graph -> option (list nat).
Variable A : spmatrix.
Variable matching : option (Dict.t nat).
Variable N : nat.
Let m := the_matching maximum_matching A matching.
Hypothesis Hshape : shape A = (N, N).
Hypothesis Hwf : wf_matrix A.
Hypothesis Hpm : perfect_matching A m.
Hypothesis Hlib : library_contracts scc topo A m.

Theorem run_decomposition :
  exists rb cb ll,
    block_triangularize maximum_matching scc topo A matching = Ok (rb, cb, ll) /\
    decomposition A m rb cb ll.
Proof.
  destruct (row_graph_spec A m N Hshape Hwf (pm_rows A m N Hshape Hwf Hpm))
    as (dg & Edg & Ndg & Wdg & Hdg).
  destruct (Hlib dg Edg) as [Hscc Htopo].
  assert (Hclosed : forall a b, has_edge dg a b -> In b (nodes dg)).
  { intros a b H. apply Hdg in H. rewrite Ndg. apply in_seq. lia. }
  assert (Hedge : forall a b, has_edge dg a b <-> row_edge A m a b).
  { intros a b. rewrite Hdg. split; [tauto|]. intros H. split; [|exact H].
    apply (row_edge_bound A m N Hshape Hwf Hpm a b H). }
  unfold scc_graph in Htopo.
  set (l := scc dg) in *.
  set (nsm := build_node_scc_map l) in *.
  destruct (build_dag_spec dg l nsm Hclosed (comp_of_node dg l Hscc))
    as (dag & Edag & Ndag & Wdag & Hdag).
  specialize (Htopo dag Edag).
  destruct (topo dag) as [order|] eqn:Eto.
  2:{ destruct Htopo as [u Hu].
      destruct (dag_acyclic dg l Hscc dag Hdag u Hu). }
  destruct Htopo as (NDo & Ino & Bef).
  assert (Ino' : forall u, In u order <-> u < length l).
  { intros u. rewrite Ino, Ndag, in_seq. lia. }
  set (sbm := block_map order).
  assert (NDnsm : NoDup (keys nsm)).
  { unfold nsm. rewrite node_scc_map_items by apply Hscc.
    unfold keys. rewrite map_fst_scc_items. apply Hscc. }
  assert (Hnsm_keys : forall n, In n (keys nsm) <-> n < N).
  { intros n. unfold nsm. rewrite node_scc_map_items by apply Hscc.
    unfold keys. rewrite map_fst_scc_items.
    destruct Hscc as (_ & Hcov & _). rewrite Hcov, Ndg, in_seq. lia. }
  assert (Hcomp : forall n, n < N -> exists c, get nsm n = Some c /\ c < length l).
  { intros n Hn. apply (comp_of_node dg l Hscc).
    rewrite Ndg. apply in_seq. lia. }
  assert (Hpos : forall c, c < length l ->
                           exists b, get sbm c = Some b /\ b < length l).
  { intros c Hc.
    destruct (block_map_total order (length l) NDo Ino' c Hc) as (b & Hb).
    exists b. split; [exact Hb|].
    apply (block_map_bound order (length l) NDo Ino' c b Hb). }
  (* row_block_map *)
  destruct (mapM_Forall2
              (fun nc : nat * nat =>
                 b <- Dict.getitem sbm (snd nc) ;; Ok (fst nc, b))
              (Dict.items nsm)) as (row_items & Erow & Frow).
  { intros [n c] Hin. simpl.
    assert (Hg : get nsm n = Some c) by (apply In_get; assumption).
    destruct (comp_bound dg l Hscc n c Hg) as [Hc _].
    destruct (Hpos c Hc) as (b & Hb & _). exists (n, b).
    unfold Dict.getitem. rewrite Hb. reflexivity. }
  destruct (comprehension_get (fun nc : nat * nat => fst nc)
                              (fun nc => get sbm (snd nc)) nsm row_items)
    as (Krb & Grb).
  { eapply Forall2_weaken; [|exact Frow]. intros nc p. apply row_item_Ok. }
  { exact NDnsm. }
  set (rb := Dict.of_items row_items) in *.
  assert (Hrb : forall n b, get rb n = Some b <->
                          exists c, get nsm n = Some c /\ get sbm c = Some b).
  { intros n b. rewrite Grb. split.
    - intros ([n' c] & Hin & Hk & Hv). simpl in *. subst n'. exists c.
      split; [apply In_get; assumption|exact Hv].
    - intros (c & Hc & Hb). exists (n, c). simpl.
      split; [apply get_In; exact Hc|auto]. }
  (* dag_ll *)
  destruct (mapM_Forall2
              (fun i => succs <- nx.getitem dag i ;;
                        mapM (Dict.getitem sbm) succs) order)
    as (ll & Ell & Fll).
  { intros i Hi. apply Ino in Hi. destruct (keys_get dag i Hi) as (succs & Hs).
    destruct (mapM_Forall2 (Dict.getitem sbm) succs) as (li & Hli & _).
    { intros j Hj. assert (He : has_edge dag i j) by (exists succs; auto).
      destruct (dag_edge_bound dg l Hscc dag Hdag i j He) as [_ Hjb].
      destruct (Hpos j Hjb) as (b & Hb & _). exists b.
      apply getitem_Ok. exact Hb. }
    exists li. unfold nx.getitem, Dict.getitem at 1. rewrite Hs. exact Hli. }
  assert (Fll' : Forall2
                   (fun i li =>
                      exists succs, get dag i = Some succs /\
                                    Forall2 (fun j b => get sbm j = Some b)
                                            succs li) order ll).
  { eapply Forall2_weaken; [|exact Fll]. intros i li. apply ll_item_Ok. }
  (* col_block_map *)
  pose proof (invert_get A m Hpm) as Hinv.
  destruct (mapM_Forall2
              (fun c => r <- Dict.getitem (invert m) c ;;
                        b <- Dict.getitem rb r ;; Ok (c, b)) (seq 0 N))
    as (col_items & Ecol & Fcol).
  { intros c Hc. apply in_seq in Hc.
    destruct (pm_onto A m N Hshape Hwf Hpm c) as (r & Hr); [lia|].
    destruct (pm_get_bound A m N Hshape Hwf Hpm r c Hr) as [HrN _].
    destruct (Hcomp r HrN) as (ci & Hci & Hcil).
    destruct (Hpos ci Hcil) as (b & Hb & _).
    exists (c, b). unfold Dict.getitem.
    rewrite (proj2 (Hinv c r) Hr). simpl.
    rewrite (proj2 (Hrb r b)) by eauto. reflexivity. }
  destruct (comprehension_get
              (fun c : nat => c)
              (fun c => match get (invert m) c with
                        | Some r => get rb r
                        | None => None
                        end) (seq 0 N) col_items) as (Kcb & Gcb).
  { eapply Forall2_weaken; [|exact Fcol]. intros c p. apply col_item_Ok. }
  { rewrite map_id. apply seq_NoDup. }
  rewrite map_id in Kcb.
  exists rb, (Dict.of_items col_items), ll. split.
  - unfold block_triangularize. rewrite Hshape, Nat.eqb_refl. cbn [negb].
    change (match matching with
            | None => maximum_matching A
            | Some m0 => m0
            end) with m.
    rewrite (pm_len A m N Hshape Hpm), Nat.eqb_refl. cbn [negb].
    unfold row_graph in Edg. rewrite Hshape in Edg. cbn [fst] in Edg.
    rewrite Edg. cbn [bind].
    clear - Edag Eto Erow Ell Ecol Hshape Hpm.
    subst rb sbm nsm l. unfold block_map, invert in *.
    rewrite Edag. cbn [bind]. rewrite Eto. cbn [bind].
    rewrite Erow. cbn [bind]. rewrite Ell. cbn [bind].
    fold (invert m). rewrite (invert_len A m N Hshape Hpm), Nat.eqb_refl.
    cbn [negb]. unfold invert. rewrite Ecol. reflexivity.
  - assert (Hll_len : length ll = length l).
    { rewrite <- (Forall2_length Fll).
      apply (order_length order (length l) NDo Ino'). }
    assert (Hreach : forall u v,
               reach dg u v <-> clos_refl_trans nat (row_edge A m) u v).
    { apply clos_rt_iff. exact Hedge. }
    assert (Hposi : forall b i, nth_error order b = Some i ->
                                get sbm i = Some b).
    { intros b i. apply (block_map_get order NDo). }
    assert (Hinj : forall c c' b, get sbm c = Some b -> get sbm c' = Some b ->
                                  c = c').
    { apply (block_map_inj order NDo). }
    constructor.
    + rewrite Krb. exact NDnsm.
    + intros r. rewrite Krb, Hshape. apply Hnsm_keys.
    + rewrite Kcb, Hshape. reflexivity.
    + intros r c Hrc.
      destruct (pm_get_bound A m N Hshape Hwf Hpm r c Hrc) as [HrN HcN].
      destruct (Hcomp r HrN) as (ci & Hci & Hcil).
      destruct (Hpos ci Hcil) as (b & Hb & _).
      assert (Hr : get rb r = Some b) by (apply Hrb; eauto).
      rewrite Hr. apply Gcb. exists c.
      split; [apply in_seq; lia|split; [reflexivity|]].
      rewrite (proj2 (Hinv c r) Hrc). exact Hr.
    + intros r b Hb. apply Hrb in Hb as (c & Hc & Hb). rewrite Hll_len.
      apply (block_map_bound order (length l) NDo Ino' c b Hb).
    + intros b Hb. rewrite Hll_len in Hb.
      destruct (block_map_onto order _ NDo Ino' b Hb) as (c & Hc).
      destruct (block_map_bound order _ NDo Ino' c b Hc) as [HcB _].
      destruct (comp_inhabited dg l Hscc c HcB) as (n & Hn).
      exists n. apply Hrb. eauto.
    + intros r s b b' Hb Hb'.
      apply Hrb in Hb as (c & Hc & Hb). apply Hrb in Hb' as (c' & Hc' & Hb').
      unfold mutual. rewrite <- !Hreach.
      rewrite <- (comp_same dg l Hscc r s c c' Hc Hc'). split.
      * intros <-. apply (Hinj c c' b Hb Hb').
      * intros <-. congruence.
    + intros b lb Hlb.
      destruct (Forall2_nth_r _ _ _ _ _ Fll' Hlb) as (i & Hi & succs & Hs & HF).
      eapply Forall2_NoDup; [|exact HF|].
      * intros j j' b0. apply Hinj.
      * destruct Wdag as [_ Hw]. apply (Hw i succs Hs).
    + intros b lb b' Hlb.
      destruct (Forall2_nth_r _ _ _ _ _ Fll' Hlb) as (i & Hi & succs & Hs & HF).
      apply Hposi in Hi. split.
      * intros Hin.
        destruct (Forall2_In_r _ _ _ _ HF Hin) as (j & Hj & Hjb).
        assert (He : has_edge dag i j) by (exists succs; auto).
        apply Hdag in He as (Hne & n & nb & Hed & Hn & Hnb). split.
        -- intros <-. apply Hne. apply (Hinj i j b Hi Hjb).
        -- exists n, nb. split; [apply Hedge; exact Hed|].
           split; apply Hrb; eauto.
      * intros (Hne & r & s & He & Hr & Hs').
        apply Hrb in Hr as (j & Hj & Hjb). apply Hrb in Hs' as (i' & Hi' & Hib).
        assert (i' = i) by (apply (Hinj i' i b Hib Hi)). subst i'.
        assert (Hed : has_edge dag i j).
        { apply Hdag. split.
          - intros <-. apply Hne. congruence.
          - exists r, s. split; [apply Hedge; exact He|auto]. }
        destruct Hed as (ss & Hss & Hjin).
        assert (ss = succs) by congruence. subst ss.
        destruct (Forall2_In_l _ _ _ _ HF Hjin) as (b'' & Hb'' & Hg).
        assert (b'' = b') by congruence. subst b''. exact Hb''.
    + intros r s b b' He Hb Hb'.
      apply Hrb in Hb as (c & Hc & Hb). apply Hrb in Hb' as (c' & Hc' & Hb').
      destruct (Nat.eq_dec c' c) as [->|Hne].
      * assert (b = b') by congruence. lia.
      * assert (Hed : has_edge dag c' c).
        { apply Hdag. split; [exact Hne|].
          exists r, s. split; [apply Hedge; exact He|auto]. }
        apply Bef in Hed.
        pose proof (block_map_before order NDo c' c b' b Hed Hb' Hb). lia.
Qed.

End Run.
End Assembly.

(** ** Consequences of the decomposition *)

Module DecompositionFacts.
Import Dict DictFacts MatchingFacts.

Section Facts.
Variable A : spmatrix.
Variables m rb cb : Dict.t nat.
Variable ll : list (list nat).
Variable N : nat.
Hypothesis Hshape : shape A = (N, N).
Hypothesis Hwf : wf_matrix A.
Hypothesis Hpm : perfect_matching A m.
Hypothesis D : decomposition A m rb cb ll.

Lemma row_block r : r < N -> exists b, get rb r = Some b /\ b < length ll.
Proof.
  intros Hr. assert (Hin : In r (keys rb)).
  { apply (dec_rows _ _ _ _ _ D). rewrite Hshape. exact Hr. }
  apply keys_get in Hin as (b & Hb). exists b. split; [exact Hb|].
  apply (dec_bound _ _ _ _ _ D r b Hb).
Qed.

Lemma row_block_bound r b : get rb r = Some b -> r < N.
Proof.
  intros H. apply get_Some_keys in H. apply (dec_rows _ _ _ _ _ D) in H.
  rewrite Hshape in H. exact H.
Qed.

Lemma col_block_bound c b : get cb c = Some b -> c < N.
Proof.
  intros H. apply get_Some_keys in H. rewrite (dec_cols _ _ _ _ _ D) in H.
  rewrite Hshape in H. apply in_seq in H. simpl in H. lia.
Qed.

(** The block of a column is the block of the row matched to it. *)
Lemma col_block c b :
  get cb c = Some b <-> exists s, get m s = Some c /\ get rb s = Some b.
Proof.
  split.
  - intros H. pose proof (col_block_bound c b H) as Hc.
    destruct (pm_onto A m N Hshape Hwf Hpm c Hc) as (s & Hs).
    exists s. split; [exact Hs|].
    rewrite <- (dec_col_row _ _ _ _ _ D s c Hs). exact H.
  - intros (s & Hs & Hb). rewrite (dec_col_row _ _ _ _ _ D s c Hs). exact Hb.
Qed.

(** An entry outside the matching is an edge of the graph of rows. *)
Lemma entry_edge row col :
  nonzero A row col -> get m row <> Some col ->
  exists s, get m s = Some col /\ row_edge A m row s.
Proof.
  intros Hnz Hne. assert (Hc : col < N).
  { apply Hwf in Hnz. rewrite Hshape in Hnz. apply Hnz. }
  destruct (pm_onto A m N Hshape Hwf Hpm col Hc) as (s & Hs).
  exists s. split; [exact Hs|]. split.
  - intros ->. contradiction.
  - exists col. auto.
Qed.

Lemma lower_triangular row col :
  nonzero A row col -> get m row <> Some col ->
  exists bc br, get cb col = Some bc /\ get rb row = Some br /\ bc <= br.
Proof.
  intros Hnz Hne. destruct (entry_edge row col Hnz Hne) as (s & Hs & He).
  destruct (row_edge_bound A m N Hshape Hwf Hpm row s He) as [Hr HsN].
  destruct (row_block row Hr) as (br & Hbr & _).
  destruct (row_block s HsN) as (bs & Hbs & _).
  exists bs, br. split; [apply col_block; eauto|split; [exact Hbr|]].
  apply (dec_order _ _ _ _ _ D row s br bs He Hbr Hbs).
Qed.

(** Listed blocks are the blocks that need the block at hand. *)
Lemma listed_dependents b lb b' :
  nth_error ll b = Some lb -> (In b' lb <-> depends_on A rb cb b' b).
Proof.
  intros Hlb. rewrite (dec_ll _ _ _ _ _ D b lb b' Hlb). unfold depends_on. split.
  - intros (Hne & r & s & He & Hr & Hs). split; [auto|].
    destruct He as (Hrs & c & Hc & Hnz). exists r, c.
    split; [exact Hnz|split; [exact Hr|]]. apply col_block. eauto.
  - intros (Hne & row & col & Hnz & Hr & Hc). split; [auto|].
    apply col_block in Hc as (s & Hs & Hb). exists row, s.
    split; [|auto]. split; [|eauto]. intros ->. congruence.
Qed.

Lemma listed_later b lb b' :
  nth_error ll b = Some lb -> In b' lb -> b < b' < length ll.
Proof.
  intros Hlb Hin. apply (dec_ll _ _ _ _ _ D b lb b' Hlb) in Hin.
  destruct Hin as (Hne & r & s & He & Hr & Hs).
  pose proof (dec_order _ _ _ _ _ D r s b' b He Hr Hs).
  pose proof (dec_bound _ _ _ _ _ D r b' Hr). lia.
Qed.

Lemma adjacent_increasing b b' :
  clos_trans nat (adjacent ll) b b' -> b < b'.
Proof.
  induction 1 as [b b' (lb & Hlb & Hin)|b b1 b' _ IH1 _ IH2].
  - apply (listed_later b lb b' Hlb Hin).
  - lia.
Qed.

End Facts.
End DecompositionFacts.

(** ** Soundness of the decision procedures *)

Module DecideFacts.
Import Dict DictFacts nx GraphFacts Reference Decide.

Lemma memb_In x l : memb x l = true <-> In x l.
Proof. apply existsb_eqb_In. Qed.

Lemma nodupb_NoDup l : nodupb l = true -> NoDup l.
Proof.
  induction l as [|x l IH]; simpl; intros H; [constructor|].
  apply andb_prop in H as [H1 H2]. constructor; [|auto].
  intros Hin. apply memb_In in Hin. rewrite Hin in H1. discriminate.
Qed.

Lemma subsetb_incl l l' : subsetb l l' = true -> forall x, In x l -> In x l'.
Proof.
  unfold subsetb. rewrite forallb_forall. intros H x Hx.
  apply memb_In. auto.
Qed.

Lemma in_succs g u v : In v (succs g u) <-> has_edge g u v.
Proof.
  unfold succs, has_edge. destruct (get g u) as [ss|].
  - split; [eauto|]. intros (ss' & [= <-] & H). exact H.
  - split; [intros []|]. intros (ss' & H & _). discriminate.
Qed.

Lemma in_fold_add_new L S x :
  In x (fold_left add_new L S) <-> In x S \/ In x L.
Proof.
  revert S. induction L as [|y L IH]; intros S; simpl; [tauto|].
  rewrite IH. unfold add_new. destruct (memb y S) eqn:E.
  - apply memb_In in E. intuition. subst. auto.
  - rewrite in_app_iff. simpl. tauto.
Qed.

Lemma closure_incl g fuel S x : In x S -> In x (closure g fuel S).
Proof.
  revert S. induction fuel as [|fuel IH]; intros S H; simpl; [exact H|].
  apply IH. apply in_fold_add_new. auto.
Qed.

Lemma closure_sound g fuel S x :
  In x (closure g fuel S) -> exists s, In s S /\ reach g s x.
Proof.
  revert S. induction fuel as [|fuel IH]; intros S H; simpl in H.
  - exists x. split; [exact H|apply rt_refl].
  - apply IH in H as (s' & Hs' & Hr). apply in_fold_add_new in Hs'.
    destruct Hs' as [Hs'|Hs']; [eauto|].
    apply in_flat_map in Hs' as (s & Hs & Hss'). apply in_succs in Hss'.
    exists s. split; [exact Hs|].
    apply rt_trans with s'; [apply rt_step; exact Hss'|exact Hr].
Qed.

Lemma closed_complete g R u v :
  closedb g R = true -> In u R -> reach g u v -> In v R.
Proof.
  intros Hc Hu Hr. apply clos_rt_rtn1 in Hr.
  induction Hr as [|y z Hyz _ IH]; [exact Hu|].
  unfold closedb in Hc. rewrite forallb_forall in Hc.
  apply (subsetb_incl _ _ (Hc y IH)). apply in_succs. exact Hyz.
Qed.

Lemma reach_from_spec g u v :
  closedb g (reach_from g u) = true ->
  (memb v (reach_from g u) = true <-> reach g u v).
Proof.
  intros Hc. rewrite memb_In. split.
  - intros H. apply closure_sound in H as (s & [<-|[]] & Hr). exact Hr.
  - apply closed_complete; [exact Hc|].
    apply closure_incl. left. reflexivity.
Qed.

Lemma scc_check_sound g l : scc_check g l = true -> scc_spec g l.
Proof.
  unfold scc_check. rewrite !andb_true_iff.
  intros (((((H1 & H2) & H3) & H4) & H5) & H6).
  pose proof (subsetb_incl _ _ H2) as Hin2.
  pose proof (subsetb_incl _ _ H3) as Hin3.
  rewrite forallb_forall in H4, H5, H6.
  split; [apply nodupb_NoDup; exact H1|]. split; [split; auto|]. split.
  - intros c Hc ->. specialize (H4 [] Hc). discriminate.
  - intros i j ci cj u v Hi Hj Hu Hv.
    assert (Hun : In u (nodes g)).
    { apply Hin2, in_concat. exists ci. split; [|exact Hu].
      eapply nth_error_In; eauto. }
    assert (Hvn : In v (nodes g)).
    { apply Hin2, in_concat. exists cj. split; [|exact Hv].
      eapply nth_error_In; eauto. }
    apply Components.in_enumerate in Hi, Hj.
    specialize (H6 (i, ci) Hi). rewrite forallb_forall in H6.
    specialize (H6 (j, cj) Hj). rewrite forallb_forall in H6.
    specialize (H6 u Hu). rewrite forallb_forall in H6.
    specialize (H6 v Hv). simpl in H6. apply eqb_prop in H6.
    unfold mutualb in H6.
    rewrite <- (reach_from_spec g u v (H5 u Hun)).
    rewrite <- (reach_from_spec g v u (H5 v Hvn)).
    rewrite <- andb_true_iff, <- H6. symmetry. apply Nat.eqb_eq.
Qed.

Lemma index_of_nth x l : In x l -> nth_error l (index_of x l) = Some x.
Proof.
  induction l as [|y l IH]; simpl; [tauto|].
  destruct (y =? x) eqn:E.
  - apply Nat.eqb_eq in E. subst. reflexivity.
  - apply Nat.eqb_neq in E. intros [H|H]; [contradiction|auto].
Qed.

Lemma topo_check_sound g r : topo_check g r = true -> topo_spec g r.
Proof.
  destruct r as [l|]; simpl; [|discriminate].
  rewrite !andb_true_iff. intros (((H1 & H2) & H3) & H4).
  pose proof (subsetb_incl _ _ H2) as Hin2.
  pose proof (subsetb_incl _ _ H3) as Hin3.
  rewrite forallb_forall in H4.
  split; [apply nodupb_NoDup; exact H1|]. split; [split; auto|].
  intros u v He. specialize (H4 u (has_edge_node g u v He)).
  rewrite forallb_forall in H4. apply in_succs in He.
  specialize (H4 v He). apply andb_prop in H4 as [Hv Hlt].
  apply memb_In in Hv. apply Nat.ltb_lt in Hlt.
  exists (index_of u l), (index_of v l).
  split; [apply index_of_nth, Hin3, (has_edge_node g u v);
          apply in_succs; exact He|].
  split; [apply index_of_nth; exact Hv|exact Hlt].
Qed.

Lemma contracts_check_sound scc topo A m :
  contracts_check scc topo A m = true -> library_contracts scc topo A m.
Proof.
  unfold contracts_check, library_contracts. intros H dg Edg.
  rewrite Edg in H. apply andb_prop in H as [H1 H2].
  split; [apply scc_check_sound; exact H1|].
  intros dag Edag. rewrite Edag in H2. apply topo_check_sound. exact H2.
Qed.

Lemma nonzerob_nonzero A i j : nonzerob A i j = true <-> nonzero A i j.
Proof.
  unfold nonzerob, nonzero. rewrite existsb_exists. split.
  - intros ([i' j'] & Hin & H). simpl in H. apply andb_prop in H as [Hi Hj].
    apply Nat.eqb_eq in Hi, Hj. subst. exact Hin.
  - intros H. exists (i, j). simpl. rewrite !Nat.eqb_refl. auto.
Qed.

Lemma wf_matrixb_sound A : wf_matrixb A = true -> wf_matrix A.
Proof.
  unfold wf_matrixb, wf_matrix. rewrite forallb_forall. intros H i j Hin.
  specialize (H (i, j) Hin). simpl in H. apply andb_prop in H as [Hi Hj].
  apply Nat.ltb_lt in Hi, Hj. auto.
Qed.

Lemma perfect_matchingb_sound A m :
  perfect_matchingb A m = true -> perfect_matching A m.
Proof.
  unfold perfect_matchingb, perfect_matching. rewrite !andb_true_iff.
  intros ((((H1 & H2) & H3) & H4) & H5).
  pose proof (subsetb_incl _ _ H2) as Hin2.
  pose proof (subsetb_incl _ _ H3) as Hin3.
  rewrite forallb_forall in H5.
  split; [apply nodupb_NoDup; exact H1|]. split.
  - intros r. split.
    + intros H. apply Hin2 in H. apply in_seq in H. lia.
    + intros H. apply Hin3. apply in_seq. lia.
  - split; [apply nodupb_NoDup; exact H4|].
    intros r c Hin. apply nonzerob_nonzero. apply (H5 (r, c) Hin).
Qed.

End DecideFacts.

(** ** Where a call can fail *)

Module Failures.
Import Dict DictFacts.

Lemma getitem_raise {V} (d : Dict.t V) k e :
  Dict.getitem d k = Raise e -> is_key_error e.
Proof.
  unfold Dict.getitem. destruct (get d k); [discriminate|].
  intros [= <-]. exists k. reflexivity.
Qed.

Lemma bind_raise {X Y} (r : result X) (f : X -> result Y) e :
  (x <- r ;; f x) = Raise e ->
  r = Raise e \/ exists a, r = Ok a /\ f a = Raise e.
Proof. destruct r as [a|e']; simpl; intros H; [eauto|left; congruence]. Qed.

Lemma mapM_raise {X Y} (f : X -> result Y) (l : list X) e :
  mapM f l = Raise e -> exists a, In a l /\ f a = Raise e.
Proof.
  induction l as [|a l IH]; simpl; [discriminate|].
  intros H. apply bind_raise in H as [H|(b & Hb & H)]; [eauto|].
  apply bind_raise in H as [H|(bs & Hbs & H)]; [|discriminate].
  destruct (IH H) as (a' & Ha' & Hf). eauto.
Qed.

Lemma foldM_raise {X Y} (f : Y -> X -> result Y) (l : list X) (b : Y) e :
  foldM f l b = Raise e -> exists b' a, f b' a = Raise e.
Proof.
  revert b. induction l as [|a l IH]; intros b; simpl; [discriminate|].
  intros H. apply bind_raise in H as [H|(b' & _ & H)]; eauto.
Qed.

Lemma build_dg_raise bg M m e : build_dg bg M m = Raise e -> is_key_error e.
Proof.
  unfold build_dg. intros H. apply foldM_raise in H as (dg & n & H).
  unfold add_row_edges in H.
  apply bind_raise in H as [H|(c & _ & H)]; [apply getitem_raise in H; exact H|].
  apply bind_raise in H as [H|(nbrs & _ & H)]; [|discriminate].
  apply getitem_raise in H. exact H.
Qed.

Lemma build_dag_raise dg l nsm e :
  build_dag dg l nsm = Raise e -> is_key_error e.
Proof.
  unfold build_dag. intros H. apply foldM_raise in H as (dag & n & H).
  unfold add_scc_edges in H.
  apply bind_raise in H as [H|(c & _ & H)]; [apply getitem_raise in H; exact H|].
  apply bind_raise in H as [H|(succs & _ & H)];
    [apply getitem_raise in H; exact H|].
  apply foldM_raise in H as (dag' & nb & H).
  apply bind_raise in H as [H|(t & _ & H)]; [|discriminate].
  apply getitem_raise in H. exact H.
Qed.

Lemma not_key_error : ~ is_key_error AssertionError.
Proof. intros (k & H). discriminate. Qed.

Lemma messages_differ s n : shape_msg s <> matching_msg n.
Proof. unfold shape_msg, matching_msg. simpl. intros H. discriminate H. Qed.

Section Run.
Variable maximum_matching : spmatrix -> Dict.t nat.
Variable scc : nx.Graph -> list (list nat).
Variable topo : nx.Graph -> option (list nat).
Variable A : spmatrix.
Variable matching : option (Dict.t nat).

Lemma non_square_raises :
  fst (shape A) <> snd (shape A) ->
  block_triangularize maximum_matching scc topo A matching =
  Raise (ValueError (shape_msg (shape A))).
Proof.
  intros H. unfold block_triangularize. destruct (shape A) as [M N].
  simpl in H. apply Nat.eqb_neq in H. rewrite H. reflexivity.
Qed.

Lemma wrong_cardinality_raises :
  square A ->
  len (the_matching maximum_matching A matching) <> fst (shape A) ->
  block_triangularize maximum_matching scc topo A matching =
  Raise (ValueError
           (matching_msg (len (the_matching maximum_matching A matching)))).
Proof.
  unfold square, the_matching, block_triangularize.
  destruct (shape A) as [M N]. simpl. intros -> H.
  rewrite Nat.eqb_refl. simpl. apply Nat.eqb_neq in H. rewrite H. reflexivity.
Qed.

(** The assertion of line 105 is the only source of an AssertionError. *)
Lemma assertion_raised :
  block_triangularize maximum_matching scc topo A matching =
  Raise AssertionError ->
  square A /\
  len (the_matching maximum_matching A matching) = fst (shape A) /\
  len (invert (the_matching maximum_matching A matching))
  <> fst (shape A).
Proof.
  unfold square, the_matching, block_triangularize, invert.
  destruct (shape A) as [M N]. simpl.
  destruct (M =? N) eqn:EMN; simpl; [|discriminate].
  apply Nat.eqb_eq in EMN. subst N.
  set (m := match matching with
            | Some m0 => m0
            | None => maximum_matching A
            end).
  destruct (len m =? M) eqn:Elen; simpl; [|discriminate].
  apply Nat.eqb_eq in Elen. intros H.
  apply bind_raise in H as [H|(dg & _ & H)];
    [apply build_dg_raise in H; destruct (not_key_error H)|].
  apply bind_raise in H as [H|(dag & _ & H)];
    [apply build_dag_raise in H; destruct (not_key_error H)|].
  apply bind_raise in H as [H|(order & _ & H)];
    [destruct (topo dag); discriminate|].
  apply bind_raise in H as [H|(row_items & _ & H)].
  { apply mapM_raise in H as (nc & _ & H).
    apply bind_raise in H as [H|(b & _ & H)]; [|discriminate].
    apply getitem_raise in H. destruct (not_key_error H). }
  apply bind_raise in H as [H|(dag_ll & _ & H)].
  { apply mapM_raise in H as (i & _ & H).
    apply bind_raise in H as [H|(succs & _ & H)];
      [apply getitem_raise in H; destruct (not_key_error H)|].
    apply mapM_raise in H as (j & _ & H).
    apply getitem_raise in H. destruct (not_key_error H). }
  destruct (len (of_items (map (fun rc : nat * nat => (snd rc, fst rc))
                               (items m))) =? M) eqn:Einv; simpl in H.
  - apply bind_raise in H as [H|(col_items & _ & H)]; [|discriminate].
    apply mapM_raise in H as (c & _ & H).
    apply bind_raise in H as [H|(r & _ & H)];
      [apply getitem_raise in H; destruct (not_key_error H)|].
    apply bind_raise in H as [H|(b & _ & H)]; [|discriminate].
    apply getitem_raise in H. destruct (not_key_error H).
  - apply Nat.eqb_neq in Einv. auto.
Qed.

Lemma assertion_repeated_column :
  block_triangularize maximum_matching scc topo A matching =
  Raise AssertionError ->
  ~ NoDup (map snd (the_matching maximum_matching A matching)).
Proof.
  intros H ND. apply assertion_raised in H as (_ & Hlen & Hinv).
  apply Hinv. rewrite <- Hlen. unfold invert, items.
  rewrite of_items_NoDup.
  - unfold len. apply length_map.
  - rewrite map_map. exact ND.
Qed.

End Run.
End Failures.

(** ** Invariance under relabelling *)

Module Relabel.
Import Dict DictFacts MatchingFacts DecompositionFacts.

Lemma permutes_onto N p :
  permutes N p -> forall k, k < N -> exists i, i < N /\ p i = k.
Proof.
  intros [Hin Hinj] k Hk.
  assert (Hincl : incl (seq 0 N) (map p (seq 0 N))).
  { apply NoDup_length_incl.
    - apply NoDup_map_NoDup_ForallPairs; [|apply seq_NoDup].
      intros i j Hi Hj. apply in_seq in Hi, Hj. apply Hinj; lia.
    - rewrite length_map. lia.
    - intros x Hx. apply in_map_iff in Hx as (i & <- & Hi).
      apply in_seq in Hi. apply in_seq. specialize (Hin i). lia. }
  assert (Hk' : In k (map p (seq 0 N))) by (apply Hincl, in_seq; lia).
  apply in_map_iff in Hk' as (i & Hi & Hin'). apply in_seq in Hin'.
  exists i. split; [lia|exact Hi].
Qed.

Section Iso.
Variables A A' : spmatrix.
Variables m m' rb cb rb' cb' : Dict.t nat.
Variables ll ll' : list (list nat).
Variable N : nat.
Variables pr pc : nat -> nat.
Hypothesis Hshape : shape A = (N, N).
Hypothesis Hwf : wf_matrix A.
Hypothesis Hwf' : wf_matrix A'.
Hypothesis Hpm : perfect_matching A m.
Hypothesis Hpm' : perfect_matching A' m'.
Hypothesis D : decomposition A m rb cb ll.
Hypothesis D' : decomposition A' m' rb' cb' ll'.
Hypothesis Hpr : permutes N pr.
Hypothesis Hpc : permutes N pc.
Hypothesis Hrel : relabelled pr pc A A' m m'.

Lemma shape_relabelled : shape A' = (N, N).
Proof. destruct Hrel as (H & _). rewrite H. exact Hshape. Qed.

Lemma edge_iso r s :
  r < N -> s < N -> (row_edge A' m' (pr r) (pr s) <-> row_edge A m r s).
Proof.
  intros Hr Hs. destruct Hrel as (_ & Hnz & Hm).
  rewrite Hshape in Hnz. simpl in Hnz.
  destruct (pm_rows A m N Hshape Hwf Hpm s Hs) as (c & Hc & HcN).
  pose proof (Hm s c Hc) as Hc'. unfold row_edge. split.
  - intros (Hne & c' & Hc'' & H). split; [congruence|].
    exists c. split; [exact Hc|].
    assert (c' = pc c) by congruence. subst c'. apply Hnz in H; assumption.
  - intros (Hne & c0 & Hc0 & H). assert (c0 = c) by congruence. subst c0.
    split.
    + intros E. apply Hne. apply (proj2 Hpr r s Hr Hs E).
    + exists (pc c). split; [exact Hc'|]. apply Hnz; assumption.
Qed.

Lemma reach_forward r s :
  clos_refl_trans nat (row_edge A m) r s -> r < N ->
  clos_refl_trans nat (row_edge A' m') (pr r) (pr s).
Proof.
  intros H. apply clos_rt_rt1n in H.
  induction H as [r|r t s Hrt _ IH]; intros Hr; [apply rt_refl|].
  destruct (row_edge_bound A m N Hshape Hwf Hpm r t Hrt) as [_ Ht].
  apply rt_trans with (pr t); [|apply IH; exact Ht].
  apply rt_step. apply edge_iso; assumption.
Qed.

Lemma reach_backward x y :
  clos_refl_trans nat (row_edge A' m') x y ->
  forall r s, r < N -> s < N -> pr r = x -> pr s = y ->
              clos_refl_trans nat (row_edge A m) r s.
Proof.
  intros H. apply clos_rt_rt1n in H.
  induction H as [x|x z y Hxz _ IH]; intros r s Hr Hs Ex Ey.
  - assert (r = s) by (apply (proj2 Hpr r s Hr Hs); congruence).
    subst. apply rt_refl.
  - destruct (row_edge_bound A' m' N shape_relabelled Hwf' Hpm' x z Hxz)
      as [_ Hz].
    destruct (permutes_onto N pr Hpr z Hz) as (t & Ht & Et).
    apply rt_trans with t; [|apply (IH t s Ht Hs Et Ey)].
    apply rt_step. apply edge_iso; [assumption..|]. rewrite Ex, Et. exact Hxz.
Qed.

Lemma mutual_iso r s :
  r < N -> s < N ->
  (mutual (row_edge A' m') (pr r) (pr s) <-> mutual (row_edge A m) r s).
Proof.
  intros Hr Hs. unfold mutual. split.
  - intros [H1 H2]. split.
    + apply (reach_backward _ _ H1 r s Hr Hs eq_refl eq_refl).
    + apply (reach_backward _ _ H2 s r Hs Hr eq_refl eq_refl).
  - intros [H1 H2]. split; apply reach_forward; assumption.
Qed.

(** Rows of one block are renamed to rows of one block, and only
    they. *)
Lemma same_block_iso r s b b2 c c2 :
  get rb r = Some b -> get rb s = Some b2 ->
  get rb' (pr r) = Some c -> get rb' (pr s) = Some c2 ->
  (b = b2 <-> c = c2).
Proof.
  intros Hb Hb2 Hc Hc2.
  pose proof (row_block_bound A m rb cb ll N Hshape D r b Hb) as Hr.
  pose proof (row_block_bound A m rb cb ll N Hshape D s b2 Hb2) as Hs.
  rewrite (dec_same _ _ _ _ _ D r s b b2 Hb Hb2).
  rewrite (dec_same _ _ _ _ _ D' (pr r) (pr s) c c2 Hc Hc2).
  symmetry. apply mutual_iso; assumption.
Qed.

Lemma new_block r : r < N -> exists c, get rb' (pr r) = Some c /\ c < length ll'.
Proof.
  intros Hr.
  apply (row_block A' m' rb' cb' ll' N shape_relabelled D' (pr r)).
  apply (proj1 Hpr r Hr).
Qed.

Lemma induced_spec r b :
  get rb r = Some b -> get rb' (pr r) = Some (induced N pr rb rb' b).
Proof.
  intros Hb.
  pose proof (row_block_bound A m rb cb ll N Hshape D r b Hb) as Hr.
  unfold induced.
  destruct (find (fun r0 => block_of rb r0 =? b) (seq 0 N)) as [r0|] eqn:E.
  - apply find_some in E as [Hr0 E0]. apply in_seq in Hr0.
    apply Nat.eqb_eq in E0.
    destruct (row_block A m rb cb ll N Hshape D r0) as (b0 & Hb0 & _); [lia|].
    unfold block_of in E0. rewrite Hb0 in E0. subst b0.
    destruct (new_block r Hr) as (c & Hc & _).
    destruct (new_block r0) as (c0 & Hc0 & _); [lia|].
    unfold block_of. rewrite Hc0, Hc. f_equal.
    apply (same_block_iso r r0 b b c c0 Hb Hb0 Hc Hc0). reflexivity.
  - exfalso. pose proof (find_none _ _ E r) as Hn.
    unfold block_of in Hn. rewrite Hb, Nat.eqb_refl in Hn.
    assert (Hin : In r (seq 0 N)) by (apply in_seq; lia).
    specialize (Hn Hin). discriminate.
Qed.

Lemma induced_bound b : b < length ll -> induced N pr rb rb' b < length ll'.
Proof.
  intros Hb. destruct (dec_inhabited _ _ _ _ _ D b Hb) as (r & Hr).
  apply (dec_bound _ _ _ _ _ D' (pr r)). apply induced_spec. exact Hr.
Qed.

Lemma induced_inj b b2 :
  b < length ll -> b2 < length ll ->
  induced N pr rb rb' b = induced N pr rb rb' b2 -> b = b2.
Proof.
  intros Hb Hb2 E.
  destruct (dec_inhabited _ _ _ _ _ D b Hb) as (r & Hr).
  destruct (dec_inhabited _ _ _ _ _ D b2 Hb2) as (s & Hs).
  apply (same_block_iso r s b b2 _ _ Hr Hs
                        (induced_spec r b Hr) (induced_spec s b2 Hs)).
  exact E.
Qed.

Lemma induced_onto c :
  c < length ll' -> exists b, b < length ll /\ induced N pr rb rb' b = c.
Proof.
  intros Hc. destruct (dec_inhabited _ _ _ _ _ D' c Hc) as (r' & Hr').
  pose proof (row_block_bound A' m' rb' cb' ll' N shape_relabelled D' r' c Hr')
    as Hr'N.
  destruct (permutes_onto N pr Hpr r' Hr'N) as (r & Hr & <-).
  destruct (row_block A m rb cb ll N Hshape D r Hr) as (b & Hb & Hbl).
  exists b. split; [exact Hbl|].
  pose proof (induced_spec r b Hb). congruence.
Qed.

Lemma same_number_of_blocks : length ll' = length ll.
Proof.
  apply Nat.le_antisymm.
  - assert (H : length (seq 0 (length ll')) <=
                length (map (induced N pr rb rb') (seq 0 (length ll)))).
    { apply NoDup_incl_length; [apply seq_NoDup|].
      intros c Hc. apply in_seq in Hc.
      destruct (induced_onto c) as (b & Hb & <-); [lia|].
      apply in_map. apply in_seq. lia. }
    rewrite length_map, !length_seq in H. exact H.
  - assert (H : length (map (induced N pr rb rb') (seq 0 (length ll))) <=
                length (seq 0 (length ll'))).
    { apply NoDup_incl_length.
      - apply NoDup_map_NoDup_ForallPairs; [|apply seq_NoDup].
        intros i j Hi Hj. apply in_seq in Hi, Hj. apply induced_inj; lia.
      - intros c Hc. apply in_map_iff in Hc as (b & <- & Hb).
        apply in_seq in Hb. apply in_seq.
        pose proof (induced_bound b). lia. }
    rewrite length_map, !length_seq in H. exact H.
Qed.

Lemma induced_col c b :
  get cb c = Some b -> get cb' (pc c) = Some (induced N pr rb rb' b).
Proof.
  intros Hc. apply (col_block A m rb cb ll N Hshape Hwf Hpm D) in Hc.
  destruct Hc as (s & Hs & Hb). destruct Hrel as (_ & _ & Hm).
  apply (col_block A' m' rb' cb' ll' N shape_relabelled Hwf' Hpm' D').
  exists (pr s). split; [apply Hm; exact Hs|apply induced_spec; exact Hb].
Qed.

Lemma adjacent_iso b b2 :
  b < length ll -> b2 < length ll ->
  (adjacent ll b b2 <->
   adjacent ll' (induced N pr rb rb' b) (induced N pr rb rb' b2)).
Proof.
  intros Hb Hb2. unfold adjacent.
  destruct (nth_error ll b) as [lb|] eqn:Elb;
    [|apply nth_error_None in Elb; lia].
  pose proof (induced_bound b Hb) as Hsb.
  destruct (nth_error ll' (induced N pr rb rb' b)) as [lb'|] eqn:Elb';
    [|apply nth_error_None in Elb'; lia].
  transitivity (In b2 lb).
  { split; [intros (l0 & [= <-] & H); exact H|eauto]. }
  transitivity (In (induced N pr rb rb' b2) lb').
  2:{ split; [eauto|intros (l0 & [= <-] & H); exact H]. }
  rewrite (dec_ll _ _ _ _ _ D b lb b2 Elb).
  rewrite (dec_ll _ _ _ _ _ D' _ lb' (induced N pr rb rb' b2) Elb').
  split.
  - intros (Hne & r & s & He & Hr & Hs). split.
    + intros E. apply Hne. apply induced_inj; assumption.
    + destruct (row_edge_bound A m N Hshape Hwf Hpm r s He) as [HrN HsN].
      exists (pr r), (pr s).
      split; [apply edge_iso; assumption|].
      split; apply induced_spec; assumption.
  - intros (Hne & r' & s' & He & Hr' & Hs'). split; [congruence|].
    destruct (row_edge_bound A' m' N shape_relabelled Hwf' Hpm' r' s' He)
      as [Hr'N Hs'N].
    destruct (permutes_onto N pr Hpr r' Hr'N) as (r & Hr & <-).
    destruct (permutes_onto N pr Hpr s' Hs'N) as (s & Hs & <-).
    destruct (row_block A m rb cb ll N Hshape D r Hr) as (br & Hbr & Hbrl).
    destruct (row_block A m rb cb ll N Hshape D s Hs) as (bs & Hbs & Hbsl).
    pose proof (induced_spec r br Hbr) as Er.
    pose proof (induced_spec s bs Hbs) as Es.
    assert (br = b2) by (apply induced_inj; [assumption..|congruence]).
    assert (bs = b) by (apply induced_inj; [assumption..|congruence]).
    subst br bs. exists r, s.
    split; [apply edge_iso; assumption|auto].
Qed.

End Iso.
End Relabel.

Module DecideRelabel.
Import Dict DictFacts Decide DecideFacts.

Lemma NoDup_map_injective (p : nat -> nat) (l : list nat) i j :
  NoDup (map p l) -> In i l -> In j l -> p i = p j -> i = j.
Proof.
  induction l as [|x l IH]; simpl; [tauto|].
  intros ND Hi Hj E. inversion ND as [|? ? Hn ND']; subst.
  destruct Hi as [->|Hi], Hj as [->|Hj]; auto.
  - exfalso. apply Hn. rewrite E. apply in_map. exact Hj.
  - exfalso. apply Hn. rewrite <- E. apply in_map. exact Hi.
Qed.

Lemma permutesb_sound N p : permutesb N p = true -> permutes N p.
Proof.
  unfold permutesb. intros H. apply andb_prop in H as [H1 H2].
  rewrite forallb_forall in H1. apply nodupb_NoDup in H2. split.
  - intros i Hi. apply Nat.ltb_lt. apply H1. apply in_seq. lia.
  - intros i j Hi Hj. apply (NoDup_map_injective p (seq 0 N) i j H2);
      apply in_seq; lia.
Qed.

Lemma relabelledb_sound pr pc A A' m m' :
  relabelledb pr pc A A' m m' = true -> relabelled pr pc A A' m m'.
Proof.
  unfold relabelledb. rewrite !andb_true_iff.
  intros (((H1 & H2) & H3) & H4). apply Nat.eqb_eq in H1, H2.
  rewrite forallb_forall in H3, H4. split.
  - destruct (shape A), (shape A'). simpl in *. congruence.
  - split.
    + intros i j Hi Hj.
      assert (Hi' : In i (seq 0 (fst (shape A)))) by (apply in_seq; lia).
      specialize (H3 i Hi'). rewrite forallb_forall in H3.
      assert (Hj' : In j (seq 0 (snd (shape A)))) by (apply in_seq; lia).
      specialize (H3 j Hj'). apply eqb_prop in H3.
      rewrite <- !nonzerob_nonzero, H3. reflexivity.
    + intros r c Hrc. apply get_In in Hrc. specialize (H4 (r, c) Hrc).
      simpl in H4. destruct (get m' (pr r)) as [c'|]; [|discriminate].
      apply Nat.eqb_eq in H4. congruence.
Qed.

End DecideRelabel.

(** ** The claims *)

Import Dict.

(** A call on a valid input succeeds, and its results are a
    decomposition. *)
Lemma valid_run mm scc topo A matching :
  square A -> wf_matrix A ->
  perfect_matching A (the_matching mm A matching) ->
  library_contracts scc topo A (the_matching mm A matching) ->
  exists N rb cb ll,
    shape A = (N, N) /\
    block_triangularize mm scc topo A matching = Ok (rb, cb, ll) /\
    decomposition A (the_matching mm A matching) rb cb ll.
Proof.
  intros Hsq Hwf Hpm Hlib. destruct (shape A) as [M N] eqn:Hshape.
  unfold square in Hsq. rewrite Hshape in Hsq. simpl in Hsq. subst M.
  destruct (Assembly.run_decomposition mm scc topo A matching N
              Hshape Hwf Hpm Hlib) as (rb & cb & ll & Hrun & D).
  exists N, rb, cb, ll. auto.
Qed.

(** The hypotheses on an input are decided by computation. *)
Ltac decide_hypothesis :=
  lazymatch goal with
  | |- square _ => reflexivity
  | |- wf_matrix _ => apply DecideFacts.wf_matrixb_sound; reflexivity
  | |- perfect_matching _ _ =>
      apply DecideFacts.perfect_matchingb_sound; reflexivity
  | |- library_contracts _ _ _ _ =>
      apply DecideFacts.contracts_check_sound; vm_compute; reflexivity
  | |- permutes _ _ => apply DecideRelabel.permutesb_sound; reflexivity
  | |- relabelled _ _ _ _ _ _ =>
      apply DecideRelabel.relabelledb_sound; reflexivity
  end.

(** The function runs: three evaluations with the executable routines.
    Two dense blocks chained by one entry give two blocks, the first
    listed before the second; the identity gives singleton blocks; a
    dense matrix gives a single block. *)
Example run_chained4 :
  Reference.run Examples.chained4 (Some Examples.identity4) =
  Ok ([(0, 0); (1, 0); (2, 1); (3, 1)], [(0, 0); (1, 0); (2, 1); (3, 1)],
      [[1]; []]).
Proof. vm_compute. reflexivity. Qed.

Example run_identity3 :
  Reference.run {| shape := (3, 3); entries := [(0, 0); (1, 1); (2, 2)] |}
                None =
  Ok ([(0, 0); (1, 1); (2, 2)], [(0, 0); (1, 1); (2, 2)], [[]; []; []]).
Proof. vm_compute. reflexivity. Qed.

Example run_dense2 :
  Reference.run Examples.dense2 None =
  Ok ([(0, 0); (1, 0)], [(0, 0); (1, 0)], [[]]).
Proof. vm_compute. reflexivity. Qed.

(** C1. Block lower triangular form: for a square matrix with a perfect
    matching the call returns [row_block_map] and [col_block_map] such
    that every entry [(row, col)] outside the matching has
    [col_block_map[col] <= row_block_map[row]]. *)
Theorem block_lower_triangular mm scc topo A matching :
  square A -> wf_matrix A ->
  perfect_matching A (the_matching mm A matching) ->
  library_contracts scc topo A (the_matching mm A matching) ->
  exists rb cb ll,
    block_triangularize mm scc topo A matching = Ok (rb, cb, ll) /\
    forall row col,
      nonzero A row col ->
      get (the_matching mm A matching) row <> Some col ->
      exists bc br,
        get cb col = Some bc /\ get rb row = Some br /\ bc <= br.
Proof.
  intros Hsq Hwf Hpm Hlib.
  destruct (valid_run mm scc topo A matching Hsq Hwf Hpm Hlib)
    as (N & rb & cb & ll & Hshape & Hrun & D).
  exists rb, cb, ll. split; [exact Hrun|].
  apply (DecompositionFacts.lower_triangular A _ rb cb ll N Hshape Hwf Hpm D).
Qed.

(** On the two chained blocks with the crossed matching. *)
Lemma block_lower_triangular_witness :
  exists rb cb ll,
    Reference.run Examples.chained4 (Some Examples.crossed4) = Ok (rb, cb, ll) /\
    forall row col,
      nonzero Examples.chained4 row col ->
      get Examples.crossed4 row <> Some col ->
      exists bc br,
        get cb col = Some bc /\ get rb row = Some br /\ bc <= br.
Proof.
  apply (block_lower_triangular
           Reference.maximum_matching Reference.strongly_connected_components
           Reference.topological_sort
           Examples.chained4 (Some Examples.crossed4)).
  all: decide_hypothesis.
Defined.

(** C2, as amended. The third result lists, at the position of block
    [b], exactly the blocks that depend on [b] (the blocks with a row
    that has an entry in a column of [b], to be solved later than [b]),
    each once; every block has a position in the list. *)
Theorem dependency_lists_hold_dependents mm scc topo A matching :
  square A -> wf_matrix A ->
  perfect_matching A (the_matching mm A matching) ->
  library_contracts scc topo A (the_matching mm A matching) ->
  exists rb cb ll,
    block_triangularize mm scc topo A matching = Ok (rb, cb, ll) /\
    (forall row b, get rb row = Some b -> b < length ll) /\
    forall b lb,
      nth_error ll b = Some lb ->
      NoDup lb /\ forall b', In b' lb <-> depends_on A rb cb b' b.
Proof.
  intros Hsq Hwf Hpm Hlib.
  destruct (valid_run mm scc topo A matching Hsq Hwf Hpm Hlib)
    as (N & rb & cb & ll & Hshape & Hrun & D).
  exists rb, cb, ll. split; [exact Hrun|]. split.
  - apply (dec_bound _ _ _ _ _ D).
  - intros b lb Hlb. split; [apply (dec_ll_once _ _ _ _ _ D b lb Hlb)|].
    intros b'.
    apply (DecompositionFacts.listed_dependents
             A _ rb cb ll N Hshape Hwf Hpm D b lb b' Hlb).
Qed.

(** On the arrow matrix, no matching given. *)
Lemma dependency_lists_hold_dependents_witness :
  exists rb cb ll,
    Reference.run Examples.arrow3 None = Ok (rb, cb, ll) /\
    (forall row b, get rb row = Some b -> b < length ll) /\
    forall b lb,
      nth_error ll b = Some lb ->
      NoDup lb /\ forall b', In b' lb <-> depends_on Examples.arrow3 rb cb b' b.
Proof.
  apply (dependency_lists_hold_dependents
           Reference.maximum_matching Reference.strongly_connected_components
           Reference.topological_sort Examples.arrow3 None).
  all: decide_hypothesis.
Defined.

(** C2 as stated fails: on the lower triangular 2 by 2 matrix, block 0
    (row 0) depends on nothing, yet block 1 is listed at position 0. *)
Lemma dependency_lists_direction_counterexample :
  square Examples.lower2 /\ wf_matrix Examples.lower2 /\
  perfect_matching Examples.lower2 Examples.identity2 /\
  library_contracts Reference.strongly_connected_components
                    Reference.topological_sort
                    Examples.lower2 Examples.identity2 /\
  exists rb cb ll,
    Reference.run Examples.lower2 (Some Examples.identity2) = Ok (rb, cb, ll) /\
    exists lb, nth_error ll 0 = Some lb /\ In 1 lb /\
               ~ depends_on Examples.lower2 rb cb 0 1.
Proof.
  split; [decide_hypothesis|]. split; [decide_hypothesis|].
  split; [decide_hypothesis|]. split; [decide_hypothesis|].
  exists [(0, 0); (1, 1)], [(0, 0); (1, 1)], [[1]; []].
  split; [vm_compute; reflexivity|].
  exists [1]. split; [reflexivity|]. split; [left; reflexivity|].
  intros (_ & row & col & Hnz & Hr & Hc).
  assert (row = 0) by (destruct row as [|[|row]]; simpl in Hr; congruence).
  assert (col = 1) by (destruct col as [|[|col]]; simpl in Hc; congruence).
  subst. unfold nonzero in Hnz. simpl in Hnz.
  destruct Hnz as [H|[H|[H|[]]]]; discriminate.
Qed.

(** C3. Totality: every row and every column has exactly one block, and
    a row and the column matched to it have the same block. *)
Theorem output_maps_total mm scc topo A matching :
  square A -> wf_matrix A ->
  perfect_matching A (the_matching mm A matching) ->
  library_contracts scc topo A (the_matching mm A matching) ->
  exists rb cb ll,
    block_triangularize mm scc topo A matching = Ok (rb, cb, ll) /\
    NoDup (keys rb) /\ (forall r, In r (keys rb) <-> r < fst (shape A)) /\
    NoDup (keys cb) /\ (forall c, In c (keys cb) <-> c < snd (shape A)) /\
    forall row, row < fst (shape A) ->
      exists col b, get (the_matching mm A matching) row = Some col /\
                    get cb col = Some b /\ get rb row = Some b.
Proof.
  intros Hsq Hwf Hpm Hlib.
  destruct (valid_run mm scc topo A matching Hsq Hwf Hpm Hlib)
    as (N & rb & cb & ll & Hshape & Hrun & D).
  exists rb, cb, ll. split; [exact Hrun|].
  split; [apply (dec_rows_once _ _ _ _ _ D)|].
  split; [apply (dec_rows _ _ _ _ _ D)|].
  rewrite (dec_cols _ _ _ _ _ D).
  split; [apply seq_NoDup|]. split; [intros c; rewrite in_seq; lia|].
  rewrite Hshape. simpl. intros row Hrow.
  destruct (MatchingFacts.pm_rows A _ N Hshape Hwf Hpm row Hrow)
    as (col & Hcol & _).
  destruct (DecompositionFacts.row_block A _ rb cb ll N Hshape D row Hrow)
    as (b & Hb & _).
  exists col, b. split; [exact Hcol|split; [|exact Hb]].
  rewrite (dec_col_row _ _ _ _ _ D row col Hcol). exact Hb.
Qed.

(** On the two chained blocks with the identity matching. *)
Lemma output_maps_total_witness :
  exists rb cb ll,
    Reference.run Examples.chained4 (Some Examples.identity4) = Ok (rb, cb, ll) /\
    NoDup (keys rb) /\ (forall r, In r (keys rb) <-> r < 4) /\
    NoDup (keys cb) /\ (forall c, In c (keys cb) <-> c < 4) /\
    forall row, row < 4 ->
      exists col b, get Examples.identity4 row = Some col /\
                    get cb col = Some b /\ get rb row = Some b.
Proof.
  apply (output_maps_total
           Reference.maximum_matching Reference.strongly_connected_components
           Reference.topological_sort
           Examples.chained4 (Some Examples.identity4)).
  all: decide_hypothesis.
Defined.

(** C4. Acyclicity: no non-empty chain of blocks, each listed at the
    position of the one before, returns to its start. *)
Theorem dependency_structure_acyclic mm scc topo A matching :
  square A -> wf_matrix A ->
  perfect_matching A (the_matching mm A matching) ->
  library_contracts scc topo A (the_matching mm A matching) ->
  exists rb cb ll,
    block_triangularize mm scc topo A matching = Ok (rb, cb, ll) /\
    forall b, ~ clos_trans nat (adjacent ll) b b.
Proof.
  intros Hsq Hwf Hpm Hlib.
  destruct (valid_run mm scc topo A matching Hsq Hwf Hpm Hlib)
    as (N & rb & cb & ll & Hshape & Hrun & D).
  exists rb, cb, ll. split; [exact Hrun|]. intros b Hcycle.
  apply (DecompositionFacts.adjacent_increasing A _ rb cb ll D) in Hcycle.
  lia.
Qed.

(** On the arrow matrix with the identity matching. *)
Lemma dependency_structure_acyclic_witness :
  exists rb cb ll,
    Reference.run Examples.arrow3 (Some Examples.identity3) = Ok (rb, cb, ll) /\
    forall b, ~ clos_trans nat (adjacent ll) b b.
Proof.
  apply (dependency_structure_acyclic
           Reference.maximum_matching Reference.strongly_connected_components
           Reference.topological_sort
           Examples.arrow3 (Some Examples.identity3)).
  all: decide_hypothesis.
Defined.

(** C5. The directed graph built over the rows (lines 58 to 67) has the
    rows as nodes and an edge [u -> v] exactly when [u <> v] and the
    matrix has an entry at [(u, matching[v])]. *)
Theorem row_graph_edges mm A matching :
  square A -> wf_matrix A ->
  perfect_matching A (the_matching mm A matching) ->
  exists dg,
    build_dg (from_biadjacency_matrix A) (fst (shape A))
             (the_matching mm A matching) = Ok dg /\
    nx.nodes dg = seq 0 (fst (shape A)) /\
    forall u v,
      nx.has_edge dg u v <->
      u <> v /\ exists c, get (the_matching mm A matching) v = Some c /\
                          nonzero A u c.
Proof.
  intros Hsq Hwf Hpm. destruct (shape A) as [M N] eqn:Hshape.
  unfold square in Hsq. rewrite Hshape in Hsq. simpl in Hsq. subst M.
  destruct (RowGraph.row_graph_spec
              A _ N Hshape Hwf (MatchingFacts.pm_rows A _ N Hshape Hwf Hpm))
    as (dg & Edg & Ndg & _ & Hdg).
  unfold row_graph in Edg. rewrite Hshape in Edg.
  exists dg. split; [exact Edg|]. split; [exact Ndg|].
  intros u v. rewrite Hdg. fold (row_edge A (the_matching mm A matching) u v).
  split; [tauto|]. intros H. split; [|exact H].
  apply (MatchingFacts.row_edge_bound A _ N Hshape Hwf Hpm u v H).
Qed.

(** On the two chained blocks with the identity matching. *)
Lemma row_graph_edges_witness :
  exists dg,
    build_dg (from_biadjacency_matrix Examples.chained4) 4
             Examples.identity4 = Ok dg /\
    nx.nodes dg = seq 0 4 /\
    forall u v,
      nx.has_edge dg u v <->
      u <> v /\ exists c, get Examples.identity4 v = Some c /\
                          nonzero Examples.chained4 u c.
Proof.
  apply (row_graph_edges Reference.maximum_matching
                         Examples.chained4 (Some Examples.identity4)).
  all: decide_hypothesis.
Defined.

(** C10. Every block listed at position [b] of the dependency structure
    has an index strictly greater than [b] (and is a block): going
    through the positions in increasing order meets each block before
    the blocks listed for it. *)
Theorem listed_blocks_come_later mm scc topo A matching :
  square A -> wf_matrix A ->
  perfect_matching A (the_matching mm A matching) ->
  library_contracts scc topo A (the_matching mm A matching) ->
  exists rb cb ll,
    block_triangularize mm scc topo A matching = Ok (rb, cb, ll) /\
    forall b lb b',
      nth_error ll b = Some lb -> In b' lb -> b < b' < length ll.
Proof.
  intros Hsq Hwf Hpm Hlib.
  destruct (valid_run mm scc topo A matching Hsq Hwf Hpm Hlib)
    as (N & rb & cb & ll & Hshape & Hrun & D).
  exists rb, cb, ll. split; [exact Hrun|].
  apply (DecompositionFacts.listed_later A _ rb cb ll D).
Qed.

(** On the two chained blocks, no matching given. *)
Lemma listed_blocks_come_later_witness :
  exists rb cb ll,
    Reference.run Examples.chained4 None = Ok (rb, cb, ll) /\
    forall b lb b',
      nth_error ll b = Some lb -> In b' lb -> b < b' < length ll.
Proof.
  apply (listed_blocks_come_later
           Reference.maximum_matching Reference.strongly_connected_components
           Reference.topological_sort Examples.chained4 None).
  all: decide_hypothesis.
Defined.

(** C7. A matrix whose numbers of rows and columns differ is rejected:
    the call raises the ValueError for non-square matrices (the spec's
    ShapeError) and returns nothing. *)
Theorem non_square_rejected mm scc topo A matching :
  fst (shape A) <> snd (shape A) ->
  block_triangularize mm scc topo A matching =
  Raise (ValueError (shape_msg (shape A))).
Proof. apply Failures.non_square_raises. Qed.

(** On a 2 by 3 matrix. *)
Lemma non_square_rejected_witness :
  Reference.run Examples.wide None =
  Raise (ValueError (shape_msg (2, 3))).
Proof.
  apply (non_square_rejected
           Reference.maximum_matching Reference.strongly_connected_components
           Reference.topological_sort Examples.wide None).
  simpl. lia.
Defined.

(** C8. A square matrix whose matching (given, or computed when none is
    given) has fewer entries than the matrix has rows is rejected: the
    call raises the ValueError for matchings that are not perfect (the
    spec's MatchingIncompleteError) and returns nothing. *)
Theorem incomplete_matching_rejected mm scc topo A matching :
  square A ->
  len (the_matching mm A matching) < fst (shape A) ->
  block_triangularize mm scc topo A matching =
  Raise (ValueError (matching_msg (len (the_matching mm A matching)))).
Proof.
  intros Hsq Hlt. apply Failures.wrong_cardinality_raises; [exact Hsq|lia].
Qed.

(** On a 2 by 2 matrix with a matching of one row. *)
Lemma incomplete_matching_rejected_witness :
  Reference.run Examples.lower2 (Some Examples.partial2) =
  Raise (ValueError (matching_msg 1)).
Proof.
  apply (incomplete_matching_rejected
           Reference.maximum_matching Reference.strongly_connected_components
           Reference.topological_sort
           Examples.lower2 (Some Examples.partial2)).
  - reflexivity.
  - simpl. lia.
Defined.

(** C9, as amended. A non-square matrix and an incomplete matching are
    both raised as a ValueError, told apart by the message alone (the
    two messages always differ); an AssertionError, a different type,
    is raised only on a square matrix whose matching has as many entries
    as rows but repeats a column. *)
Theorem failures_by_type mm scc topo A1 matching1 A2 matching2 A3 matching3 :
  fst (shape A1) <> snd (shape A1) ->
  square A2 -> len (the_matching mm A2 matching2) < fst (shape A2) ->
  block_triangularize mm scc topo A3 matching3 = Raise AssertionError ->
  exists msg1 msg2,
    block_triangularize mm scc topo A1 matching1 = Raise (ValueError msg1) /\
    block_triangularize mm scc topo A2 matching2 = Raise (ValueError msg2) /\
    msg1 <> msg2 /\
    type_of (ValueError msg1) = type_of (ValueError msg2) /\
    type_of AssertionError <> type_of (ValueError msg1) /\
    square A3 /\
    len (the_matching mm A3 matching3) = fst (shape A3) /\
    ~ NoDup (map snd (the_matching mm A3 matching3)).
Proof.
  intros H1 H2 H2' H3.
  exists (shape_msg (shape A1)),
         (matching_msg (len (the_matching mm A2 matching2))).
  split; [apply Failures.non_square_raises; exact H1|].
  split; [apply Failures.wrong_cardinality_raises; [exact H2|lia]|].
  split; [apply Failures.messages_differ|].
  split; [reflexivity|]. split; [discriminate|].
  destruct (Failures.assertion_raised mm scc topo A3 matching3 H3)
    as (Hsq & Hlen & _).
  split; [exact Hsq|]. split; [exact Hlen|].
  apply (Failures.assertion_repeated_column mm scc topo A3 matching3 H3).
Qed.

(** On a 2 by 3 matrix, a matching of one row, and a matching with a repeated column. *)
Lemma failures_by_type_witness :
  exists msg1 msg2,
    Reference.run Examples.wide None = Raise (ValueError msg1) /\
    Reference.run Examples.lower2 (Some Examples.partial2) =
    Raise (ValueError msg2) /\
    msg1 <> msg2 /\
    type_of (ValueError msg1) = type_of (ValueError msg2) /\
    type_of AssertionError <> type_of (ValueError msg1) /\
    square Examples.dense2 /\
    len Examples.repeated2 = 2 /\
    ~ NoDup (map snd Examples.repeated2).
Proof.
  apply (failures_by_type
           Reference.maximum_matching Reference.strongly_connected_components
           Reference.topological_sort
           Examples.wide None
           Examples.lower2 (Some Examples.partial2)
           Examples.dense2 (Some Examples.repeated2)).
  - simpl. lia.
  - reflexivity.
  - simpl. lia.
  - vm_compute. reflexivity.
Defined.

(** C9 as stated fails: a non-square matrix and an incomplete matching
    are raised as failures of one and the same type. *)
Lemma failure_types_counterexample :
  fst (shape Examples.wide) <> snd (shape Examples.wide) /\
  square Examples.lower2 /\
  len Examples.partial2 < fst (shape Examples.lower2) /\
  exists e1 e2,
    Reference.run Examples.wide None = Raise e1 /\
    Reference.run Examples.lower2 (Some Examples.partial2) = Raise e2 /\
    type_of e1 = type_of e2.
Proof.
  split; [simpl; lia|]. split; [reflexivity|]. split; [simpl; lia|].
  exists (ValueError (shape_msg (2, 3))), (ValueError (matching_msg 1)).
  split; [reflexivity|]. split; reflexivity.
Qed.

(** C6. Relabelling invariance: when the rows are renamed by [pr] and
    the columns by [pc], in the matrix and in the matching alike, the
    call on the renamed input yields the same decomposition up to a
    renaming [sigma] of the blocks: as many blocks, each row and each
    column in the renamed block, and the same dependency structure. *)
Theorem relabelling_invariant mm scc topo A matching A' matching' pr pc :
  square A -> wf_matrix A ->
  perfect_matching A (the_matching mm A matching) ->
  library_contracts scc topo A (the_matching mm A matching) ->
  wf_matrix A' ->
  perfect_matching A' (the_matching mm A' matching') ->
  library_contracts scc topo A' (the_matching mm A' matching') ->
  permutes (fst (shape A)) pr -> permutes (snd (shape A)) pc ->
  relabelled pr pc A A'
             (the_matching mm A matching) (the_matching mm A' matching') ->
  exists rb cb ll rb' cb' ll' sigma,
    block_triangularize mm scc topo A matching = Ok (rb, cb, ll) /\
    block_triangularize mm scc topo A' matching' = Ok (rb', cb', ll') /\
    length ll' = length ll /\
    permutes (length ll) sigma /\
    (forall r b, get rb r = Some b -> get rb' (pr r) = Some (sigma b)) /\
    (forall c b, get cb c = Some b -> get cb' (pc c) = Some (sigma b)) /\
    (forall b b2, b < length ll -> b2 < length ll ->
                  (adjacent ll b b2 <-> adjacent ll' (sigma b) (sigma b2))).
Proof.
  intros Hsq Hwf Hpm Hlib Hwf' Hpm' Hlib' Hpr Hpc Hrel.
  assert (Hsq' : square A').
  { unfold square. destruct Hrel as (-> & _). exact Hsq. }
  destruct (valid_run mm scc topo A matching Hsq Hwf Hpm Hlib)
    as (N & rb & cb & ll & Hshape & Hrun & D).
  destruct (valid_run mm scc topo A' matching' Hsq' Hwf' Hpm' Hlib')
    as (N' & rb' & cb' & ll' & Hshape' & Hrun' & D').
  rewrite Hshape in Hpr, Hpc. simpl in Hpr, Hpc.
  pose proof (Relabel.same_number_of_blocks
                A A' _ _ rb cb rb' cb' ll ll' N pr pc
                Hshape Hwf Hwf' Hpm Hpm' D D' Hpr Hrel) as Hlen.
  exists rb, cb, ll, rb', cb', ll', (induced N pr rb rb').
  split; [exact Hrun|]. split; [exact Hrun'|]. split; [exact Hlen|].
  split; [split|].
  - intros b Hb. rewrite <- Hlen.
    apply (Relabel.induced_bound A A' _ _ rb cb rb' cb' ll ll' N pr pc
             Hshape Hwf Hwf' Hpm Hpm' D D' Hpr Hrel b Hb).
  - apply (Relabel.induced_inj A A' _ _ rb cb rb' cb' ll ll' N pr pc
             Hshape Hwf Hwf' Hpm Hpm' D D' Hpr Hrel).
  - split; [|split].
    + apply (Relabel.induced_spec A A' _ _ rb cb rb' cb' ll ll' N pr pc
               Hshape Hwf Hwf' Hpm Hpm' D D' Hpr Hrel).
    + apply (Relabel.induced_col A A' _ _ rb cb rb' cb' ll ll' N pr pc
               Hshape Hwf Hwf' Hpm Hpm' D D' Hpr Hrel).
    + apply (Relabel.adjacent_iso A A' _ _ rb cb rb' cb' ll ll' N pr pc
               Hshape Hwf Hwf' Hpm Hpm' D D' Hpr Hrel).
Qed.

(** On the arrow matrix and its rotation. *)
Lemma relabelling_invariant_witness :
  exists rb cb ll rb' cb' ll' sigma,
    Reference.run Examples.arrow3 (Some Examples.identity3) = Ok (rb, cb, ll) /\
    Reference.run Examples.arrow3_rotated (Some Examples.identity3) =
    Ok (rb', cb', ll') /\
    length ll' = length ll /\
    permutes (length ll) sigma /\
    (forall r b, get rb r = Some b ->
                 get rb' (Examples.rotate3 r) = Some (sigma b)) /\
    (forall c b, get cb c = Some b ->
                 get cb' (Examples.rotate3 c) = Some (sigma b)) /\
    (forall b b2, b < length ll -> b2 < length ll ->
                  (adjacent ll b b2 <-> adjacent ll' (sigma b) (sigma b2))).
Proof.
  apply (relabelling_invariant
           Reference.maximum_matching Reference.strongly_connected_components
           Reference.topological_sort
           Examples.arrow3 (Some Examples.identity3)
           Examples.arrow3_rotated (Some Examples.identity3)
           Examples.rotate3 Examples.rotate3).
  all: decide_hypothesis.
Defined.

(** ** Calls on matchings that are not perfect *)

Module Partial.
Import DictFacts nx GraphFacts RowGraph Components Condensation.
Import MonadFacts Order MatchingFacts Assembly Failures.

Lemma foldM_app {X Y} (f : Y -> X -> result Y) (l1 l2 : list X) (b : Y) :
  foldM f (l1 ++ l2) b = (b' <- foldM f l1 b ;; foldM f l2 b').
Proof.
  revert b. induction l1 as [|a l1 IH]; intros b; simpl; [reflexivity|].
  destruct (f b a) as [b1|e]; simpl; [apply IH|reflexivity].
Qed.

Lemma foldM_ok {X Y} (f : Y -> X -> result Y) (l : list X) :
  (forall a, In a l -> forall b, exists b', f b a = Ok b') ->
  forall b, exists b', foldM f l b = Ok b'.
Proof.
  induction l as [|a l IH]; intros H b; simpl; [eauto|].
  destruct (H a (or_introl eq_refl) b) as (b1 & ->). simpl.
  apply IH. intros x Hx. apply H. right. exact Hx.
Qed.

(** The length of a dictionary built by comprehension is the number of
    distinct keys. *)
Lemma keys_fold_set {V} (l : list (nat * V)) (d : Dict.t V) :
  NoDup (keys d) ->
  NoDup (keys (fold_left (fun d kv => set d (fst kv) (snd kv)) l d)) /\
  forall k, In k (keys (fold_left (fun d kv => set d (fst kv) (snd kv)) l d))
            <-> In k (keys d) \/ In k (map fst l).
Proof.
  revert d. induction l as [|[k0 v0] l IH]; intros d ND; simpl.
  - split; [exact ND|]. intros k. tauto.
  - destruct (IH (set d k0 v0) (NoDup_keys_set d k0 v0 ND)) as [IH1 IH2].
    split; [exact IH1|]. intros k. rewrite IH2, in_keys_set. intuition.
Qed.

Lemma len_of_items_repeated {V} (l : list (nat * V)) :
  ~ NoDup (map fst l) -> len (of_items l) < length l.
Proof.
  intros Hrep. destruct (keys_fold_set l [] (NoDup_nil nat)) as [ND Hin].
  fold (of_items l) in ND, Hin. unfold len.
  rewrite <- (length_map fst (of_items l)), <- (length_map fst l).
  fold (keys (of_items l)).
  destruct (Nat.lt_ge_cases (length (keys (of_items l))) (length (map fst l)))
    as [Hlt|Hge]; [exact Hlt|].
  exfalso. apply Hrep.
  eapply NoDup_incl_NoDup; [exact ND|exact Hge|].
  intros k Hk. apply Hin in Hk as [[]|Hk]. exact Hk.
Qed.

Section Rows.
Variable A : spmatrix.
Variable m : Dict.t nat.
Variable N : nat.
Hypothesis Hshape : shape A = (N, N).
Hypothesis Hwf : wf_matrix A.

Lemma row_ok dg n c :
  get m n = Some c -> c < N ->
  exists dg', add_row_edges (from_biadjacency_matrix A) N m dg n = Ok dg'.
Proof.
  intros Hc HcN.
  destruct (bg_column A N N Hshape Hwf c HcN) as (nbrs & Hnb & _).
  unfold add_row_edges, Dict.getitem. rewrite Hc. simpl. rewrite Hnb. simpl.
  eexists. reflexivity.
Qed.

Lemma row_missing dg n :
  get m n = None ->
  add_row_edges (from_biadjacency_matrix A) N m dg n = Raise (KeyError n).
Proof.
  intros H. unfold add_row_edges, Dict.getitem. rewrite H. reflexivity.
Qed.


(** The loop over the rows stops at the first row it cannot handle. *)
Lemma build_dg_first_failure n0 e :
  n0 < N ->
  (forall n, n < n0 -> exists c, get m n = Some c /\ c < N) ->
  (forall dg, add_row_edges (from_biadjacency_matrix A) N m dg n0 = Raise e) ->
  build_dg (from_biadjacency_matrix A) N m = Raise e.
Proof.
  intros Hn0 Hbefore Hfail. unfold build_dg.
  rewrite nodes_add_nodes_from by (simpl; apply seq_NoDup). simpl.
  replace N with (n0 + S (N - S n0)) at 2 by lia.
  rewrite seq_app. simpl. rewrite foldM_app.
  destruct (foldM_ok (add_row_edges (from_biadjacency_matrix A) N m)
                     (seq 0 n0)) with (b := add_nodes_from empty (seq 0 N))
    as (dg1 & ->).
  - intros n Hn dg. apply in_seq in Hn.
    destruct (Hbefore n) as (c & Hc & HcN); [lia|].
    apply (row_ok dg n c Hc HcN).
  - simpl. rewrite Hfail. reflexivity.
Qed.

(** A loop over the rows that ends leaves a graph on the rows. *)
Lemma fold_rows_closed (l : list nat) dg dg' :
  foldM (add_row_edges (from_biadjacency_matrix A) N m) l dg = Ok dg' ->
  (forall n, In n l -> n < N) ->
  nodes dg = seq 0 N -> wf dg -> (forall a b, has_edge dg a b -> b < N) ->
  nodes dg' = seq 0 N /\ wf dg' /\ (forall a b, has_edge dg' a b -> b < N).
Proof.
  revert dg. induction l as [|n l IH]; intros dg; simpl.
  - intros [= <-]. auto.
  - intros H Hl Hn Hw Hc.
    destruct (add_row_edges (from_biadjacency_matrix A) N m dg n)
      as [dg1|e] eqn:E; simpl in H; [|discriminate].
    unfold add_row_edges, Dict.getitem in E.
    destruct (get m n) as [c|]; simpl in E; [|discriminate].
    unfold nx.getitem, Dict.getitem in E.
    destruct (get (from_biadjacency_matrix A) (c + N)) as [nbrs|] eqn:Eb;
      simpl in E; [|discriminate].
    inversion E as [E']. clear E.
    assert (Hnb : forall i, In i nbrs -> i < N).
    { intros i Hi.
      assert (He : has_edge (from_biadjacency_matrix A) (c + N) i)
        by (exists nbrs; auto).
      apply (bg_edges A N N Hshape) in He.
      destruct He as (i' & j' & Hent & [[E1 E2]|[E1 E2]]);
        apply (entry_bounds A N N Hshape Hwf) in Hent; lia. }
    destruct (add_neighbours_spec n nbrs dg) as (H1 & H2 & H3).
    + rewrite Hn. apply in_seq. specialize (Hl n (or_introl eq_refl)). lia.
    + intros a Ha. rewrite Hn. apply in_seq. specialize (Hnb a Ha). lia.
    + exact Hw.
    + rewrite E' in H1, H2, H3. apply (IH dg1 H).
      * intros k Hk. apply Hl. right. exact Hk.
      * congruence.
      * exact H2.
      * intros a b Hab. apply H3 in Hab as [Hab|(-> & _)]; [eauto|].
        apply Hl. left. reflexivity.
Qed.

Lemma build_dg_closed dg :
  build_dg (from_biadjacency_matrix A) N m = Ok dg ->
  nodes dg = seq 0 N /\ wf dg /\ (forall a b, has_edge dg a b -> In b (nodes dg)).
Proof.
  unfold build_dg. intros H.
  assert (Hn0 : nodes (add_nodes_from empty (seq 0 N)) = seq 0 N).
  { rewrite nodes_add_nodes_from; [reflexivity|]. simpl. apply seq_NoDup. }
  rewrite Hn0 in H.
  destruct (fold_rows_closed _ _ _ H) as (H1 & H2 & H3).
  - intros n Hn. apply in_seq in Hn. lia.
  - exact Hn0.
  - apply wf_add_nodes_from, wf_empty.
  - intros a b Hab. apply has_edge_add_nodes_from in Hab.
    destruct (no_edge_empty _ _ Hab).
  - split; [exact H1|]. split; [exact H2|].
    intros a b Hab. rewrite H1. apply in_seq. specialize (H3 a b Hab). lia.
Qed.

End Rows.

Section Run.
Variable maximum_matching : spmatrix -> Dict.t nat.
Variable scc : Graph -> list (list nat).
Variable topo : Graph -> option (list nat).
Variable A : spmatrix.
Variable matching : option (Dict.t nat).
Variable N : nat.
Let m := the_matching maximum_matching A matching.
Hypothesis Hshape : shape A = (N, N).
Hypothesis Hwf : wf_matrix A.
Hypothesis Hlen : len m = N.

(** Past the two checks, a failure of the loop over the rows is the
    failure of the call. *)
Lemma build_dg_raise_run e :
  build_dg (from_biadjacency_matrix A) N m = Raise e ->
  block_triangularize maximum_matching scc topo A matching = Raise e.
Proof.
  intros H. unfold block_triangularize. rewrite Hshape, Nat.eqb_refl.
  cbn [negb].
  change (match matching with
          | None => maximum_matching A
          | Some m0 => m0
          end) with m.
  rewrite Hlen, Nat.eqb_refl. cbn [negb]. rewrite H. reflexivity.
Qed.

Hypothesis Hlib : library_contracts scc topo A m.

(** The graph of components of a call that got that far is sorted. *)
Lemma sorted_components dg :
  build_dg (from_biadjacency_matrix A) N m = Ok dg ->
  exists dag order,
    build_dag dg (scc dg) (build_node_scc_map (scc dg)) = Ok dag /\
    topo dag = Some order /\
    scc_spec dg (scc dg) /\
    NoDup order /\ (forall u, In u order <-> u < length (scc dg)) /\
    wf dag /\
    (forall x y, has_edge dag x y -> x < length (scc dg) /\ y < length (scc dg)).
Proof.
  intros Edg.
  destruct (build_dg_closed A m N Hshape Hwf dg Edg) as (Ndg & Wdg & Hclosed).
  assert (Edg' : row_graph A m = Ok dg).
  { unfold row_graph. rewrite Hshape. exact Edg. }
  destruct (Hlib dg Edg') as [Hscc Htopo].
  destruct (build_dag_spec dg (scc dg) (build_node_scc_map (scc dg))
                           Hclosed (comp_of_node dg (scc dg) Hscc))
    as (dag & Edag & Ndag & Wdag & Hdag).
  specialize (Htopo dag Edag).
  destruct (topo dag) as [order|] eqn:Eto.
  2:{ destruct Htopo as [u Hu].
      destruct (dag_acyclic dg (scc dg) Hscc dag Hdag u Hu). }
  destruct Htopo as (NDo & Ino & _).
  exists dag, order. split; [exact Edag|]. split; [exact Eto|].
  split; [exact Hscc|]. split; [exact NDo|]. split.
  - intros u. rewrite Ino, Ndag, in_seq. lia.
  - split; [exact Wdag|]. apply (dag_edge_bound dg (scc dg) Hscc dag Hdag).
Qed.

(** With every row matched to a column of the matrix, the call reaches
    the assertion of line 105. *)
Lemma run_to_assertion :
  (forall r, r < N -> exists c, get m r = Some c /\ c < N) ->
  len (invert m) <> N ->
  block_triangularize maximum_matching scc topo A matching =
  Raise AssertionError.
Proof.
  intros Hrows Hinv.
  destruct (row_graph_spec A m N Hshape Hwf Hrows) as (dg & Edg & _).
  unfold row_graph in Edg. rewrite Hshape in Edg. cbn [fst] in Edg.
  destruct (sorted_components dg Edg)
    as (dag & order & Edag & Eto & Hscc & NDo & Ino & Wdag & Hbound).
  assert (Hpos : forall c, c < length (scc dg) ->
                           exists b, get (block_map order) c = Some b).
  { intros c Hc. apply (block_map_total order _ NDo Ino c Hc). }
  destruct (mapM_Forall2
              (fun nc : nat * nat =>
                 b <- Dict.getitem (block_map order) (snd nc) ;; Ok (fst nc, b))
              (Dict.items (build_node_scc_map (scc dg))))
    as (row_items & Erow & _).
  { intros [n c] Hin. simpl.
    assert (Hg : get (build_node_scc_map (scc dg)) n = Some c).
    { apply In_get; [|exact Hin].
      rewrite node_scc_map_items by apply Hscc.
      unfold keys. rewrite map_fst_scc_items. apply Hscc. }
    destruct (comp_bound dg (scc dg) Hscc n c Hg) as [Hc _].
    destruct (Hpos c Hc) as (b & Hb). exists (n, b).
    unfold Dict.getitem. rewrite Hb. reflexivity. }
  destruct (mapM_Forall2
              (fun i => succs <- nx.getitem dag i ;;
                        mapM (Dict.getitem (block_map order)) succs) order)
    as (ll & Ell & _).
  { intros i Hi. apply Ino in Hi.
    assert (Hin : In i (nodes dag)).
    { destruct (build_dg_closed A m N Hshape Hwf dg Edg) as (_ & _ & Hclosed).
      destruct (build_dag_spec dg (scc dg) (build_node_scc_map (scc dg))
                               Hclosed (comp_of_node dg (scc dg) Hscc))
        as (dag' & Edag' & Ndag' & _).
      assert (dag' = dag) by congruence. subst dag'.
      rewrite Ndag'. apply in_seq. lia. }
    destruct (keys_get dag i Hin) as (succs & Hs).
    destruct (mapM_Forall2 (Dict.getitem (block_map order)) succs)
      as (li & Hli & _).
    { intros j Hj. assert (He : has_edge dag i j) by (exists succs; auto).
      destruct (Hbound i j He) as [_ Hjb].
      destruct (Hpos j Hjb) as (b & Hb). exists b.
      apply getitem_Ok. exact Hb. }
    exists li. unfold nx.getitem, Dict.getitem at 1. rewrite Hs. exact Hli. }
  unfold block_triangularize. rewrite Hshape, Nat.eqb_refl. cbn [negb].
  change (match matching with
          | None => maximum_matching A
          | Some m0 => m0
          end) with m.
  rewrite Hlen, Nat.eqb_refl. cbn [negb].
  rewrite Edg. cbn [bind]. rewrite Edag. cbn [bind]. rewrite Eto. cbn [bind].
  rewrite Erow. cbn [bind]. rewrite Ell. cbn [bind].
  apply Nat.eqb_neq in Hinv. rewrite Hinv. reflexivity.
Qed.

(** The call never fails in [topological_sort]. *)
Lemma never_unfeasible :
  block_triangularize maximum_matching scc topo A matching <>
  Raise NetworkXUnfeasible.
Proof.
  unfold block_triangularize. rewrite Hshape, Nat.eqb_refl. cbn [negb].
  change (match matching with
          | None => maximum_matching A
          | Some m0 => m0
          end) with m.
  rewrite Hlen, Nat.eqb_refl. cbn [negb].
  destruct (build_dg (from_biadjacency_matrix A) N m) as [dg|e] eqn:Edg.
  2:{ cbn [bind]. intros [= ->]. apply build_dg_raise in Edg.
      destruct Edg as (k & Hk). discriminate. }
  destruct (sorted_components dg Edg) as (dag & order & Edag & Eto & _).
  cbn [bind]. rewrite Edag. cbn [bind]. rewrite Eto. cbn [bind].
  intros H.
  assert (Hk : forall e, is_key_error e -> e <> NetworkXUnfeasible).
  { intros e (k & ->). discriminate. }
  apply bind_raise in H as [H|(row_items & _ & H)].
  { apply mapM_raise in H as (nc & _ & H).
    apply bind_raise in H as [H|(b & _ & H)]; [|discriminate].
    apply getitem_raise in H. apply (Hk _ H). reflexivity. }
  apply bind_raise in H as [H|(dag_ll & _ & H)].
  { apply mapM_raise in H as (i & _ & H).
    apply bind_raise in H as [H|(succs & _ & H)];
      [apply getitem_raise in H; apply (Hk _ H); reflexivity|].
    apply mapM_raise in H as (j & _ & H).
    apply getitem_raise in H. apply (Hk _ H). reflexivity. }
  destruct (len (invert m) =? N); cbn [negb] in H; [|discriminate].
  apply bind_raise in H as [H|(col_items & _ & H)]; [|discriminate].
  apply mapM_raise in H as (c & _ & H).
  apply bind_raise in H as [H|(r & _ & H)];
    [apply getitem_raise in H; apply (Hk _ H); reflexivity|].
  apply bind_raise in H as [H|(b & _ & H)]; [|discriminate].
  apply getitem_raise in H. apply (Hk _ H). reflexivity.
Qed.

End Run.
End Partial.

(** ** Counting blocks and their members *)

Module Blocks.
Import DictFacts MatchingFacts DecompositionFacts.

Lemma in_members N d b i :
  In i (members N d b) <-> i < N /\ get d i = Some b.
Proof.
  unfold members. rewrite filter_In, in_seq. split.
  - intros [Hi H]. split; [lia|].
    destruct (get d i) as [b'|]; [|discriminate].
    apply Nat.eqb_eq in H. congruence.
  - intros [Hi H]. split; [lia|]. rewrite H. apply Nat.eqb_refl.
Qed.

Lemma NoDup_members N d b : NoDup (members N d b).
Proof. unfold members. apply NoDup_filter, seq_NoDup. Qed.

Section Counting.
Variable A : spmatrix.
Variables m rb cb : Dict.t nat.
Variable ll : list (list nat).
Variable N : nat.
Hypothesis Hshape : shape A = (N, N).
Hypothesis Hwf : wf_matrix A.
Hypothesis Hpm : perfect_matching A m.
Hypothesis D : decomposition A m rb cb ll.

Lemma block_of_row r b : get rb r = Some b -> block_of rb r = b.
Proof. intros H. unfold block_of. rewrite H. reflexivity. Qed.

Lemma blocks_le_rows : length ll <= N.
Proof.
  assert (H : length (seq 0 (length ll)) <=
              length (map (block_of rb) (seq 0 N))).
  { apply NoDup_incl_length; [apply seq_NoDup|].
    intros b Hb. apply in_seq in Hb.
    destruct (dec_inhabited _ _ _ _ _ D b) as (r & Hr); [lia|].
    apply in_map_iff. exists r. split; [apply block_of_row; exact Hr|].
    apply in_seq.
    pose proof (row_block_bound A m rb cb ll N Hshape D r b Hr). lia. }
  rewrite length_map, !length_seq in H. exact H.
Qed.

Lemma members_inhabited b : members N rb b <> [] <-> b < length ll.
Proof.
  split.
  - intros H. destruct (members N rb b) as [|r l] eqn:E; [contradiction|].
    assert (Hr : In r (members N rb b)) by (rewrite E; left; reflexivity).
    apply in_members in Hr as [_ Hr]. apply (dec_bound _ _ _ _ _ D r b Hr).
  - intros Hb E. destruct (dec_inhabited _ _ _ _ _ D b Hb) as (r & Hr).
    assert (Hin : In r (members N rb b)).
    { apply in_members. split; [|exact Hr].
      apply (row_block_bound A m rb cb ll N Hshape D r b Hr). }
    rewrite E in Hin. destruct Hin.
Qed.

(** A block has as many columns as rows: the matching pairs them. *)
Lemma square_block b : length (members N rb b) = length (members N cb b).
Proof.
  set (col_of := fun r => match get m r with Some c => c | None => 0 end).
  rewrite <- (length_map col_of (members N rb b)).
  apply Permutation_length. apply NoDup_Permutation.
  - apply NoDup_map_NoDup_ForallPairs; [|apply NoDup_members].
    intros r s Hr Hs E. apply in_members in Hr as [Hr _], Hs as [Hs _].
    destruct (pm_rows A m N Hshape Hwf Hpm r Hr) as (c & Hc & _).
    destruct (pm_rows A m N Hshape Hwf Hpm s Hs) as (c' & Hc' & _).
    unfold col_of in E. rewrite Hc, Hc' in E. subst c'.
    apply (pm_inj A m Hpm r s c Hc Hc').
  - apply NoDup_members.
  - intros c. rewrite in_map_iff, in_members. split.
    + intros (r & <- & Hr). apply in_members in Hr as [Hr Hb].
      destruct (pm_rows A m N Hshape Hwf Hpm r Hr) as (c & Hc & HcN).
      unfold col_of. rewrite Hc. split; [exact HcN|].
      apply (col_block A m rb cb ll N Hshape Hwf Hpm D). eauto.
    + intros [Hc Hb].
      apply (col_block A m rb cb ll N Hshape Hwf Hpm D) in Hb.
      destruct Hb as (s & Hs & Hb). exists s. split.
      * unfold col_of. rewrite Hs. reflexivity.
      * apply in_members. split; [|exact Hb].
        apply (row_block_bound A m rb cb ll N Hshape D s b Hb).
Qed.

(** When no two rows reach each other, every row is a block. *)
Lemma singletons :
  (forall r s, mutual (row_edge A m) r s -> r = s) ->
  length ll = N /\
  forall r s b, get rb r = Some b -> get rb s = Some b -> r = s.
Proof.
  intros Hsep.
  assert (Hinj : forall r s b, get rb r = Some b -> get rb s = Some b -> r = s).
  { intros r s b Hr Hs. apply Hsep.
    apply (dec_same _ _ _ _ _ D r s b b Hr Hs). reflexivity. }
  split; [|exact Hinj]. apply Nat.le_antisymm; [apply blocks_le_rows|].
  assert (H : length (map (block_of rb) (seq 0 N)) <=
              length (seq 0 (length ll))).
  { apply NoDup_incl_length.
    - apply NoDup_map_NoDup_ForallPairs; [|apply seq_NoDup].
      intros r s Hr Hs E. apply in_seq in Hr, Hs.
      destruct (row_block A m rb cb ll N Hshape D r) as (b & Hb & _); [lia|].
      destruct (row_block A m rb cb ll N Hshape D s) as (b' & Hb' & _); [lia|].
      rewrite (block_of_row r b Hb), (block_of_row s b' Hb') in E. subst b'.
      apply (Hinj r s b Hb Hb').
    - intros b Hb. apply in_map_iff in Hb as (r & <- & Hr). apply in_seq in Hr.
      destruct (row_block A m rb cb ll N Hshape D r) as (b & Hb & Hbl); [lia|].
      rewrite (block_of_row r b Hb). apply in_seq. lia. }
  rewrite length_map, !length_seq in H. exact H.
Qed.

(** Without an entry outside the matching, no block is listed. *)
Lemma nothing_listed :
  (forall r s, ~ row_edge A m r s) -> forall lb, In lb ll -> lb = [].
Proof.
  intros Hno lb Hin. apply In_nth_error in Hin as (b & Hb).
  destruct lb as [|b' lb]; [reflexivity|]. exfalso.
  assert (H : In b' (b' :: lb)) by (left; reflexivity).
  apply (dec_ll _ _ _ _ _ D b _ b' Hb) in H.
  destruct H as (_ & r & s & He & _). apply (Hno r s He).
Qed.

(** When all rows reach each other, there is one block. *)
Lemma one_block :
  0 < N -> (forall r s, r < N -> s < N -> mutual (row_edge A m) r s) ->
  ll = [[]] /\ forall r, r < N -> get rb r = Some 0.
Proof.
  intros HN Hall.
  assert (Hone : forall b b', b < length ll -> b' < length ll -> b = b').
  { intros b b' Hb Hb'.
    destruct (dec_inhabited _ _ _ _ _ D b Hb) as (r & Hr).
    destruct (dec_inhabited _ _ _ _ _ D b' Hb') as (s & Hs).
    apply (dec_same _ _ _ _ _ D r s b b' Hr Hs). apply Hall.
    - apply (row_block_bound A m rb cb ll N Hshape D r b Hr).
    - apply (row_block_bound A m rb cb ll N Hshape D s b' Hs). }
  destruct (row_block A m rb cb ll N Hshape D 0 HN) as (b0 & Hb0 & Hb0l).
  assert (Hlen : length ll = 1).
  { destruct ll as [|l0 [|l1 l2]]; simpl in *; [lia|reflexivity|].
    specialize (Hone 0 1). lia. }
  split.
  - destruct ll as [|l0 [|l1 l2]]; simpl in Hlen; try discriminate.
    f_equal. destruct l0 as [|b' l0]; [reflexivity|]. exfalso.
    assert (H : 0 < b' < 1).
    { apply (listed_later A m rb cb [b' :: l0] D 0 (b' :: l0) b');
        [reflexivity|left; reflexivity]. }
    lia.
  - intros r Hr.
    destruct (row_block A m rb cb ll N Hshape D r Hr) as (b & Hb & Hbl).
    rewrite Hb. f_equal. lia.
Qed.

End Counting.
End Blocks.

(** ** Further properties of block_triangularize *)

(** X1. The check of line 51 is an inequality: a matching with more
    entries than the matrix has rows is rejected like one with fewer,
    with the ValueError that reports the cardinality. *)
Theorem oversized_matching_rejected mm scc topo A matching :
  square A ->
  fst (shape A) < len (the_matching mm A matching) ->
  block_triangularize mm scc topo A matching =
  Raise (ValueError (matching_msg (len (the_matching mm A matching)))).
Proof.
  intros Hsq Hgt. apply Failures.wrong_cardinality_raises; [exact Hsq|lia].
Qed.

(** On a 2 by 2 matrix with a matching of three entries. *)
Lemma oversized_matching_rejected_witness :
  Reference.run Examples.lower2 (Some Examples.oversized2) =
  Raise (ValueError (matching_msg 3)).
Proof.
  apply (oversized_matching_rejected
           Reference.maximum_matching Reference.strongly_connected_components
           Reference.topological_sort
           Examples.lower2 (Some Examples.oversized2)).
  - reflexivity.
  - simpl. lia.
Defined.

(** X2. A matching with as many entries as rows that has no entry for
    some row passes both checks and raises KeyError at [matching[n]]
    (line 61), for the first row [n] without an entry. *)
Theorem missing_row_raises_key_error mm scc topo A matching n0 :
  square A -> wf_matrix A ->
  len (the_matching mm A matching) = fst (shape A) ->
  n0 < fst (shape A) ->
  get (the_matching mm A matching) n0 = None ->
  (forall n, n < n0 ->
             exists c, get (the_matching mm A matching) n = Some c /\
                       c < snd (shape A)) ->
  block_triangularize mm scc topo A matching = Raise (KeyError n0).
Proof.
  intros Hsq Hwf Hlen Hn0 Hnone Hbefore.
  destruct (shape A) as [M N] eqn:Hshape.
  unfold square in Hsq. rewrite Hshape in Hsq. simpl in *. subst M.
  apply (Partial.build_dg_raise_run mm scc topo A matching N Hshape Hlen).
  apply (Partial.build_dg_first_failure A _ N Hshape Hwf n0 _ Hn0 Hbefore).
  intros dg. apply Partial.row_missing. exact Hnone.
Qed.

(** On a 2 by 2 matrix with the matching [{0: 0, 5: 1}]. *)
Lemma missing_row_raises_key_error_witness :
  Reference.run Examples.lower2 (Some Examples.stray2) = Raise (KeyError 1).
Proof.
  apply (missing_row_raises_key_error
           Reference.maximum_matching Reference.strongly_connected_components
           Reference.topological_sort
           Examples.lower2 (Some Examples.stray2) 1).
  - reflexivity.
  - decide_hypothesis.
  - reflexivity.
  - simpl. lia.
  - reflexivity.
  - intros n Hn. assert (n = 0) by lia. subst n.
    exists 0. split; [reflexivity|simpl; lia].
Defined.



(** X4. A matching that gives every row a column of the matrix but
    gives two rows the same column gets through the construction of the
    blocks and is caught by the assertion of line 105. *)
Theorem repeated_column_fails_assertion mm scc topo A matching :
  square A -> wf_matrix A ->
  len (the_matching mm A matching) = fst (shape A) ->
  (forall r, r < fst (shape A) ->
             exists c, get (the_matching mm A matching) r = Some c /\
                       c < snd (shape A)) ->
  ~ NoDup (map snd (the_matching mm A matching)) ->
  library_contracts scc topo A (the_matching mm A matching) ->
  block_triangularize mm scc topo A matching = Raise AssertionError.
Proof.
  intros Hsq Hwf Hlen Hrows Hrep Hlib.
  destruct (shape A) as [M N] eqn:Hshape.
  unfold square in Hsq. rewrite Hshape in Hsq. simpl in *. subst M.
  apply (Partial.run_to_assertion mm scc topo A matching N
           Hshape Hwf Hlen Hlib Hrows).
  assert (H : len (invert (the_matching mm A matching)) <
              length (map (fun rc : nat * nat => (snd rc, fst rc))
                          (the_matching mm A matching))).
  { apply Partial.len_of_items_repeated. rewrite map_map. exact Hrep. }
  rewrite length_map in H. unfold len in Hlen. lia.
Qed.

(** On a dense 2 by 2 matrix with the matching [{0: 0, 1: 0}]. *)
Lemma repeated_column_fails_assertion_witness :
  Reference.run Examples.dense2 (Some Examples.repeated2) =
  Raise AssertionError.
Proof.
  apply (repeated_column_fails_assertion
           Reference.maximum_matching Reference.strongly_connected_components
           Reference.topological_sort
           Examples.dense2 (Some Examples.repeated2)).
  - reflexivity.
  - decide_hypothesis.
  - reflexivity.
  - intros r Hr. simpl in Hr. exists 0.
    destruct r as [|[|r]]; [split; [reflexivity|simpl; lia]..|lia].
  - intros H. inversion H as [|x l Hn _]. apply Hn. left. reflexivity.
  - decide_hypothesis.
Defined.

(** X5. With the library routines meeting their contracts, the call
    never fails in [topological_sort] (line 89), whatever the matching:
    the graph of components it builds has no cycle. *)
Theorem topological_sort_never_fails mm scc topo A matching :
  wf_matrix A ->
  library_contracts scc topo A (the_matching mm A matching) ->
  block_triangularize mm scc topo A matching <> Raise NetworkXUnfeasible.
Proof.
  intros Hwf Hlib. destruct (shape A) as [M N] eqn:Hshape.
  destruct (Nat.eq_dec M N) as [->|Hne].
  - destruct (Nat.eq_dec (len (the_matching mm A matching)) N) as [Hlen|Hlen].
    + apply (Partial.never_unfeasible mm scc topo A matching N
               Hshape Hwf Hlen Hlib).
    + rewrite Failures.wrong_cardinality_raises.
      * discriminate.
      * unfold square. rewrite Hshape. reflexivity.
      * rewrite Hshape. exact Hlen.
  - rewrite Failures.non_square_raises; [discriminate|].
    rewrite Hshape. exact Hne.
Qed.

(** On a dense 2 by 2 matrix with a matching that repeats a column. *)
Lemma topological_sort_never_fails_witness :
  wf_matrix Examples.dense2 /\
  Reference.run Examples.dense2 (Some Examples.repeated2) <>
  Raise NetworkXUnfeasible.
Proof.
  split; [decide_hypothesis|].
  apply (topological_sort_never_fails
           Reference.maximum_matching Reference.strongly_connected_components
           Reference.topological_sort
           Examples.dense2 (Some Examples.repeated2)).
  all: decide_hypothesis.
Defined.

(** X6. The blocks are the strongly connected components of the graph
    of rows: two rows get the same block exactly when each reaches the
    other along entries outside the matching. *)
Theorem blocks_are_components mm scc topo A matching :
  square A -> wf_matrix A ->
  perfect_matching A (the_matching mm A matching) ->
  library_contracts scc topo A (the_matching mm A matching) ->
  exists rb cb ll,
    block_triangularize mm scc topo A matching = Ok (rb, cb, ll) /\
    forall r s b b',
      get rb r = Some b -> get rb s = Some b' ->
      (b = b' <-> mutual (row_edge A (the_matching mm A matching)) r s).
Proof.
  intros Hsq Hwf Hpm Hlib.
  destruct (valid_run mm scc topo A matching Hsq Hwf Hpm Hlib)
    as (N & rb & cb & ll & Hshape & Hrun & D).
  exists rb, cb, ll. split; [exact Hrun|]. apply (dec_same _ _ _ _ _ D).
Qed.

(** On the two chained blocks with the crossed matching. *)
Lemma blocks_are_components_witness :
  exists rb cb ll,
    Reference.run Examples.chained4 (Some Examples.crossed4) = Ok (rb, cb, ll) /\
    forall r s b b',
      get rb r = Some b -> get rb s = Some b' ->
      (b = b' <-> mutual (row_edge Examples.chained4 Examples.crossed4) r s).
Proof.
  apply (blocks_are_components
           Reference.maximum_matching Reference.strongly_connected_components
           Reference.topological_sort
           Examples.chained4 (Some Examples.crossed4)).
  all: decide_hypothesis.
Defined.

(** X7. The block indices in use are exactly the positions of the
    dependency structure: a block has a row exactly when its index is
    below the length of the third result, and there are at most as many
    blocks as rows. *)
Theorem no_empty_block mm scc topo A matching :
  square A -> wf_matrix A ->
  perfect_matching A (the_matching mm A matching) ->
  library_contracts scc topo A (the_matching mm A matching) ->
  exists rb cb ll,
    block_triangularize mm scc topo A matching = Ok (rb, cb, ll) /\
    length ll <= fst (shape A) /\
    forall b, members (fst (shape A)) rb b <> [] <-> b < length ll.
Proof.
  intros Hsq Hwf Hpm Hlib.
  destruct (valid_run mm scc topo A matching Hsq Hwf Hpm Hlib)
    as (N & rb & cb & ll & Hshape & Hrun & D).
  exists rb, cb, ll. split; [exact Hrun|]. rewrite Hshape. simpl. split.
  - apply (Blocks.blocks_le_rows A _ rb cb ll N Hshape D).
  - apply (Blocks.members_inhabited A _ rb cb ll N Hshape D).
Qed.

(** On the arrow matrix, no matching given. *)
Lemma no_empty_block_witness :
  exists rb cb ll,
    Reference.run Examples.arrow3 None = Ok (rb, cb, ll) /\
    length ll <= 3 /\
    forall b, members 3 rb b <> [] <-> b < length ll.
Proof.
  apply (no_empty_block
           Reference.maximum_matching Reference.strongly_connected_components
           Reference.topological_sort Examples.arrow3 None).
  all: decide_hypothesis.
Defined.

(** X8. Every block is square: it has as many columns as rows. *)
Theorem blocks_are_square mm scc topo A matching :
  square A -> wf_matrix A ->
  perfect_matching A (the_matching mm A matching) ->
  library_contracts scc topo A (the_matching mm A matching) ->
  exists rb cb ll,
    block_triangularize mm scc topo A matching = Ok (rb, cb, ll) /\
    forall b, length (members (fst (shape A)) rb b) =
              length (members (snd (shape A)) cb b).
Proof.
  intros Hsq Hwf Hpm Hlib.
  destruct (valid_run mm scc topo A matching Hsq Hwf Hpm Hlib)
    as (N & rb & cb & ll & Hshape & Hrun & D).
  exists rb, cb, ll. split; [exact Hrun|]. rewrite Hshape. simpl.
  apply (Blocks.square_block A _ rb cb ll N Hshape Hwf Hpm D).
Qed.

(** On the two chained blocks with the crossed matching. *)
Lemma blocks_are_square_witness :
  exists rb cb ll,
    Reference.run Examples.chained4 (Some Examples.crossed4) = Ok (rb, cb, ll) /\
    forall b, length (members 4 rb b) = length (members 4 cb b).
Proof.
  apply (blocks_are_square
           Reference.maximum_matching Reference.strongly_connected_components
           Reference.topological_sort
           Examples.chained4 (Some Examples.crossed4)).
  all: decide_hypothesis.
Defined.

(** X9. A matrix that is lower triangular already, matched along its
    diagonal, falls apart completely: as many blocks as rows, no two
    rows in one block. *)
Theorem triangular_gives_singletons mm scc topo A matching :
  square A -> wf_matrix A ->
  perfect_matching A (the_matching mm A matching) ->
  library_contracts scc topo A (the_matching mm A matching) ->
  (forall r, r < fst (shape A) ->
             get (the_matching mm A matching) r = Some r) ->
  (forall row col, nonzero A row col -> col <= row) ->
  exists rb cb ll,
    block_triangularize mm scc topo A matching = Ok (rb, cb, ll) /\
    length ll = fst (shape A) /\
    forall r s b, get rb r = Some b -> get rb s = Some b -> r = s.
Proof.
  intros Hsq Hwf Hpm Hlib Hid Hlow.
  destruct (valid_run mm scc topo A matching Hsq Hwf Hpm Hlib)
    as (N & rb & cb & ll & Hshape & Hrun & D).
  exists rb, cb, ll. split; [exact Hrun|]. rewrite Hshape in *. simpl in *.
  apply (Blocks.singletons A _ rb cb ll N Hshape D).
  assert (Hdown : forall r s,
             clos_refl_trans nat (row_edge A (the_matching mm A matching)) r s ->
             s <= r).
  { intros r s H. induction H as [r s He| |]; [|lia|lia].
    destruct (MatchingFacts.row_edge_bound A _ N Hshape Hwf Hpm r s He)
      as [_ Hs].
    destruct He as (_ & c & Hc & Hnz). rewrite (Hid s Hs) in Hc.
    inversion Hc; subst c. apply (Hlow r s Hnz). }
  intros r s [H1 H2]. apply Hdown in H1, H2. lia.
Qed.

(** On the full lower triangular 3 by 3 matrix. *)
Lemma triangular_gives_singletons_witness :
  exists rb cb ll,
    Reference.run Examples.lower3 (Some Examples.identity3) = Ok (rb, cb, ll) /\
    length ll = 3 /\
    forall r s b, get rb r = Some b -> get rb s = Some b -> r = s.
Proof.
  apply (triangular_gives_singletons
           Reference.maximum_matching Reference.strongly_connected_components
           Reference.topological_sort
           Examples.lower3 (Some Examples.identity3)).
  1-4: decide_hypothesis.
  - intros r Hr. simpl in Hr.
    destruct r as [|[|[|r]]]; [reflexivity..|lia].
  - intros row col Hnz. unfold nonzero in Hnz. simpl in Hnz.
    repeat (destruct Hnz as [Hnz|Hnz]; [inversion Hnz; lia|]).
    destruct Hnz.
Defined.

(** X10. A matrix with an entry everywhere is one block: every row and
    every column gets block 0 and the dependency structure is a single
    empty list. *)
Theorem dense_gives_one_block mm scc topo A matching :
  square A -> wf_matrix A ->
  perfect_matching A (the_matching mm A matching) ->
  library_contracts scc topo A (the_matching mm A matching) ->
  0 < fst (shape A) ->
  (forall row col, row < fst (shape A) -> col < snd (shape A) ->
                   nonzero A row col) ->
  exists rb cb,
    block_triangularize mm scc topo A matching = Ok (rb, cb, [[]]) /\
    (forall r, r < fst (shape A) -> get rb r = Some 0) /\
    (forall c, c < snd (shape A) -> get cb c = Some 0).
Proof.
  intros Hsq Hwf Hpm Hlib Hpos Hdense.
  destruct (valid_run mm scc topo A matching Hsq Hwf Hpm Hlib)
    as (N & rb & cb & ll & Hshape & Hrun & D).
  rewrite Hshape in *. simpl in *.
  assert (Hedge : forall r s, r < N -> s < N -> r <> s ->
                              row_edge A (the_matching mm A matching) r s).
  { intros r s Hr Hs Hne. split; [exact Hne|].
    destruct (MatchingFacts.pm_rows A _ N Hshape Hwf Hpm s Hs)
      as (c & Hc & HcN).
    exists c. split; [exact Hc|]. apply Hdense; assumption. }
  destruct (Blocks.one_block A _ rb cb ll N Hshape D Hpos) as [Hll Hrows].
  { intros r s Hr Hs. destruct (Nat.eq_dec r s) as [->|Hne].
    - split; apply rt_refl.
    - split; apply rt_step; apply Hedge; auto. }
  subst ll. exists rb, cb. split; [exact Hrun|]. split; [exact Hrows|].
  intros c Hc.
  destruct (MatchingFacts.pm_onto A _ N Hshape Hwf Hpm c Hc) as (s & Hs).
  rewrite (dec_col_row _ _ _ _ _ D s c Hs). apply Hrows.
  apply (MatchingFacts.pm_get_bound A _ N Hshape Hwf Hpm s c Hs).
Qed.

(** On the dense 2 by 2 matrix with the matching off the diagonal. *)
Lemma dense_gives_one_block_witness :
  exists rb cb,
    Reference.run Examples.dense2 (Some Examples.swapped2) = Ok (rb, cb, [[]]) /\
    (forall r, r < 2 -> get rb r = Some 0) /\
    (forall c, c < 2 -> get cb c = Some 0).
Proof.
  apply (dense_gives_one_block
           Reference.maximum_matching Reference.strongly_connected_components
           Reference.topological_sort
           Examples.dense2 (Some Examples.swapped2)).
  1-4: decide_hypothesis.
  - simpl. lia.
  - intros row col Hr Hc. simpl in Hr, Hc.
    apply DecideFacts.nonzerob_nonzero.
    destruct row as [|[|row]]; [| |lia];
      (destruct col as [|[|col]]; [reflexivity..|lia]).
Defined.

(** X11. When every entry of the matrix is a matched pair (a diagonal
    matrix, up to the order of the columns), the equations are
    independent: as many blocks as rows, one row each, and nothing
    listed in the dependency structure. *)
Theorem matched_entries_only_gives_independent_blocks
        mm scc topo A matching :
  square A -> wf_matrix A ->
  perfect_matching A (the_matching mm A matching) ->
  library_contracts scc topo A (the_matching mm A matching) ->
  (forall row col, nonzero A row col ->
                   get (the_matching mm A matching) row = Some col) ->
  exists rb cb ll,
    block_triangularize mm scc topo A matching = Ok (rb, cb, ll) /\
    length ll = fst (shape A) /\
    (forall r s b, get rb r = Some b -> get rb s = Some b -> r = s) /\
    (forall lb, In lb ll -> lb = []).
Proof.
  intros Hsq Hwf Hpm Hlib Hdiag.
  destruct (valid_run mm scc topo A matching Hsq Hwf Hpm Hlib)
    as (N & rb & cb & ll & Hshape & Hrun & D).
  exists rb, cb, ll. split; [exact Hrun|]. rewrite Hshape. simpl.
  assert (Hno : forall r s, ~ row_edge A (the_matching mm A matching) r s).
  { intros r s (Hne & c & Hc & Hnz). apply Hne. apply Hdiag in Hnz.
    apply (MatchingFacts.pm_inj A _ Hpm r s c Hnz Hc). }
  destruct (Blocks.singletons A _ rb cb ll N Hshape D) as [Hlen Hinj].
  { intros r s [H _]. apply clos_rt_rt1n in H.
    destruct H as [|t s' Hedge _]; [reflexivity|].
    destruct (Hno _ _ Hedge). }
  split; [exact Hlen|]. split; [exact Hinj|].
  apply (Blocks.nothing_listed A _ rb cb ll D Hno).
Qed.

(** On the diagonal 3 by 3 matrix, no matching given. *)
Lemma matched_entries_only_gives_independent_blocks_witness :
  exists rb cb ll,
    Reference.run Examples.diagonal3 None = Ok (rb, cb, ll) /\
    length ll = 3 /\
    (forall r s b, get rb r = Some b -> get rb s = Some b -> r = s) /\
    (forall lb, In lb ll -> lb = []).
Proof.
  apply (matched_entries_only_gives_independent_blocks
           Reference.maximum_matching Reference.strongly_connected_components
           Reference.topological_sort Examples.diagonal3 None).
  1-4: decide_hypothesis.
  intros row col Hnz. unfold nonzero in Hnz. simpl in Hnz.
  repeat (destruct Hnz as [Hnz|Hnz]; [inversion Hnz; reflexivity|]).
  destruct Hnz.
Defined.

(** X12. On a matrix without rows and columns the call returns two
    empty maps and an empty dependency structure. *)
Theorem empty_matrix_gives_empty_results mm scc topo A matching :
  shape A = (0, 0) -> wf_matrix A ->
  len (the_matching mm A matching) = 0 ->
  library_contracts scc topo A (the_matching mm A matching) ->
  block_triangularize mm scc topo A matching = Ok ([], [], []).
Proof.
  intros Hshape Hwf Hlen Hlib.
  assert (Hm : the_matching mm A matching = []).
  { destruct (the_matching mm A matching); [reflexivity|discriminate]. }
  assert (Hpm : perfect_matching A (the_matching mm A matching)).
  { rewrite Hm. unfold perfect_matching. rewrite Hshape. simpl.
    split; [constructor|]. split; [intros r; lia|].
    split; [constructor|]. intros r c []. }
  destruct (Assembly.run_decomposition mm scc topo A matching 0
              Hshape Hwf Hpm Hlib) as (rb & cb & ll & Hrun & D).
  rewrite Hrun.
  assert (Hrb : rb = []).
  { destruct rb as [|[r b] rb]; [reflexivity|]. exfalso.
    assert (H : In r (keys ((r, b) :: rb))) by (left; reflexivity).
    apply (dec_rows _ _ _ _ _ D) in H. rewrite Hshape in H. simpl in H. lia. }
  assert (Hcb : cb = []).
  { pose proof (dec_cols _ _ _ _ _ D) as H. rewrite Hshape in H. simpl in H.
    destruct cb; [reflexivity|discriminate]. }
  assert (Hll : ll = []).
  { pose proof (Blocks.blocks_le_rows A _ rb cb ll 0 Hshape D) as H.
    destruct ll; [reflexivity|simpl in H; lia]. }
  subst. reflexivity.
Qed.

(** On the 0 by 0 matrix, no matching given. *)
Lemma empty_matrix_gives_empty_results_witness :
  Reference.run Examples.empty0 None = Ok ([], [], []).
Proof.
  apply (empty_matrix_gives_empty_results
           Reference.maximum_matching Reference.strongly_connected_components
           Reference.topological_sort Examples.empty0 None).
  - reflexivity.
  - decide_hypothesis.
  - reflexivity.
  - decide_hypothesis.
Defined.

(** X13. The decomposition does not depend on how the library routines
    number the components or break the ties of the topological order:
    with two pairs of routines that meet the contracts, the two results
    have the same rows and columns in each block and the same
    dependency structure, up to a renaming [sigma] of the blocks. *)
Theorem library_independence mm scc topo scc' topo' A matching :
  square A -> wf_matrix A ->
  perfect_matching A (the_matching mm A matching) ->
  library_contracts scc topo A (the_matching mm A matching) ->
  library_contracts scc' topo' A (the_matching mm A matching) ->
  exists rb cb ll rb' cb' ll' sigma,
    block_triangularize mm scc topo A matching = Ok (rb, cb, ll) /\
    block_triangularize mm scc' topo' A matching = Ok (rb', cb', ll') /\
    length ll' = length ll /\
    permutes (length ll) sigma /\
    (forall r b, get rb r = Some b -> get rb' r = Some (sigma b)) /\
    (forall c b, get cb c = Some b -> get cb' c = Some (sigma b)) /\
    (forall b b2, b < length ll -> b2 < length ll ->
                  (adjacent ll b b2 <-> adjacent ll' (sigma b) (sigma b2))).
Proof.
  intros Hsq Hwf Hpm Hlib Hlib'.
  destruct (valid_run mm scc topo A matching Hsq Hwf Hpm Hlib)
    as (N & rb & cb & ll & Hshape & Hrun & D).
  destruct (valid_run mm scc' topo' A matching Hsq Hwf Hpm Hlib')
    as (N' & rb' & cb' & ll' & Hshape' & Hrun' & D').
  set (same := fun i : nat => i).
  assert (Hp : permutes N same).
  { split; [intros i Hi; exact Hi|intros i j _ _ E; exact E]. }
  assert (Hrel : relabelled same same A A (the_matching mm A matching)
                            (the_matching mm A matching)).
  { split; [reflexivity|]. split; [intros i j _ _; reflexivity|].
    intros r c H. exact H. }
  pose proof (Relabel.same_number_of_blocks
                A A _ _ rb cb rb' cb' ll ll' N same same
                Hshape Hwf Hwf Hpm Hpm D D' Hp Hrel) as Hlen.
  exists rb, cb, ll, rb', cb', ll', (induced N same rb rb').
  split; [exact Hrun|]. split; [exact Hrun'|]. split; [exact Hlen|].
  split; [split|].
  - intros b Hb. rewrite <- Hlen.
    apply (Relabel.induced_bound A A _ _ rb cb rb' cb' ll ll' N same same
             Hshape Hwf Hwf Hpm Hpm D D' Hp Hrel b Hb).
  - apply (Relabel.induced_inj A A _ _ rb cb rb' cb' ll ll' N same same
             Hshape Hwf Hwf Hpm Hpm D D' Hp Hrel).
  - split; [|split].
    + apply (Relabel.induced_spec A A _ _ rb cb rb' cb' ll ll' N same same
               Hshape Hwf Hwf Hpm Hpm D D' Hp Hrel).
    + apply (Relabel.induced_col A A _ _ rb cb rb' cb' ll ll' N same same
               Hshape Hwf Hwf Hpm Hpm D D' Hp Hrel).
    + apply (Relabel.adjacent_iso A A _ _ rb cb rb' cb' ll ll' N same same
               Hshape Hwf Hwf Hpm Hpm D D' Hp Hrel).
Qed.

(** On the arrow matrix, with the components numbered in one order and
    in the reverse order. *)
Lemma library_independence_witness :
  exists rb cb ll rb' cb' ll' sigma,
    Reference.run Examples.arrow3 None = Ok (rb, cb, ll) /\
    Alternative.run Examples.arrow3 None = Ok (rb', cb', ll') /\
    length ll' = length ll /\
    permutes (length ll) sigma /\
    (forall r b, get rb r = Some b -> get rb' r = Some (sigma b)) /\
    (forall c b, get cb c = Some b -> get cb' c = Some (sigma b)) /\
    (forall b b2, b < length ll -> b2 < length ll ->
                  (adjacent ll b b2 <-> adjacent ll' (sigma b) (sigma b2))).
Proof.
  apply (library_independence
           Reference.maximum_matching
           Reference.strongly_connected_components Reference.topological_sort
           Alternative.strongly_connected_components Reference.topological_sort
           Examples.arrow3 None).
  all: decide_hypothesis.
Defined.

(** ** Comparing the results on two matrices *)

Module Compare.
Import DictFacts MatchingFacts DecompositionFacts.

Lemma clos_rt_incl (R S : nat -> nat -> Prop) :
  (forall a b, R a b -> S a b) ->
  forall x y, clos_refl_trans nat R x y -> clos_refl_trans nat S x y.
Proof.
  intros H x y. induction 1;
    [apply rt_step; auto|apply rt_refl|eapply rt_trans; eassumption].
Qed.

Section Coarser.
Variables A A' : spmatrix.
Variables m rb cb rb' cb' : Dict.t nat.
Variables ll ll' : list (list nat).
Variable N : nat.
Hypothesis Hshape : shape A = (N, N).
Hypothesis Hshape' : shape A' = (N, N).
Hypothesis D : decomposition A m rb cb ll.
Hypothesis D' : decomposition A' m rb' cb' ll'.
Hypothesis Hmore : forall i j, nonzero A i j -> nonzero A' i j.

Lemma edge_kept r s : row_edge A m r s -> row_edge A' m r s.
Proof. intros (Hne & c & Hc & Hnz). split; [exact Hne|eauto]. Qed.

(** Rows of one block stay together when entries are added. *)
Lemma together r s b :
  get rb r = Some b -> get rb s = Some b ->
  exists b', get rb' r = Some b' /\ get rb' s = Some b'.
Proof.
  intros Hr Hs.
  pose proof (row_block_bound A m rb cb ll N Hshape D r b Hr) as HrN.
  pose proof (row_block_bound A m rb cb ll N Hshape D s b Hs) as HsN.
  destruct (row_block A' m rb' cb' ll' N Hshape' D' r HrN) as (b1 & Hb1 & _).
  destruct (row_block A' m rb' cb' ll' N Hshape' D' s HsN) as (b2 & Hb2 & _).
  exists b1. split; [exact Hb1|]. rewrite Hb2. f_equal. symmetry.
  apply (dec_same _ _ _ _ _ D' r s b1 b2 Hb1 Hb2).
  assert (Hmut : mutual (row_edge A m) r s).
  { apply (dec_same _ _ _ _ _ D r s b b Hr Hs). reflexivity. }
  destruct Hmut as [H1 H2].
  split; eapply clos_rt_incl; try eassumption; apply edge_kept.
Qed.

Lemma fewer_blocks : length ll' <= length ll.
Proof.
  set (f := induced N (fun i => i) rb rb').
  assert (Hf : forall r b, get rb r = Some b -> get rb' r = Some (f b)).
  { intros r b Hb.
    pose proof (row_block_bound A m rb cb ll N Hshape D r b Hb) as Hr.
    unfold f, induced.
    destruct (find (fun r0 => block_of rb r0 =? b) (seq 0 N)) as [r0|] eqn:E.
    - apply find_some in E as [Hr0 E0]. apply in_seq in Hr0.
      apply Nat.eqb_eq in E0.
      destruct (row_block A m rb cb ll N Hshape D r0) as (b0 & Hb0 & _); [lia|].
      unfold block_of in E0. rewrite Hb0 in E0. subst b0.
      destruct (together r r0 b Hb Hb0) as (b' & H1 & H2).
      unfold block_of. rewrite H2. exact H1.
    - exfalso. pose proof (find_none _ _ E r) as Hn.
      unfold block_of in Hn. rewrite Hb, Nat.eqb_refl in Hn.
      assert (Hin : In r (seq 0 N)) by (apply in_seq; lia).
      specialize (Hn Hin). discriminate. }
  assert (H : length (seq 0 (length ll')) <=
              length (map f (seq 0 (length ll)))).
  { apply NoDup_incl_length; [apply seq_NoDup|].
    intros b' Hb'. apply in_seq in Hb'.
    destruct (dec_inhabited _ _ _ _ _ D' b') as (r & Hr); [lia|].
    pose proof (row_block_bound A' m rb' cb' ll' N Hshape' D' r b' Hr) as HrN.
    destruct (row_block A m rb cb ll N Hshape D r HrN) as (b & Hb & Hbl).
    apply in_map_iff. exists b. split; [|apply in_seq; lia].
    pose proof (Hf r b Hb). congruence. }
  rewrite length_map, !length_seq in H. exact H.
Qed.

End Coarser.
End Compare.

(** X14. Only the pattern of the matrix matters: two matrices of the
    same shape with an entry at the same places, however the entries
    are ordered or repeated in storage, give the same decomposition
    for the same matching, up to a renaming [sigma] of the blocks. *)
Theorem stored_pattern_only mm scc topo A matching A' matching' :
  square A -> wf_matrix A ->
  perfect_matching A (the_matching mm A matching) ->
  library_contracts scc topo A (the_matching mm A matching) ->
  shape A' = shape A ->
  (forall i j, nonzero A' i j <-> nonzero A i j) ->
  the_matching mm A' matching' = the_matching mm A matching ->
  library_contracts scc topo A' (the_matching mm A' matching') ->
  exists rb cb ll rb' cb' ll' sigma,
    block_triangularize mm scc topo A matching = Ok (rb, cb, ll) /\
    block_triangularize mm scc topo A' matching' = Ok (rb', cb', ll') /\
    length ll' = length ll /\
    permutes (length ll) sigma /\
    (forall r b, get rb r = Some b -> get rb' r = Some (sigma b)) /\
    (forall c b, get cb c = Some b -> get cb' c = Some (sigma b)) /\
    (forall b b2, b < length ll -> b2 < length ll ->
                  (adjacent ll b b2 <-> adjacent ll' (sigma b) (sigma b2))).
Proof.
  intros Hsq Hwf Hpm Hlib Hsh Hsame Hm Hlib'.
  assert (Hsq' : square A') by (unfold square; rewrite Hsh; exact Hsq).
  assert (Hwf' : wf_matrix A').
  { intros i j Hin. rewrite Hsh. apply Hwf. apply Hsame. exact Hin. }
  assert (Hpm' : perfect_matching A' (the_matching mm A' matching')).
  { rewrite Hm. destruct Hpm as (H1 & H2 & H3 & H4).
    split; [exact H1|]. split; [rewrite Hsh; exact H2|].
    split; [exact H3|]. intros r c Hin. apply Hsame. apply H4. exact Hin. }
  destruct (valid_run mm scc topo A matching Hsq Hwf Hpm Hlib)
    as (N & rb & cb & ll & Hshape & Hrun & D).
  destruct (valid_run mm scc topo A' matching' Hsq' Hwf' Hpm' Hlib')
    as (N' & rb' & cb' & ll' & Hshape' & Hrun' & D').
  set (same := fun i : nat => i).
  assert (Hp : permutes N same).
  { split; [intros i Hi; exact Hi|intros i j _ _ E; exact E]. }
  assert (Hrel : relabelled same same A A' (the_matching mm A matching)
                            (the_matching mm A' matching')).
  { split; [exact Hsh|]. split; [intros i j _ _; apply Hsame|].
    intros r c H. rewrite Hm. exact H. }
  pose proof (Relabel.same_number_of_blocks
                A A' _ _ rb cb rb' cb' ll ll' N same same
                Hshape Hwf Hwf' Hpm Hpm' D D' Hp Hrel) as Hlen.
  exists rb, cb, ll, rb', cb', ll', (induced N same rb rb').
  split; [exact Hrun|]. split; [exact Hrun'|]. split; [exact Hlen|].
  split; [split|].
  - intros b Hb. rewrite <- Hlen.
    apply (Relabel.induced_bound A A' _ _ rb cb rb' cb' ll ll' N same same
             Hshape Hwf Hwf' Hpm Hpm' D D' Hp Hrel b Hb).
  - apply (Relabel.induced_inj A A' _ _ rb cb rb' cb' ll ll' N same same
             Hshape Hwf Hwf' Hpm Hpm' D D' Hp Hrel).
  - split; [|split].
    + apply (Relabel.induced_spec A A' _ _ rb cb rb' cb' ll ll' N same same
               Hshape Hwf Hwf' Hpm Hpm' D D' Hp Hrel).
    + apply (Relabel.induced_col A A' _ _ rb cb rb' cb' ll ll' N same same
               Hshape Hwf Hwf' Hpm Hpm' D D' Hp Hrel).
    + apply (Relabel.adjacent_iso A A' _ _ rb cb rb' cb' ll ll' N same same
               Hshape Hwf Hwf' Hpm Hpm' D D' Hp Hrel).
Qed.

(** On the arrow matrix and the same entries in another order, one of
    them stored twice. *)
Lemma stored_pattern_only_witness :
  exists rb cb ll rb' cb' ll' sigma,
    Reference.run Examples.arrow3 (Some Examples.identity3) = Ok (rb, cb, ll) /\
    Reference.run Examples.arrow3_shuffled (Some Examples.identity3) =
    Ok (rb', cb', ll') /\
    length ll' = length ll /\
    permutes (length ll) sigma /\
    (forall r b, get rb r = Some b -> get rb' r = Some (sigma b)) /\
    (forall c b, get cb c = Some b -> get cb' c = Some (sigma b)) /\
    (forall b b2, b < length ll -> b2 < length ll ->
                  (adjacent ll b b2 <-> adjacent ll' (sigma b) (sigma b2))).
Proof.
  apply (stored_pattern_only
           Reference.maximum_matching Reference.strongly_connected_components
           Reference.topological_sort
           Examples.arrow3 (Some Examples.identity3)
           Examples.arrow3_shuffled (Some Examples.identity3)).
  1-4: decide_hypothesis.
  - reflexivity.
  - intros i j. unfold nonzero. simpl. tauto.
  - reflexivity.
  - decide_hypothesis.
Defined.

(** X15. Entries only merge blocks: when a matrix gains entries and the
    matching stays, rows that shared a block still share one, and there
    are no more blocks than before. *)
Theorem more_entries_coarser_blocks mm scc topo A matching A' matching' :
  square A -> wf_matrix A ->
  perfect_matching A (the_matching mm A matching) ->
  library_contracts scc topo A (the_matching mm A matching) ->
  shape A' = shape A -> wf_matrix A' ->
  (forall i j, nonzero A i j -> nonzero A' i j) ->
  the_matching mm A' matching' = the_matching mm A matching ->
  library_contracts scc topo A' (the_matching mm A' matching') ->
  exists rb cb ll rb' cb' ll',
    block_triangularize mm scc topo A matching = Ok (rb, cb, ll) /\
    block_triangularize mm scc topo A' matching' = Ok (rb', cb', ll') /\
    length ll' <= length ll /\
    forall r s b,
      get rb r = Some b -> get rb s = Some b ->
      exists b', get rb' r = Some b' /\ get rb' s = Some b'.
Proof.
  intros Hsq Hwf Hpm Hlib Hsh Hwf' Hmore Hm Hlib'.
  assert (Hsq' : square A') by (unfold square; rewrite Hsh; exact Hsq).
  assert (Hpm' : perfect_matching A' (the_matching mm A' matching')).
  { rewrite Hm. destruct Hpm as (H1 & H2 & H3 & H4).
    split; [exact H1|]. split; [rewrite Hsh; exact H2|].
    split; [exact H3|]. intros r c Hin. apply Hmore. apply H4. exact Hin. }
  destruct (valid_run mm scc topo A matching Hsq Hwf Hpm Hlib)
    as (N & rb & cb & ll & Hshape & Hrun & D).
  destruct (valid_run mm scc topo A' matching' Hsq' Hwf' Hpm' Hlib')
    as (N' & rb' & cb' & ll' & Hshape' & Hrun' & D').
  assert (N' = N) by congruence. subst N'. rewrite Hm in D'.
  exists rb, cb, ll, rb', cb', ll'.
  split; [exact Hrun|]. split; [exact Hrun'|]. split.
  - apply (Compare.fewer_blocks A A' _ rb cb rb' cb' ll ll' N
             Hshape Hshape' D D' Hmore).
  - apply (Compare.together A A' _ rb cb rb' cb' ll ll' N
             Hshape Hshape' D D' Hmore).
Qed.

(** From the lower triangular 2 by 2 matrix to the dense one. *)
Lemma more_entries_coarser_blocks_witness :
  exists rb cb ll rb' cb' ll',
    Reference.run Examples.lower2 (Some Examples.identity2) = Ok (rb, cb, ll) /\
    Reference.run Examples.dense2 (Some Examples.identity2) =
    Ok (rb', cb', ll') /\
    length ll' <= length ll /\
    forall r s b,
      get rb r = Some b -> get rb s = Some b ->
      exists b', get rb' r = Some b' /\ get rb' s = Some b'.
Proof.
  apply (more_entries_coarser_blocks
           Reference.maximum_matching Reference.strongly_connected_components
           Reference.topological_sort
           Examples.lower2 (Some Examples.identity2)
           Examples.dense2 (Some Examples.identity2)).
  1-4: decide_hypothesis.
  - reflexivity.
  - decide_hypothesis.
  - intros i j. unfold nonzero. simpl. tauto.
  - reflexivity.
  - decide_hypothesis.
Defined.
